(** * Ingestion and retrieval pipeline: shallow embedding and properties

    The development follows the TypeScript sources:
    - [netlify/functions/background/ingest.ts]: text cleaning, chunking,
      embedding with retry, batch persistence with the content-hash cache,
      and the ingestion handler; from its earlier form, the placeholder
      embedding computed from the digest;
    - the query handler ([rag-query.ts], in its validated and its earlier
      form) with [shared/utils.ts]: validation, vector search, context
      packing and answer streaming.

    JavaScript strings are sequences of UTF-16 code units, arrays are lists,
    numbers that the code uses as indices and counters are integers,
    products and quotients that are not integers are computed in double
    precision, and asynchronous code is written in a state-and-exception
    monad over the collaborators (relational store, blob store, embedding
    and completion services, console, timers).  The relational store is
    the one that [db-migrate.ts] sets up: a statement that names a column
    its table does not have is refused. *)

From Stdlib Require Import String Ascii DecimalString.
From Stdlib Require Import List ZArith NArith Lia Bool QArith.
From Stdlib Require PrimFloat Uint63 SpecFloat FloatOps.
Import ListNotations.
Close Scope Q_scope.

Set Implicit Arguments.

(* ===================================================================== *)
(** ** JavaScript strings and arrays *)
(* ===================================================================== *)

Module JS.

(** A string is its list of UTF-16 code units. *)
Definition jsstring := list N.

(** String literals of the source, written as Rocq strings. *)
Definition lit (s : string) : jsstring :=
  List.map N_of_ascii (list_ascii_of_string s).

Definition str_eqb (a b : jsstring) : bool :=
  if list_eq_dec N.eq_dec a b then true else false.

(** Truthiness of a string: only the empty string is falsy. *)
Definition truthy (s : jsstring) : bool :=
  match s with [] => false | _ :: _ => true end.

(** [LineTerminator]: LF, CR, LS, PS. *)
Definition isLineTerminator (c : N) : bool :=
  ((c =? 10) || (c =? 13) || (c =? 8232) || (c =? 8233))%N.

(** The class [\s] (and the set removed by [trim]): WhiteSpace and
    LineTerminator code units. *)
Definition isWhiteSpace (c : N) : bool :=
  (((9 <=? c) && (c <=? 13)) || (c =? 32) || (c =? 160) || (c =? 5760)
   || ((8192 <=? c) && (c <=? 8202)) || (c =? 8232) || (c =? 8233)
   || (c =? 8239) || (c =? 8287) || (c =? 12288) || (c =? 65279))%N.

(** The class [\d]. *)
Definition isDigit (c : N) : bool := ((48 <=? c) && (c <=? 57))%N.

Definition LF : N := 10%N.
Definition SP : N := 32%N.

Fixpoint dropWhile {A} (p : A -> bool) (l : list A) : list A :=
  match l with
  | [] => []
  | x :: r => if p x then dropWhile p r else l
  end.

Definition trimStart (s : jsstring) : jsstring := dropWhile isWhiteSpace s.
Definition trimEnd (s : jsstring) : jsstring :=
  rev (dropWhile isWhiteSpace (rev s)).

(** [String.prototype.trim]. *)
Definition trim (s : jsstring) : jsstring := trimEnd (trimStart s).

(** [s.split(/\s+/)]: the pieces between maximal whitespace runs; a
    leading or trailing run leaves an empty first or last piece and the
    empty string gives one empty piece. *)
Fixpoint split_ws (s : jsstring) : list jsstring :=
  match s with
  | [] => [[]]
  | c :: rest =>
      let r := split_ws rest in
      if isWhiteSpace c then
        match rest with
        | c' :: _ => if isWhiteSpace c' then r else [] :: r
        | [] => [] :: r
        end
      else
        match r with
        | w :: ws => (c :: w) :: ws
        | [] => [[c]]
        end
  end.

(** [words.join(' ')]. *)
Fixpoint join_sp (ws : list jsstring) : jsstring :=
  match ws with
  | [] => []
  | [w] => w
  | w :: rest => w ++ SP :: join_sp rest
  end.

(** [Array.prototype.slice(start, end)] with relative (negative) indices
    resolved against the length and both ends clamped. *)
Definition slice {A} (l : list A) (start end_ : Z) : list A :=
  let len := Z.of_nat (length l) in
  let k := if (start <? 0)%Z then Z.max (len + start) 0 else Z.min start len in
  let fin := if (end_ <? 0)%Z then Z.max (len + end_) 0 else Z.min end_ len in
  firstn (Z.to_nat (fin - k)) (skipn (Z.to_nat k) l).

(** [s.substring(0, n)] for [n >= 0]. *)
Definition substring0 (s : jsstring) (n : Z) : jsstring :=
  firstn (Z.to_nat n) s.

(** *** Global regular-expression replacement

    [s.replace(re, repl)] with the [g] flag scans left to right; at each
    position the matcher, told whether the position is at a line start
    (for [^] under the [m] flag), answers with the length of the match.
    A match is replaced and the scan resumes after it.  The matchers below
    never match the empty string. *)
Fixpoint replaceAll (m : bool -> jsstring -> option nat) (repl : jsstring)
         (bol : bool) (skip : nat) (s : jsstring) : jsstring :=
  match s with
  | [] => []
  | c :: rest =>
      match skip with
      | S k => replaceAll m repl (isLineTerminator c) k rest
      | O =>
          match m bol s with
          | Some (S k) => repl ++ replaceAll m repl (isLineTerminator c) k rest
          | _ => c :: replaceAll m repl (isLineTerminator c) 0 rest
          end
      end
  end.

Definition replace_g m repl (s : jsstring) : jsstring :=
  replaceAll m repl true 0 s.

(** Number of leading characters in a class. *)
Fixpoint span (p : N -> bool) (s : jsstring) : nat :=
  match s with
  | c :: r => if p c then S (span p r) else 0
  | [] => 0
  end.

(** [prefix p s]: the rest of [s] after the literal [p], if [s] starts
    with it. *)
Fixpoint prefix (p s : jsstring) : option jsstring :=
  match p, s with
  | [], _ => Some s
  | a :: p', b :: s' => if (a =? b)%N then prefix p' s' else None
  | _ :: _, [] => None
  end.

(** [word \d+] as a greedy match at the head of [s]: its length. *)
Definition lit_digits (word : string) (s : jsstring) : option nat :=
  match prefix (lit word) s with
  | Some r =>
      match span isDigit r with
      | O => None
      | S d => Some (length (lit word) + S d)
      end
  | None => None
  end.

(** [\s*$] under the [m] flag, greedy with backtracking: the largest [k]
    such that the first [k] characters are whitespace and position [k] is
    the end of input or stands before a line terminator. *)
Fixpoint ws_eol (s : jsstring) : option nat :=
  match s with
  | [] => Some 0
  | c :: r =>
      if isWhiteSpace c then
        match ws_eol r with
        | Some k => Some (S k)
        | None => if isLineTerminator c then Some 0 else None
        end
      else None
  end.

(** [\d+\s*$]: giving back digits never helps, the next character would
    be a digit. *)
Definition digits_eol (s : jsstring) : option nat :=
  match span isDigit s with
  | O => None
  | S d =>
      match ws_eol (skipn (S d) s) with
      | Some k => Some (S d + k)
      | None => None
      end
  end.

Definition orElse {A} (a b : option A) : option A :=
  match a with Some _ => a | None => b end.

(** [/^(Page \d+|\d+\s*$)/gm] *)
Definition re_page_footer (bol : bool) (s : jsstring) : option nat :=
  if bol then orElse (lit_digits "Page " s) (digits_eol s) else None.

(** [/^(Chapter \d+|Section \d+)/gm] *)
Definition re_heading (bol : bool) (s : jsstring) : option nat :=
  if bol then orElse (lit_digits "Chapter " s) (lit_digits "Section " s)
  else None.

(** [/\s+/g] *)
Definition re_ws_run (_ : bool) (s : jsstring) : option nat :=
  match span isWhiteSpace s with O => None | n => Some n end.

(** [\s*\n] greedy with backtracking: the largest [k] such that the first
    [k] characters are whitespace and character [k] is a line feed. *)
Fixpoint ws_lf (s : jsstring) : option nat :=
  match s with
  | [] => None
  | c :: r =>
      if isWhiteSpace c then
        match ws_lf r with
        | Some k => Some (S k)
        | None => if (c =? LF)%N then Some 0 else None
        end
      else None
  end.

(** [/\n\s*\n/g] *)
Definition re_blank_lines (_ : bool) (s : jsstring) : option nat :=
  match s with
  | c :: r =>
      if (c =? LF)%N then
        match ws_lf r with Some k => Some (k + 2) | None => None end
      else None
  | [] => None
  end.

End JS.

Import JS.

(* ===================================================================== *)
(** ** JavaScript numbers *)
(* ===================================================================== *)

Module Number.

Import PrimFloat.

(** The number that holds an integer: the integer itself when a double
    holds it exactly (every integer up to [2^53] in absolute value does),
    the nearest double otherwise, [Infinity] from [2^1024] on. *)
Definition ofZ (z : Z) : float :=
  FloatOps.SF2Prim (SpecFloat.binary_normalize 53 1024 z 0 false).

(** [Math.floor(x)] as an integer; [None] when [x] is not finite. *)
Definition floor (x : float) : option Z :=
  match FloatOps.Prim2SF x with
  | SpecFloat.S754_zero _ => Some 0%Z
  | SpecFloat.S754_finite s m e =>
      let n := if s then Z.neg m else Z.pos m in
      Some (if (0 <=? e)%Z then n * 2 ^ e else n / 2 ^ (- e))%Z
  | _ => None
  end.

(** The literal [1.3]: the double nearest to it. *)
Definition lit_1_3 : float := 0x1.4cccccccccccdp+0%float.

Definition one : float := 1%float.

End Number.

(* ===================================================================== *)
(** ** Collaborators and effects *)
(* ===================================================================== *)

(** A thrown value: an [Error] with its message. *)
Record Exn := Error { message : jsstring }.

(** [number[]]: an embedding vector. *)
Definition Embedding := list Q.

Definition Buffer := list N.

Inductive Status := UPLOADED | PROCESSING | READY | ERROR.

(** The keys of a document's [metadata] object that the code reads or
    writes. *)
Record Metadata := {
  md_doc_id : option jsstring;
  md_status : option Status;
  md_blob_path : option jsstring;
  md_original_filename : option jsstring;
  md_mimetype : option jsstring;
  md_chunks_count : option Z;
  md_total_tokens : option Z;
  md_processed_at : option Z
}.

(** A row of [rag.documents]. *)
Record Document := {
  d_id : Z;
  d_title : jsstring;
  d_content : jsstring;
  d_metadata : Metadata;
  d_updated_at : Z
}.

(** A row of [rag.embeddings]. *)
Record EmbeddingRow := {
  e_id : Z;
  e_document_id : option Z;
  e_chunk_index : Z;
  e_content : jsstring;
  e_content_hash : option jsstring;
  e_embedding : Embedding;
  e_token_count : Z;
  e_created_at : Z
}.

(** A row of [rag.retrieval_logs]. *)
Record RetrievalLog := {
  rl_request_id : jsstring;
  rl_query_text : jsstring;
  rl_chunk_ids : list Z;
  rl_latency_ms : Z;
  rl_doc_id : option jsstring;
  rl_top_k : Q
}.

(** Lines written with [console.error]. *)
Inductive LogLine :=
| EmbeddingAttemptFailed (attempt : Z) (e : Exn)
| FailedToProcessChunk (chunkIndex : Z) (e : Exn)
| BatchHadFailures (count : nat) (indices : list Z)
| TextExtractionError (e : Exn)
| IngestionError (e : Exn)
| FailedToUpdateErrorStatus (e : Exn)
| FailedToLogRetrieval (e : Exn)
| RagQueryError (e : Exn)
| StreamingError (e : Exn).

(** A JSON value. *)
#[local] Set Warnings "-register-all".
Inductive json :=
| JNull
| JBool (b : bool)
| JNum (q : Q)
| JStr (s : jsstring)
| JArr (items : list json)
| JObj (fields : list (jsstring * json)).

(** One item of an incremental completion: [choices[0]?.delta?.content]. *)
Definition Delta := option jsstring.

(** What the process cannot decide: the services it calls and the
    environment it runs in.  Requests and store round trips are numbered
    in the order they are made. *)
Record Env := {
  (** [createHash('sha256').update(text).digest('hex')] *)
  sha256_hex : jsstring -> jsstring;
  (** answer of the embeddings endpoint to the [k]-th request *)
  embeddings_create : nat -> jsstring -> Exn + Embedding;
  (** failure, if any, of the [k]-th round trip to the relational store *)
  pg_fault : nat -> option Exn;
  (** the [uploads] blob store *)
  uploads_get : jsstring -> option Buffer;
  (** [fetch(url)]: status and body, or a network failure *)
  fetch : jsstring -> Exn + (Z * Buffer);
  (** [new URL(u).pathname], when [u] parses *)
  url_pathname : jsstring -> option jsstring;
  utf8_decode : Buffer -> jsstring;
  (** [JSON.parse] *)
  JSON_parse : jsstring -> Exn + json;
  pdf_parse : Buffer -> Exn + jsstring;
  mammoth_extractRawText : Buffer -> Exn + jsstring;
  (** pgvector's [<=>], taken as an exact number *)
  cosine_distance : Embedding -> Embedding -> Q;
  (** whether [process.env.OPENAI_API_KEY] is set *)
  has_openai_key : bool;
  (** answer of the chat endpoint to the [k]-th non-streaming request *)
  chat_complete : nat -> jsstring -> jsstring -> Exn + option jsstring;
  (** answer of the chat endpoint to the [k]-th streaming request: refusal,
      or the deltas delivered and the failure, if any, that ends them *)
  chat_stream : nat -> jsstring -> jsstring -> Exn + (list Delta * option Exn);
  randomUUID : nat -> jsstring
}.

(** The state the code reads and writes. *)
Record World := {
  documents : list Document;
  embeddings : list EmbeddingRow;
  embeddings_id_seq : Z;
  retrieval_logs : list RetrievalLog;
  pg_trips : nat;
  embed_requests : list jsstring;
  chat_requests : nat;
  uuids : nat;
  clock : Z;
  console : list LogLine;
  rateLimitMap : list (jsstring * (Z * Z))
}.

Definition set_documents v (w : World) : World :=
  {| documents := v; embeddings := embeddings w;
     embeddings_id_seq := embeddings_id_seq w;
     retrieval_logs := retrieval_logs w; pg_trips := pg_trips w;
     embed_requests := embed_requests w; chat_requests := chat_requests w;
     uuids := uuids w; clock := clock w; console := console w;
     rateLimitMap := rateLimitMap w |}.

Definition set_embeddings v s (w : World) : World :=
  {| documents := documents w; embeddings := v; embeddings_id_seq := s;
     retrieval_logs := retrieval_logs w; pg_trips := pg_trips w;
     embed_requests := embed_requests w; chat_requests := chat_requests w;
     uuids := uuids w; clock := clock w; console := console w;
     rateLimitMap := rateLimitMap w |}.

Definition set_retrieval_logs v (w : World) : World :=
  {| documents := documents w; embeddings := embeddings w;
     embeddings_id_seq := embeddings_id_seq w;
     retrieval_logs := v; pg_trips := pg_trips w;
     embed_requests := embed_requests w; chat_requests := chat_requests w;
     uuids := uuids w; clock := clock w; console := console w;
     rateLimitMap := rateLimitMap w |}.

Definition set_pg_trips v (w : World) : World :=
  {| documents := documents w; embeddings := embeddings w;
     embeddings_id_seq := embeddings_id_seq w;
     retrieval_logs := retrieval_logs w; pg_trips := v;
     embed_requests := embed_requests w; chat_requests := chat_requests w;
     uuids := uuids w; clock := clock w; console := console w;
     rateLimitMap := rateLimitMap w |}.

Definition set_embed_requests v (w : World) : World :=
  {| documents := documents w; embeddings := embeddings w;
     embeddings_id_seq := embeddings_id_seq w;
     retrieval_logs := retrieval_logs w; pg_trips := pg_trips w;
     embed_requests := v; chat_requests := chat_requests w;
     uuids := uuids w; clock := clock w; console := console w;
     rateLimitMap := rateLimitMap w |}.

Definition set_chat_requests v (w : World) : World :=
  {| documents := documents w; embeddings := embeddings w;
     embeddings_id_seq := embeddings_id_seq w;
     retrieval_logs := retrieval_logs w; pg_trips := pg_trips w;
     embed_requests := embed_requests w; chat_requests := v;
     uuids := uuids w; clock := clock w; console := console w;
     rateLimitMap := rateLimitMap w |}.

Definition set_uuids v (w : World) : World :=
  {| documents := documents w; embeddings := embeddings w;
     embeddings_id_seq := embeddings_id_seq w;
     retrieval_logs := retrieval_logs w; pg_trips := pg_trips w;
     embed_requests := embed_requests w; chat_requests := chat_requests w;
     uuids := v; clock := clock w; console := console w;
     rateLimitMap := rateLimitMap w |}.

Definition set_clock v (w : World) : World :=
  {| documents := documents w; embeddings := embeddings w;
     embeddings_id_seq := embeddings_id_seq w;
     retrieval_logs := retrieval_logs w; pg_trips := pg_trips w;
     embed_requests := embed_requests w; chat_requests := chat_requests w;
     uuids := uuids w; clock := v; console := console w;
     rateLimitMap := rateLimitMap w |}.

Definition set_console v (w : World) : World :=
  {| documents := documents w; embeddings := embeddings w;
     embeddings_id_seq := embeddings_id_seq w;
     retrieval_logs := retrieval_logs w; pg_trips := pg_trips w;
     embed_requests := embed_requests w; chat_requests := chat_requests w;
     uuids := uuids w; clock := clock w; console := v;
     rateLimitMap := rateLimitMap w |}.

Definition set_rateLimitMap v (w : World) : World :=
  {| documents := documents w; embeddings := embeddings w;
     embeddings_id_seq := embeddings_id_seq w;
     retrieval_logs := retrieval_logs w; pg_trips := pg_trips w;
     embed_requests := embed_requests w; chat_requests := chat_requests w;
     uuids := uuids w; clock := clock w; console := console w;
     rateLimitMap := v |}.

(** *** The monad of asynchronous code

    A computation ends by returning, by throwing, or not at all within
    the fuel given to its loops; state changes made before a throw
    stay. *)
Inductive Outcome (A : Type) :=
| Return (a : A)
| Throw (e : Exn)
| OutOfFuel.
Arguments Return {A} a.
Arguments Throw {A} e.
Arguments OutOfFuel {A}.

Definition M (A : Type) := World -> Outcome A * World.

Definition ret {A} (a : A) : M A := fun w => (Return a, w).
Definition throw {A} (e : Exn) : M A := fun w => (Throw e, w).
Definition diverge {A} : M A := fun w => (OutOfFuel, w).

Definition bind {A B} (c : M A) (k : A -> M B) : M B :=
  fun w =>
    match c w with
    | (Return a, w') => k a w'
    | (Throw e, w') => (Throw e, w')
    | (OutOfFuel, w') => (OutOfFuel, w')
    end.

Declare Scope js_scope.
Delimit Scope js_scope with js.
Notation "x <- c ;; k" := (bind c (fun x => k))
  (at level 61, c at next level, right associativity) : js_scope.
Notation "c ;; k" := (bind c (fun _ => k))
  (at level 61, right associativity) : js_scope.
Open Scope js_scope.

(** [try { c } catch (e) { h e }] *)
Definition try_catch {A} (c : M A) (h : Exn -> M A) : M A :=
  fun w =>
    match c w with
    | (Throw e, w') => h e w'
    | r => r
    end.

(** [try { c } finally { f }] *)
Definition try_finally {A} (c : M A) (f : M unit) : M A :=
  fun w =>
    match c w with
    | (Return a, w') => (a' <- f ;; ret a) w'
    | (Throw e, w') => (a' <- f ;; throw e) w'
    | (OutOfFuel, w') => (OutOfFuel, w')
    end.

(** The settled result of a promise, as a value. *)
Definition settle {A} (c : M A) : M (Exn + A) :=
  fun w =>
    match c w with
    | (Return a, w') => (Return (inr a), w')
    | (Throw e, w') => (Return (inl e), w')
    | (OutOfFuel, w') => (OutOfFuel, w')
    end.

Definition unsettle {A} (r : Exn + A) : M A :=
  match r with inl e => throw e | inr a => ret a end.

Definition get {A} (f : World -> A) : M A := fun w => (Return (f w), w).
Definition modify (f : World -> World) : M unit := fun w => (Return tt, f w).

Fixpoint mapM {A B} (f : A -> M B) (l : list A) : M (list B) :=
  match l with
  | [] => ret []
  | x :: r => y <- f x ;; ys <- mapM f r ;; ret (y :: ys)
  end.

Fixpoint forM_ {A} (l : list A) (f : A -> M unit) : M unit :=
  match l with
  | [] => ret tt
  | x :: r => f x ;; forM_ r f
  end.

Definition console_error (l : LogLine) : M unit :=
  modify (fun w => set_console (console w ++ [l]) w).

(** [setTimeout(resolve, ms)]: Node keeps a delay between 1 and
    [TIMEOUT_MAX] = 2^31 - 1 milliseconds, and replaces any other by 1. *)
Definition TIMEOUT_MAX : Z := 2147483647.

Definition timer_delay (ms : Z) : Z :=
  if (1 <=? ms)%Z && (ms <=? TIMEOUT_MAX)%Z then ms else 1%Z.

(** [await sleep(ms)] *)
Definition sleep (ms : Z) : M unit :=
  modify (fun w => set_clock (clock w + timer_delay ms)%Z w).

Definition now : M Z := get clock.

(** Small string helpers used by the handlers. *)
Definition truthyO (o : option jsstring) : bool :=
  match o with Some s => truthy s | None => false end.

(** [a || b] on optional strings. *)
Definition orO (a b : option jsstring) : option jsstring :=
  if truthyO a then a else b.

(** A value interpolated into a template literal. *)
Definition showO (o : option jsstring) : jsstring :=
  match o with Some s => s | None => lit "undefined" end.

Definition showZ (z : Z) : jsstring :=
  lit (DecimalString.NilZero.string_of_int (Z.to_int z)).

(** [s.includes(needle)] *)
Fixpoint includes (needle s : jsstring) : bool :=
  match prefix needle s with
  | Some _ => true
  | None => match s with [] => false | _ :: r => includes needle r end
  end.

(** [s.split(sep).pop()]: the part after the last [sep]. *)
Fixpoint afterLast (sep : N) (s : jsstring) : jsstring :=
  match s with
  | [] => []
  | c :: r =>
      if existsb (N.eqb sep) r then afterLast sep r
      else if (c =? sep)%N then r else s
  end.

(** [toLowerCase] on the letters A to Z, which is all that a comparison
    with [pdf], [docx] or [txt] can see. *)
Definition toLowerCase (s : jsstring) : jsstring :=
  List.map (fun c => if ((65 <=? c) && (c <=? 90))%N then (c + 32)%N else c) s.

(** *** Access to the services

    Row predicates of the statements, metadata updates, and the calls
    that reach the store and the embedding service. *)

Definition with_status (md : Metadata) (s : Status) : Metadata :=
  {| md_doc_id := md_doc_id md; md_status := Some s;
     md_blob_path := md_blob_path md;
     md_original_filename := md_original_filename md;
     md_mimetype := md_mimetype md; md_chunks_count := md_chunks_count md;
     md_total_tokens := md_total_tokens md;
     md_processed_at := md_processed_at md |}.

Definition with_ready (md : Metadata) (count tokens at_ : Z) : Metadata :=
  {| md_doc_id := md_doc_id md; md_status := Some READY;
     md_blob_path := md_blob_path md;
     md_original_filename := md_original_filename md;
     md_mimetype := md_mimetype md; md_chunks_count := Some count;
     md_total_tokens := Some tokens;
     md_processed_at := Some at_ |}.

Definition has_doc_id (id : jsstring) (d : Document) : bool :=
  match md_doc_id (d_metadata d) with
  | Some x => str_eqb x id
  | None => false
  end.

Definition has_hash (h : jsstring) (r : EmbeddingRow) : bool :=
  match e_content_hash r with
  | Some x => str_eqb x h
  | None => false
  end.

Section Services.

Variable env : Env.

(** One round trip to the relational store ([connect] or [query]). *)
Definition pg_roundtrip : M unit :=
  fun w =>
    let w' := set_pg_trips (S (pg_trips w)) w in
    match pg_fault env (pg_trips w) with
    | Some e => (Throw e, w')
    | None => (Return tt, w')
    end.

Definition pg_connect : M unit := pg_roundtrip.

(** The columns of the tables, as [db-migrate.ts] creates them. *)
Definition documents_columns : list jsstring :=
  [lit "id"; lit "title"; lit "content"; lit "embedding"; lit "metadata";
   lit "source_url"; lit "document_type"; lit "created_by";
   lit "created_at"; lit "updated_at"].

Definition embeddings_columns : list jsstring :=
  [lit "id"; lit "document_id"; lit "chunk_index"; lit "content";
   lit "content_hash"; lit "embedding"; lit "token_count"; lit "created_at"].

(** An identifier as the store prints it, in double quotes. *)
Definition quoted (name : jsstring) : jsstring := 34%N :: name ++ [34%N].

(** The store analyses a statement before it runs it, and refuses one that
    names a column its table lacks, whatever the rows and the parameters:
    in a condition, and as the target of an assignment. *)
Definition undefined_column (name : jsstring) : Exn :=
  Error (lit "column " ++ quoted name ++ lit " does not exist").

Definition undefined_target (name relation : jsstring) : Exn :=
  Error (lit "column " ++ quoted name ++ lit " of relation "
           ++ quoted relation ++ lit " does not exist").
Definition pg_end : M unit := ret tt.

(** [openai.embeddings.create(...)] followed by [response.data[0].embedding]. *)
Definition openai_embeddings_create (text : jsstring) : M Embedding :=
  fun w =>
    let w' := set_embed_requests (embed_requests w ++ [text]) w in
    match embeddings_create env (length (embed_requests w)) text with
    | inl e => (Throw e, w')
    | inr v => (Return v, w')
    end.

End Services.

(* ===================================================================== *)
(** ** background/ingest.ts *)
(* ===================================================================== *)

Module Ingest.

(** [estimateTokens]: [Math.ceil(text.split(/\s+/).length * 1.3)]; the
    product with 1.3 is the exact ceiling of [13 n / 10]. *)
Definition estimateTokens (text : jsstring) : Z :=
  (13 * Z.of_nat (length (split_ws text)) + 9) / 10.

(** The first three replacements of [cleanText]. *)
Definition cleanText_collapsed (text : jsstring) : jsstring :=
  replace_g re_ws_run [SP]
    (replace_g re_heading []
       (replace_g re_page_footer [] text)).

Definition cleanText (text : jsstring) : jsstring :=
  trim (replace_g re_blank_lines [LF] (cleanText_collapsed text)).

(** [const wordsPerToken = 1 / 1.3], a double. *)
Definition wordsPerToken : PrimFloat.float :=
  PrimFloat.div Number.one Number.lit_1_3.

(** [Math.floor(tokens * wordsPerToken)], the product taken in double
    precision as the source takes it: 538 for 700 and 92 for 120, and for
    instance 29 for 39, where the exact quotient is 30.  The product of a
    double with [wordsPerToken] is finite; for an integer from [2^1024] on,
    which no double holds, the count is left at 0. *)
Definition wordsForTokens (tokens : Z) : Z :=
  match Number.floor (PrimFloat.mul (Number.ofZ tokens) wordsPerToken) with
  | Some words => words
  | None => 0%Z
  end.

(** The [while] loop of [chunkText]; [None] when the fuel runs out before
    the loop is left. *)
Fixpoint chunkLoop (fuel : nat) (words : list jsstring)
         (maxWords overlapWords : Z) (start : Z) (chunks : list jsstring)
  : option (list jsstring) :=
  match fuel with
  | O => None
  | S fuel' =>
      let len := Z.of_nat (length words) in
      if (start <? len)%Z then
        let end_ := Z.min (start + maxWords) len in
        let chunk := join_sp (slice words start end_) in
        let chunks' :=
          if truthy (trim chunk) then chunks ++ [trim chunk] else chunks in
        let start' := (end_ - overlapWords)%Z in
        if (start' >=? len)%Z then Some chunks'
        else chunkLoop fuel' words maxWords overlapWords start' chunks'
      else Some chunks
  end.

(** [chunkText(text, maxTokens, overlapTokens)] *)
Definition chunkText (fuel : nat) (text : jsstring)
           (maxTokens overlapTokens : Z) : option (list jsstring) :=
  chunkLoop fuel (split_ws text)
            (wordsForTokens maxTokens) (wordsForTokens overlapTokens) 0 [].

(** The default values of [maxTokens] and [overlapTokens]. *)
Definition maxTokens_default : Z := 700.
Definition overlapTokens_default : Z := 120.

Record ChunkOutcome := {
  chunkIndex : Z;
  success : bool;
  error : option Exn
}.

Record IngestInput := {
  doc_id : option jsstring;
  tenant_id : option jsstring;
  blob_key : option jsstring;
  blob_url : option jsstring
}.

(** The event of the ingestion function: [JSON.parse(event.body || '{}')]
    read at the interface [IngestInput], or [None] when the body is not
    JSON. *)
Record IngestEvent := { ie_body : option IngestInput }.

Record IngestResponse := {
  statusCode : Z;
  r_success : bool;
  r_doc_id : option jsstring;
  r_chunks_processed : option Z;
  r_status : option Status;
  r_error : option jsstring
}.

Section WithEnv.

Variable env : Env.

Definition generateContentHash (text : jsstring) : jsstring :=
  sha256_hex env text.

(** The [for] loop of [getEmbeddingWithRetry]; [remaining] counts the
    iterations left, [maxRetries - attempt + 1]. *)
Fixpoint embedAttempts (remaining : nat) (attempt maxRetries : Z)
         (text : jsstring) : M Embedding :=
  match remaining with
  | O => throw (Error (lit "Max retries exceeded"))
  | S remaining' =>
      r <- settle (openai_embeddings_create env text) ;;
      match r with
      | inr embedding => ret embedding
      | inl err =>
          console_error (EmbeddingAttemptFailed attempt err) ;;
          if (attempt =? maxRetries)%Z then throw err
          else
            sleep (2 ^ (attempt - 1) * 1000)%Z ;;
            embedAttempts remaining' (attempt + 1)%Z maxRetries text
      end
  end.

Definition getEmbeddingWithRetry (text : jsstring) (maxRetries : Z)
  : M Embedding :=
  embedAttempts (Z.to_nat maxRetries) 1 maxRetries text.

(** [SELECT embedding FROM rag.embeddings WHERE content_hash = $1] *)
Definition select_embedding_by_hash (contentHash : jsstring)
  : M (list Embedding) :=
  pg_roundtrip env ;;
  get (fun w => List.map e_embedding
                  (filter (has_hash contentHash) (embeddings w))).

(** [INSERT INTO rag.embeddings (...) VALUES (...)
     ON CONFLICT (content_hash) DO UPDATE SET document_id = ...,
     chunk_index = ..., updated_at = CURRENT_TIMESTAMP].  The statement
    assigns to [updated_at], and [rag.embeddings] has no such column
    ([embeddings_columns]): the store refuses the statement when it
    analyses it, on every call and whether or not a row conflicts, and
    inserts or changes no row. *)
Definition upsert_embedding (dbDocId chunkIndex : Z)
           (chunk contentHash : jsstring) (embedding : Embedding)
           (tokenCount : Z) : M unit :=
  pg_roundtrip env ;;
  throw (undefined_target (lit "updated_at") (lit "embeddings")).

(** The part of the batch callback up to its first [await]: the cache
    lookup.  [batch.map] starts every callback at once, so the lookups of
    a batch are all issued, in index order, on the one client before any
    callback resumes, and the client serves its queries in the order
    issued: every lookup of a batch reads the table as the batches before
    it left it. *)
Definition lookupChunk (chunk : jsstring) : M (Exn + list Embedding) :=
  settle (select_embedding_by_hash (generateContentHash chunk)).

(** The rest of the callback, from the lookup's result on.  The
    callbacks of a batch resume in an order that the code does not fix;
    here they run one after the other in index order. *)
Definition persistChunk (dbDocId : Z) (chunkIndex : Z) (chunk : jsstring)
           (existingResult : Exn + list Embedding) : M ChunkOutcome :=
  let contentHash := generateContentHash chunk in
  try_catch
    (rows <- unsettle existingResult ;;
     embedding <- match rows with
                  | cached :: _ => ret cached
                  | [] => getEmbeddingWithRetry chunk 3
                  end ;;
     let tokenCount := estimateTokens chunk in
     upsert_embedding dbDocId chunkIndex chunk contentHash embedding
                      tokenCount ;;
     ret {| chunkIndex := chunkIndex; success := true; error := None |})
    (fun err =>
       console_error (FailedToProcessChunk chunkIndex err) ;;
       ret {| chunkIndex := chunkIndex; success := false;
              error := Some err |}).

Definition batchSize : nat := 10.

(** One iteration of the loop over batches, for the batch starting at
    index [i]. *)
Definition processBatch (chunks : list jsstring) (dbDocId : Z) (i : nat)
  : M unit :=
  let batch := firstn batchSize (skipn i chunks) in
  let indexed := combine (seq i (length batch)) batch in
  looked <- mapM (fun ic => r <- lookupChunk (snd ic) ;; ret (ic, r))
                 indexed ;;
  results <- mapM (fun icr =>
                     persistChunk dbDocId (Z.of_nat (fst (fst icr)))
                                  (snd (fst icr)) (snd icr))
                  looked ;;
  let failures := filter (fun r => negb (success r)) results in
  (match failures with
   | [] => ret tt
   | _ :: _ => console_error (BatchHadFailures (length failures)
                                (List.map chunkIndex failures))
   end) ;;
  if (i + batchSize <? length chunks)%nat then sleep 1000 else ret tt.

(** The values of [i] of
    [for (let i = 0; i < chunks.length; i += batchSize)]. *)
Definition batchStarts (len : nat) : list nat :=
  List.map (fun k => (k * batchSize)%nat)
           (seq 0 ((len + (batchSize - 1)) / batchSize)).

Definition processEmbeddingsBatch (chunks : list jsstring) (dbDocId : Z)
  : M unit :=
  forM_ (batchStarts (length chunks)) (processBatch chunks dbDocId).

(** [extractText]. *)
Definition liftE {A} (r : Exn + A) : M A := unsettle r.

Definition extractText (buffer : Buffer) (filename mimetype : option jsstring)
  : M jsstring :=
  match filename with
  | None =>
      throw (Error (lit "Cannot read properties of undefined (reading 'split')"))
  | Some fn =>
      let ext := toLowerCase (afterLast 46 fn) in
      try_catch
        (match mimetype with
         | None =>
             throw (Error (lit "Cannot read properties of undefined (reading 'includes')"))
         | Some mt =>
             if includes (lit "pdf") mt || str_eqb ext (lit "pdf")
             then liftE (pdf_parse env buffer)
             else if includes (lit "word") mt || str_eqb ext (lit "docx")
             then liftE (mammoth_extractRawText env buffer)
             else if includes (lit "text") mt || str_eqb ext (lit "txt")
             then ret (utf8_decode env buffer)
             else ret (utf8_decode env buffer)
         end)
        (fun err =>
           console_error (TextExtractionError err) ;;
           throw (Error (lit "Failed to extract text from " ++ showO mimetype
                           ++ lit ": " ++ message err)))
  end.

(** [SELECT id, title, metadata FROM rag.documents
     WHERE metadata->>"key" = $1], for the keys [doc_id] and [blob_path].
    The lookups of this handler write the key in double quotes, which make
    it an identifier, the name of a column, where the earlier handler and
    the [catch] write the text ['doc_id'].  [rag.documents] has no column
    of either name ([documents_columns]): the store refuses the statement
    when it analyses it, whatever the rows and the parameter. *)
Definition select_documents (key value : jsstring) : M (list Document) :=
  pg_roundtrip env ;; throw (undefined_column key).

Definition update_document (id : Z) (f : Z -> Document -> Document) : M unit :=
  pg_roundtrip env ;;
  modify (fun w =>
            set_documents
              (List.map (fun d => if (d_id d =? id)%Z then f (clock w) d else d)
                        (documents w)) w).

Definition set_metadata (md : Metadata) (at_ : Z) (d : Document) : Document :=
  {| d_id := d_id d; d_title := d_title d; d_content := d_content d;
     d_metadata := md; d_updated_at := at_ |}.

Definition set_ready (preview : jsstring) (md : Metadata) (count tokens : Z)
           (at_ : Z) (d : Document) : Document :=
  {| d_id := d_id d; d_title := d_title d; d_content := preview;
     d_metadata := with_ready md count tokens at_; d_updated_at := at_ |}.

(** [UPDATE rag.documents SET metadata = jsonb_set(metadata, '{status}',
     '"ERROR"') WHERE metadata->>'doc_id' = $1] *)
Definition mark_error (id : jsstring) : M unit :=
  pg_roundtrip env ;;
  modify (fun w =>
            set_documents
              (List.map (fun d => if has_doc_id id d
                                  then set_metadata
                                         (with_status (d_metadata d) ERROR)
                                         (clock w) d
                                  else d)
                        (documents w)) w).

Definition parseBody (event : IngestEvent) : M IngestInput :=
  match ie_body event with
  | Some input => ret input
  | None => throw (Error (lit "Unexpected token in JSON"))
  end.

(** [new URL(blob_url).pathname.replace(/^\//, '')], empty when the URL
    does not parse. *)
Definition derivedKey (blob_url : jsstring) : jsstring :=
  match url_pathname env blob_url with
  | Some (47%N :: p) => p
  | Some p => p
  | None => []
  end.

(** The handler from the end of chunking on: persist the chunks, mark the
    document READY, answer. *)
Definition handler_persist (doc_id : option jsstring) (metadata : Metadata)
           (dbDocId : Z) (cleanedText : jsstring) (chunks : list jsstring)
  : M IngestResponse :=
  processEmbeddingsBatch chunks dbDocId ;;
  update_document dbDocId
    (set_ready (substring0 cleanedText 10000) metadata
               (Z.of_nat (length chunks))
               (fold_left (fun sum chunk => sum + estimateTokens chunk)%Z
                          chunks 0%Z)) ;;
  ret {| statusCode := 200; r_success := true; r_doc_id := doc_id;
         r_chunks_processed := Some (Z.of_nat (length chunks));
         r_status := Some READY; r_error := None |}.

(** The body of the inner [try] of the handler. *)
Definition handler_try (fuel : nat) (input : IngestInput) : M IngestResponse :=
  docResult <-
    (if truthyO (doc_id input) then
       select_documents (lit "doc_id") (showO (doc_id input))
     else if truthyO (blob_key input) then
       select_documents (lit "blob_path") (showO (blob_key input))
     else if truthyO (blob_url input) then
       let key := derivedKey (showO (blob_url input)) in
       if truthy key then select_documents (lit "blob_path") key
       else throw (Error (lit "Unable to derive blob_key from blob_url"))
     else ret []) ;;
  match docResult with
  | [] => throw (Error (lit "Document not found: " ++ showO (doc_id input)))
  | document :: _ =>
      let metadata := d_metadata document in
      let dbDocId := d_id document in
      update_document dbDocId (set_metadata (with_status metadata PROCESSING)) ;;
      let blobPath := orO (md_blob_path metadata) (blob_key input) in
      fileBuffer <-
        (if truthyO blobPath then
           match uploads_get env (showO blobPath) with
           | Some (b :: data) => ret (Some (b :: data))
           | _ => ret None
           end
         else if truthyO (blob_url input) then
           resp <- liftE (fetch env (showO (blob_url input))) ;;
           if ((200 <=? fst resp) && (fst resp <? 300))%Z
           then ret (Some (snd resp))
           else throw (Error (lit "Failed to fetch blob_url: "
                                ++ showZ (fst resp)))
         else ret None) ;;
      match fileBuffer with
      | None =>
          throw (Error (lit "File not found in blob storage: "
                          ++ showO blobPath))
      | Some buffer =>
          rawText <- extractText buffer (md_original_filename metadata)
                                 (md_mimetype metadata) ;;
          let cleanedText := cleanText rawText in
          if negb (truthy (trim cleanedText)) then
            throw (Error (lit "No text content extracted from document"))
          else
            match chunkText fuel cleanedText maxTokens_default
                            overlapTokens_default with
            | None => diverge
            | Some chunks =>
                handler_persist (doc_id input) metadata dbDocId cleanedText
                                chunks
            end
      end
  end.

(** The [catch] of the handler: log, try to mark the document ERROR,
    answer with the failure. *)
Definition handler_catch (event : IngestEvent) (err : Exn) : M IngestResponse :=
  console_error (IngestionError err) ;;
  try_catch
    (pg_connect env ;;
     input <- parseBody event ;;
     (if truthyO (doc_id input) then mark_error (showO (doc_id input))
      else ret tt) ;;
     pg_end)
    (fun dbError => console_error (FailedToUpdateErrorStatus dbError)) ;;
  ret {| statusCode := 500; r_success := false; r_doc_id := None;
         r_chunks_processed := None; r_status := None;
         r_error := Some (message err) |}.

(** The ingestion handler (the one with cache and retry). *)
Definition handler (fuel : nat) (event : IngestEvent) : M IngestResponse :=
  try_catch
    (input <- parseBody event ;;
     if negb (truthyO (doc_id input)) && negb (truthyO (blob_key input))
        && negb (truthyO (blob_url input))
     then throw (Error (lit "Missing identifier: provide doc_id or blob_key or blob_url"))
     else
       pg_connect env ;;
       try_finally (handler_try fuel input) pg_end)
    (handler_catch event).

End WithEnv.

End Ingest.

Import Ingest.

(* ===================================================================== *)
(** ** Payloads of the query function *)
(* ===================================================================== *)

(** [ErrorCodes] of [shared/utils.ts]. *)
Inductive ErrorCode :=
| VALIDATION_ERROR | RATE_LIMITED | DATABASE_ERROR | EXTERNAL_API_ERROR
| INTERNAL_ERROR | METHOD_NOT_ALLOWED | MISSING_REQUIRED_FIELD.

(** What a zod schema reports. *)
Inductive IssueCode := invalid_type | too_small | too_big.

(** An issue reported by the schema: the key and what is wrong with it. *)
Record ZodIssue := { zi_path : jsstring; zi_code : IssueCode }.

Definition issue (k : string) (c : IssueCode) : ZodIssue :=
  {| zi_path := lit k; zi_code := c |}.

Definition issues_of {A} (r : list ZodIssue + A) : list ZodIssue :=
  match r with inl i => i | inr _ => [] end.

(** [obj[k]] on a parsed object: the last binding of the key. *)
Definition field (k : string) (fields : list (jsstring * json)) : option json :=
  fold_left (fun acc kv => if str_eqb (fst kv) (lit k) then Some (snd kv) else acc)
            fields None.

Definition Qis_int (q : Q) : bool := (Qnum q mod Zpos (Qden q) =? 0)%Z.
Definition Qto_Z (q : Q) : Z := (Qnum q / Zpos (Qden q))%Z.

Inductive Details :=
| NoDetails
| Issues (issues : list ZodIssue)
| ParseMessage (m : jsstring)
| RateWindow (resetTime maxRequests windowMs : Z)
| ErrorMessage (m : jsstring).

Record ChunkResult := {
  cr_id : Z;
  cr_content : jsstring;
  cr_chunk_index : Z;
  cr_similarity : Q;
  cr_document_title : jsstring
}.

(** The payload of one [data: ...] frame of the event stream. *)
Inductive SseEvent :=
| EvMetadata (request_id : jsstring) (latency_ms : Z)
| EvChunks (chunks : list ChunkResult)
| EvToken (content : jsstring)
| EvEnd
| EvError (error : jsstring).

(** The body of a response of the query function. *)
Inductive QueryBody :=
| ErrorBody (error : jsstring) (code : option ErrorCode) (details : Details)
| AnswerBody (request_id : option jsstring) (chunks : list ChunkResult)
             (answer : jsstring) (latency_ms : option Z)
| StreamBody (events : list SseEvent).

Record QueryResponse := {
  q_statusCode : Z;
  q_body : QueryBody
}.

Record Headers := {
  x_forwarded_for : option jsstring;
  x_real_ip : option jsstring;
  cf_connecting_ip : option jsstring;
  accept : option jsstring
}.

Section ChatService.

Variable env : Env.

(** [client.chat.completions.create] with [stream: true]. *)
Definition openai_chat_stream (context prompt_ : jsstring)
  : M (list Delta * option Exn) :=
  fun w =>
    let w' := set_chat_requests (S (chat_requests w)) w in
    match chat_stream env (chat_requests w) context prompt_ with
    | inl e => (Throw e, w')
    | inr s => (Return s, w')
    end.

(** [client.chat.completions.create] without streaming, followed by
    [choices[0]?.message?.content]. *)
Definition openai_chat_complete (context prompt_ : jsstring)
  : M (option jsstring) :=
  fun w =>
    let w' := set_chat_requests (S (chat_requests w)) w in
    match chat_complete env (chat_requests w) context prompt_ with
    | inl e => (Throw e, w')
    | inr s => (Return s, w')
    end.

Definition fresh_uuid : M jsstring :=
  fun w => (Return (randomUUID env (uuids w)), set_uuids (S (uuids w)) w).

End ChatService.

(* ===================================================================== *)
(** ** shared/utils.ts *)
(* ===================================================================== *)

Module Utils.

Record ApiError := {
  ae_error : jsstring;
  ae_code : ErrorCode;
  ae_details : Details
}.

Definition createErrorResponse (statusCode : Z) (error : jsstring)
           (code : ErrorCode) (details : Details) : QueryResponse :=
  {| q_statusCode := statusCode; q_body := ErrorBody error (Some code) details |}.

Section WithEnv.

Variable env : Env.

(** [validateRequestBody(body, schema)] *)
Definition validateRequestBody {T} (body : option jsstring)
           (schema : json -> list ZodIssue + T) : ApiError + T :=
  if negb (truthyO body) then
    inl {| ae_error := lit "Request body is required";
           ae_code := MISSING_REQUIRED_FIELD; ae_details := NoDetails |}
  else
    match JSON_parse env (showO body) with
    | inl parseError =>
        inl {| ae_error := lit "Invalid JSON in request body";
               ae_code := VALIDATION_ERROR;
               ae_details := ParseMessage (message parseError) |}
    | inr parsed =>
        match schema parsed with
        | inl issues =>
            inl {| ae_error := lit "Validation failed";
                   ae_code := VALIDATION_ERROR;
                   ae_details := Issues issues |}
        | inr data => inr data
        end
    end.

End WithEnv.

Definition RATE_LIMIT_WINDOW : Z := 60 * 1000.
Definition RATE_LIMIT_MAX_REQUESTS : Z := 60.

Fixpoint map_get (k : jsstring) (m : list (jsstring * (Z * Z))) : option (Z * Z) :=
  match m with
  | [] => None
  | (k', v) :: r => if str_eqb k' k then Some v else map_get k r
  end.

Fixpoint map_set (k : jsstring) (v : Z * Z) (m : list (jsstring * (Z * Z)))
  : list (jsstring * (Z * Z)) :=
  match m with
  | [] => [(k, v)]
  | (k', v') :: r => if str_eqb k' k then (k, v) :: r else (k', v') :: map_set k v r
  end.

(** [checkRateLimit(ip)]: the error of a refusal, or [None] when the
    request is allowed. *)
Definition checkRateLimit (ip : jsstring) : M (option ApiError) :=
  now_ <- now ;;
  modify (fun w => set_rateLimitMap
                     (filter (fun kv => negb (snd (snd kv) <? now_)%Z)
                             (rateLimitMap w)) w) ;;
  current <- get (fun w => map_get ip (rateLimitMap w)) ;;
  match current with
  | None =>
      modify (fun w => set_rateLimitMap
                         (map_set ip (1, now_ + RATE_LIMIT_WINDOW)%Z
                                  (rateLimitMap w)) w) ;;
      ret None
  | Some (count, resetTime) =>
      if (resetTime <? now_)%Z then
        modify (fun w => set_rateLimitMap
                           (map_set ip (1, now_ + RATE_LIMIT_WINDOW)%Z
                                    (rateLimitMap w)) w) ;;
        ret None
      else if (count >=? RATE_LIMIT_MAX_REQUESTS)%Z then
        ret (Some {| ae_error := lit "Rate limit exceeded. Maximum 60 requests per minute.";
                     ae_code := RATE_LIMITED;
                     ae_details := RateWindow resetTime RATE_LIMIT_MAX_REQUESTS
                                              RATE_LIMIT_WINDOW |})
      else
        modify (fun w => set_rateLimitMap
                           (map_set ip (count + 1, resetTime)%Z
                                    (rateLimitMap w)) w) ;;
        ret None
  end.

(** [s.split(',')[0]] *)
Fixpoint beforeFirst (sep : N) (s : jsstring) : jsstring :=
  match s with
  | [] => []
  | c :: r => if (c =? sep)%N then [] else c :: beforeFirst sep r
  end.

Definition getClientIP (h : Headers) : jsstring :=
  showO (orO (orO (orO (option_map (fun s => trim (beforeFirst 44 s))
                                   (x_forwarded_for h))
                       (x_real_ip h))
                  (cf_connecting_ip h))
             (Some (lit "unknown"))).

End Utils.

Import Utils.

(* ===================================================================== *)
(** ** rag-query.ts *)
(* ===================================================================== *)

Module RagQuery.

(** The validated input of a query. *)
Record QueryInput := {
  prompt : jsstring;
  qi_doc_id : option jsstring;
  top_k : Z
}.

(** [z.string().min(1).max(2000)] *)
Definition check_prompt (v : option json) : list ZodIssue + jsstring :=
  match v with
  | Some (JStr s) =>
      if (length s <? 1)%nat then inl [issue "prompt" too_small]
      else if (2000 <? Z.of_nat (length s))%Z then inl [issue "prompt" too_big]
      else inr s
  | _ => inl [issue "prompt" invalid_type]
  end.

(** [z.string().optional()] *)
Definition check_doc_id (v : option json) : list ZodIssue + option jsstring :=
  match v with
  | None => inr None
  | Some (JStr s) => inr (Some s)
  | Some _ => inl [issue "doc_id" invalid_type]
  end.

(** [z.number().int().min(1).max(20).optional().default(5)] *)
Definition check_top_k (v : option json) : list ZodIssue + Z :=
  match v with
  | None => inr 5%Z
  | Some (JNum q) =>
      let issues :=
        (if Qis_int q then [] else [issue "top_k" invalid_type])
          ++ (if Qle_bool 1 q then [] else [issue "top_k" too_small])
          ++ (if Qle_bool q 20 then [] else [issue "top_k" too_big]) in
      match issues with
      | [] => inr (Qto_Z q)
      | _ :: _ => inl issues
      end
  | Some _ => inl [issue "top_k" invalid_type]
  end.

(** [QueryInputSchema.safeParse] *)
Definition QueryInputSchema (v : json) : list ZodIssue + QueryInput :=
  match v with
  | JObj fields =>
      let p := check_prompt (field "prompt" fields) in
      let d := check_doc_id (field "doc_id" fields) in
      let k := check_top_k (field "top_k" fields) in
      match p, d, k with
      | inr p', inr d', inr k' =>
          inr {| prompt := p'; qi_doc_id := d'; top_k := k' |}
      | _, _, _ => inl (issues_of p ++ issues_of d ++ issues_of k)
      end
  | _ => inl [issue "" invalid_type]
  end.

Record QueryEvent := {
  httpMethod : jsstring;
  headers : Headers;
  body : option jsstring
}.

(** [ORDER BY key] as a stable insertion sort, ascending. *)
Fixpoint insert_by {A} (key : A -> Q) (x : A) (l : list A) : list A :=
  match l with
  | [] => [x]
  | y :: r => if Qle_bool (key x) (key y) then x :: l
              else y :: insert_by key x r
  end.

Fixpoint sort_by {A} (key : A -> Q) (l : list A) : list A :=
  match l with
  | [] => []
  | x :: r => insert_by key x (sort_by key r)
  end.

(** [FROM rag.embeddings e JOIN rag.documents d ON e.document_id = d.id] *)
Definition join_documents (es : list EmbeddingRow) (ds : list Document)
  : list (EmbeddingRow * Document) :=
  flat_map (fun e =>
              List.map (fun d => (e, d))
                       (filter (fun d => match e_document_id e with
                                         | Some i => (i =? d_id d)%Z
                                         | None => false
                                         end) ds))
           es.

(** The display form of a chunk: content cut to 200 code units plus dots. *)
Definition truncated (c : ChunkResult) : ChunkResult :=
  {| cr_id := cr_id c;
     cr_content := substring0 (cr_content c) 200 ++ lit "...";
     cr_chunk_index := cr_chunk_index c;
     cr_similarity := cr_similarity c;
     cr_document_title := cr_document_title c |}.

(** [packContextWithCitations] *)
Fixpoint packChunks (index : Z) (chunks : list ChunkResult) : jsstring :=
  match chunks with
  | [] => []
  | chunk :: r =>
      lit "[" ++ showZ (index + 1) ++ lit "] " ++ cr_content chunk
          ++ [LF; LF] ++ packChunks (index + 1) r
  end.

Definition packContextWithCitations (chunks : list ChunkResult) : jsstring :=
  lit "Based on the following information:" ++ [LF; LF]
      ++ packChunks 0 chunks
      ++ lit "Please answer the user's question using the information above. "
      ++ lit "Include citations in your response using the format [1], [2], etc. "
      ++ lit "If the information doesn't contain relevant details to answer the question, say so clearly.".

Definition isTerminal (e : SseEvent) : bool :=
  match e with
  | EvEnd | EvError _ => true
  | _ => false
  end.

Definition acceptsSSE (a : option jsstring) : bool :=
  match a with
  | Some s => includes (lit "text/event-stream") s
  | None => false
  end.

Definition answerOr (content : option jsstring) : jsstring :=
  showO (orO content (Some (lit "No response generated."))).

(** The [for await] loop over the stream: a frame for each delta with
    content, and the stream's failure, if it ends in one, thrown. *)
Fixpoint consumeStream (deltas : list Delta) (failure : option Exn)
         (sseResponse : list SseEvent) : M (list SseEvent) :=
  match deltas with
  | [] =>
      match failure with
      | Some e => throw e
      | None => ret sseResponse
      end
  | content :: rest =>
      consumeStream rest failure
        (if truthyO content
         then sseResponse ++ [EvToken (showO content)]
         else sseResponse)
  end.

Definition streamCatch (err : Exn) : M (list SseEvent) :=
  console_error (StreamingError err) ;;
  ret [EvError (message err)].

Section WithEnv.

Variable env : Env.

(** [getOpenAIClient] *)
Definition getOpenAIClient : M unit :=
  if has_openai_key env then ret tt
  else throw (Error (lit "OPENAI_API_KEY environment variable is required")).

(** [getQueryEmbedding], with the client created on demand. *)
Definition getQueryEmbedding (query : jsstring) : M Embedding :=
  getOpenAIClient ;; openai_embeddings_create env query.

Definition distanceTo (queryEmbedding : Embedding)
           (ed : EmbeddingRow * Document) : Q :=
  cosine_distance env (e_embedding (fst ed)) queryEmbedding.

Definition toChunkResult (queryEmbedding : Embedding)
           (ed : EmbeddingRow * Document) : ChunkResult :=
  {| cr_id := e_id (fst ed);
     cr_content := e_content (fst ed);
     cr_chunk_index := e_chunk_index (fst ed);
     cr_similarity := (1 - distanceTo queryEmbedding ed)%Q;
     cr_document_title := d_title (snd ed) |}.

(** The rows selected by the statement that [vectorSearch] builds, before
    [LIMIT], in the order of [ORDER BY].  With the [ivfflat] index that
    [db-migrate.ts] puts on the vectors the store may answer from the
    index, which looks at some of its lists only: the rows it returns are
    then rows of this selection, in this order, but they need not be its
    first ones. *)
Definition ranked (w : World) (queryEmbedding : Embedding)
           (docId : option jsstring) : list (EmbeddingRow * Document) :=
  let joined := join_documents (embeddings w) (documents w) in
  let scoped :=
    if truthyO docId
    then filter (fun ed => has_doc_id (showO docId) (snd ed)) joined
    else joined in
  sort_by (distanceTo queryEmbedding) scoped.

(** [vectorSearch]; the store refuses a [LIMIT] that is not a whole
    number or is negative. *)
Definition vectorSearch (queryEmbedding : Embedding) (docId : option jsstring)
           (topK : Q) : M (list ChunkResult) :=
  pg_roundtrip env ;;
  if Qis_int topK && (0 <=? Qto_Z topK)%Z then
    get (fun w => List.map (toChunkResult queryEmbedding)
                    (firstn (Z.to_nat (Qto_Z topK))
                            (ranked w queryEmbedding docId)))
  else throw (Error (lit "invalid LIMIT")).

(** [logRetrieval] *)
Definition logRetrieval (requestId queryText : jsstring) (chunkIds : list Z)
           (latencyMs : Z) (docId : option jsstring) (topK : Q) : M unit :=
  try_catch
    (pg_roundtrip env ;;
     modify (fun w =>
               set_retrieval_logs
                 (retrieval_logs w
                    ++ [ {| rl_request_id := requestId;
                            rl_query_text := queryText;
                            rl_chunk_ids := chunkIds;
                            rl_latency_ms := latencyMs;
                            rl_doc_id := docId; rl_top_k := topK |} ]) w))
    (fun err => console_error (FailedToLogRetrieval err)).

(** [streamChatCompletion]; the string it returns is the concatenation of
    the frames [data: <json>\n\n] of these events. *)
Definition streamChatCompletion (context prompt_ : jsstring)
           (chunks : list ChunkResult) (requestId : jsstring) (latencyMs : Z)
  : M (list SseEvent) :=
  try_catch
    (getOpenAIClient ;;
     stream <- openai_chat_stream env context prompt_ ;;
     let sseResponse :=
       [EvMetadata requestId latencyMs;
        EvChunks (List.map truncated chunks)] in
     sseResponse' <- consumeStream (fst stream) (snd stream) sseResponse ;;
     ret (sseResponse' ++ [EvEnd]))
    streamCatch.

(** The inner [try] of the query handler. *)
Definition query_try (event : QueryEvent) (data : QueryInput)
           (requestId : jsstring) (startTime : Z) : M QueryResponse :=
  let topK := inject_Z (top_k data) in
  queryEmbedding <- getQueryEmbedding (prompt data) ;;
  chunks <- vectorSearch queryEmbedding (qi_doc_id data) topK ;;
  match chunks with
  | [] =>
      t <- now ;;
      let latencyMs := (t - startTime)%Z in
      logRetrieval requestId (prompt data) [] latencyMs (qi_doc_id data) topK ;;
      ret {| q_statusCode := 200;
             q_body := AnswerBody (Some requestId) []
                         (lit "No relevant information found in the knowledge base.")
                         (Some latencyMs) |}
  | _ :: _ =>
      let contextWithCitations := packContextWithCitations chunks in
      t <- now ;;
      let latencyMs := (t - startTime)%Z in
      logRetrieval requestId (prompt data) (List.map cr_id chunks) latencyMs
                   (qi_doc_id data) topK ;;
      if acceptsSSE (accept (headers event)) then
        events <- streamChatCompletion contextWithCitations (prompt data)
                                       chunks requestId latencyMs ;;
        ret {| q_statusCode := 200; q_body := StreamBody events |}
      else
        getOpenAIClient ;;
        content <- openai_chat_complete env contextWithCitations (prompt data) ;;
        ret {| q_statusCode := 200;
               q_body := AnswerBody (Some requestId)
                           (List.map truncated chunks) (answerOr content)
                           (Some latencyMs) |}
  end.

Definition query_catch (err : Exn) : M QueryResponse :=
  console_error (RagQueryError err) ;;
  let m := message err in
  if includes (lit "database") m || includes (lit "connection") m then
    ret (createErrorResponse 500 (lit "Database connection failed")
                             DATABASE_ERROR (ErrorMessage m))
  else if includes (lit "OpenAI") m || includes (lit "API") m then
    ret (createErrorResponse 500 (lit "External API error")
                             EXTERNAL_API_ERROR (ErrorMessage m))
  else
    ret (createErrorResponse 500 (lit "RAG query failed")
                             INTERNAL_ERROR (ErrorMessage m)).

(** [handler] *)
Definition handler (event : QueryEvent) : M QueryResponse :=
  if negb (str_eqb (httpMethod event) (lit "POST")) then
    ret (createErrorResponse 405 (lit "Method not allowed")
                             METHOD_NOT_ALLOWED NoDetails)
  else
    try_catch
      (limited <- checkRateLimit (getClientIP (headers event)) ;;
       match limited with
       | Some e =>
           ret (createErrorResponse 429 (ae_error e) (ae_code e) (ae_details e))
       | None =>
           match validateRequestBody env (body event) QueryInputSchema with
           | inl e =>
               ret (createErrorResponse 400 (ae_error e) (ae_code e)
                                        (ae_details e))
           | inr data =>
               requestId <- fresh_uuid env ;;
               startTime <- now ;;
               pg_connect env ;;
               try_finally (query_try event data requestId startTime) pg_end
           end
       end)
      query_catch.

End WithEnv.

End RagQuery.

Import RagQuery.

(* ===================================================================== *)
(** ** api/rag-query.ts

    The earlier form of the query function: no schema, no rate limit, no
    retrieval log.  Its [vectorSearch] and [packContextWithCitations] are
    the same text as in [rag-query.ts] and are taken from there. *)
(* ===================================================================== *)

Module ApiRagQuery.

(** The input of the earlier handler, read at its interface [QueryInput]. *)
Record LegacyQueryInput := {
  lq_prompt : option jsstring;
  lq_doc_id : option jsstring;
  lq_top_k : option Q
}.

(** The event of the earlier handler: [JSON.parse(event.body || '{}')],
    or [None] when the body is not JSON. *)
Record LegacyQueryEvent := {
  lq_httpMethod : jsstring;
  lq_accept : option jsstring;
  lq_body : option LegacyQueryInput
}.

Section WithEnv.

Variable env : Env.

(** [getQueryEmbedding], on the client made when the module loads. *)
Definition getQueryEmbedding (query : jsstring) : M Embedding :=
  openai_embeddings_create env query.

(** [streamChatCompletion]: no metadata frame in this file. *)
Definition streamChatCompletion (context prompt_ : jsstring)
           (chunks : list ChunkResult) : M (list SseEvent) :=
  try_catch
    (stream <- openai_chat_stream env context prompt_ ;;
     let sseResponse := [EvChunks (List.map truncated chunks)] in
     sseResponse' <- RagQuery.consumeStream (fst stream) (snd stream) sseResponse ;;
     ret (sseResponse' ++ [EvEnd]))
    RagQuery.streamCatch.

(** The inner [try] of the handler. *)
Definition handler_try (event : LegacyQueryEvent) (prompt_ : jsstring)
           (docId : option jsstring) (topK : Q) : M QueryResponse :=
  queryEmbedding <- getQueryEmbedding prompt_ ;;
  chunks <- RagQuery.vectorSearch env queryEmbedding docId topK ;;
  match chunks with
  | [] =>
      ret {| q_statusCode := 200;
             q_body := AnswerBody None []
                         (lit "No relevant information found in the knowledge base.")
                         None |}
  | _ :: _ =>
      let contextWithCitations := RagQuery.packContextWithCitations chunks in
      if RagQuery.acceptsSSE (lq_accept event) then
        events <- streamChatCompletion contextWithCitations prompt_
                                              chunks ;;
        ret {| q_statusCode := 200; q_body := StreamBody events |}
      else
        content <- openai_chat_complete env contextWithCitations prompt_ ;;
        ret {| q_statusCode := 200;
               q_body := AnswerBody None (List.map truncated chunks)
                           (answerOr content) None |}
  end.

(** [handler] *)
Definition handler (event : LegacyQueryEvent) : M QueryResponse :=
  if negb (str_eqb (lq_httpMethod event) (lit "POST")) then
    ret {| q_statusCode := 405;
           q_body := ErrorBody (lit "Method not allowed") None NoDetails |}
  else
    try_catch
      (match lq_body event with
       | None => throw (Error (lit "Unexpected token in JSON"))
       | Some input =>
           let topK := match lq_top_k input with Some k => k | None => 5%Q end in
           if negb (truthyO (option_map trim (lq_prompt input))) then
             ret {| q_statusCode := 400;
                    q_body := ErrorBody (lit "Missing prompt") None NoDetails |}
           else
             pg_connect env ;;
             try_finally
               (handler_try event (showO (lq_prompt input)) (lq_doc_id input) topK)
               pg_end
       end)
      (fun err =>
         console_error (RagQueryError err) ;;
         ret {| q_statusCode := 500;
                q_body := ErrorBody (lit "RAG query failed") None
                                    (ErrorMessage (message err)) |}).

End WithEnv.

End ApiRagQuery.

Import ApiRagQuery.

(* ===================================================================== *)
(** ** background/ingest.ts, earlier form: the placeholder embedding

    The numbers of this function are the doubles of the source. *)
(* ===================================================================== *)

Module IngestFake.

Import PrimFloat.

(** The value of a digit of radix 16. *)
Definition hexDigit (c : N) : option Z :=
  if ((48 <=? c) && (c <=? 57))%N then Some (Z.of_N c - 48)%Z
  else if ((97 <=? c) && (c <=? 102))%N then Some (Z.of_N c - 87)%Z
  else if ((65 <=? c) && (c <=? 70))%N then Some (Z.of_N c - 55)%Z
  else None.

(** The value and the length of the longest prefix of digits. *)
Fixpoint hexPrefix (acc : Z) (n : nat) (s : jsstring) : Z * nat :=
  match s with
  | c :: r =>
      match hexDigit c with
      | Some d => hexPrefix (16 * acc + d) (S n) r
      | None => (acc, n)
      end
  | [] => (acc, n)
  end.

(** [parseInt(s, 16)]: leading whitespace, a sign, [0x] or [0X], then the
    digits up to the first character that is none; the sign and the
    magnitude, or [None] for [NaN] when there is no digit. *)
Definition parseInt16 (s : jsstring) : option (bool * Z) :=
  let s1 := trimStart s in
  let signed := match s1 with
                | 45%N :: r => (true, r)
                | 43%N :: r => (false, r)
                | _ => (false, s1)
                end in
  let s2 := snd signed in
  let s3 := match s2 with
            | 48%N :: x :: r => if ((x =? 120) || (x =? 88))%N then r else s2
            | _ => s2
            end in
  match hexPrefix 0 0 s3 with
  | (_, O) => None
  | (v, S _) => Some (fst signed, v)
  end.

(** The double of a parsed integer below [2^63]; the integers parsed here
    have at most two digits. *)
Definition toNumber (r : option (bool * Z)) : float :=
  match r with
  | None => nan
  | Some (negative, v) =>
      let f := of_uint63 (Uint63.of_Z v) in
      if negative then (- f)%float else f
  end.

(** [s.substr(start, length)] for a start within the string. *)
Definition substr (s : jsstring) (start length : nat) : jsstring :=
  firstn length (skipn start s).

(** [(i * 2) % hash.length]; for the empty string the remainder is [NaN],
    which [substr] reads as 0. *)
Definition hexIndex (i : nat) (hash : jsstring) : nat :=
  match List.length hash with
  | O => O
  | S _ => ((i * 2) mod List.length hash)%nat
  end.

(** The number pushed for a pair of digits. *)
Definition normalized (hexPair : jsstring) : float :=
  let value := (toNumber (parseInt16 hexPair) / 255)%float in
  ((value - 0.5) * 2)%float.

(** One turn of the loop: the number pushed for [i]. *)
Definition component (hash : jsstring) (i : nat) : float :=
  let hexPair := substr hash (hexIndex i hash) 2 in
  normalized hexPair.

Section WithEnv.

Variable env : Env.

(** [generateFakeEmbedding] *)
Definition generateFakeEmbedding (text : jsstring) : list float :=
  let hash := sha256_hex env text in
  List.map (component hash) (seq 0 1536).

End WithEnv.

End IngestFake.

(* ===================================================================== *)
(** * Vocabulary of the properties *)
(* ===================================================================== *)

(** Every whitespace character is a space and none follows another;
    [after_ws] tells whether the character before the string is
    whitespace. *)
Fixpoint single_spaced (after_ws : bool) (s : jsstring) : bool :=
  match s with
  | [] => true
  | c :: r =>
      if isWhiteSpace c
      then (c =? SP)%N && negb after_ws && single_spaced true r
      else single_spaced false r
  end.

(** A computation keeps a relation between the worlds before and after
    it, however it ends. *)
Definition keeps (R : World -> World -> Prop) {A} (c : M A) : Prop :=
  forall w, R w (snd (c w)).

(** A computation always returns: it neither throws nor runs out of
    fuel. *)
Definition returns {A} (c : M A) : Prop :=
  forall w, exists a, fst (c w) = Return a.

(** The table holds a row for the content hash [h]. *)
Definition cached (h : jsstring) (w : World) : Prop :=
  exists r, In r (embeddings w) /\ e_content_hash r = Some h.

(** What a run of the batch processing may do to the world: the table and
    the documents are left as they were, the console and the list of
    embedding requests only grow. *)
Definition grows (w w' : World) : Prop :=
  embeddings w' = embeddings w
  /\ (exists new, console w' = console w ++ new)
  /\ (exists new, embed_requests w' = embed_requests w ++ new)
  /\ documents w' = documents w.

(** The failure of chunk [i] has been written to the console since the
    world [w0]. *)
Definition chunk_failed_since (w0 : World) (i : nat) (w : World) : Prop :=
  exists new e,
    console w = console w0 ++ new
    /\ In (FailedToProcessChunk (Z.of_nat i) e) new.

(** An embedding of the text [c] has been requested since the world
    [w0]. *)
Definition requested_since (w0 : World) (c : jsstring) (w : World) : Prop :=
  exists new, embed_requests w = embed_requests w0 ++ new /\ In c new.

(** The relational store answers every round trip. *)
Definition reachable (env : Env) : Prop := forall n, pg_fault env n = None.

(** The number of terminal events of a stream. *)
Definition terminals (events : list SseEvent) : nat :=
  length (filter isTerminal events).

(** A result of the search is the annotation of a chunk whose parent
    document carries the identifier [D]. *)
Definition belongs_to (env : Env) (w : World) (queryEmbedding : Embedding)
           (D : jsstring) (c : ChunkResult) : Prop :=
  exists e d,
    In e (embeddings w) /\ In d (documents w)
    /\ e_document_id e = Some (d_id d)
    /\ md_doc_id (d_metadata d) = Some D
    /\ c = toChunkResult env queryEmbedding (e, d).

(** Descending similarity along the list. *)
Fixpoint descending (l : list ChunkResult) : Prop :=
  match l with
  | [] => True
  | x :: r =>
      (forall y, In y r -> (cr_similarity y <= cr_similarity x)%Q)
      /\ descending r
  end.

(** The token frames of the deltas that carry content. *)
Definition tokensOf (deltas : list Delta) : list SseEvent :=
  flat_map (fun d => if truthyO d then [EvToken (showO d)] else []) deltas.

(** The stream is a body without terminal events followed by one
    terminal event. *)
Definition well_terminated (events : list SseEvent) : Prop :=
  exists body last,
    events = body ++ [last] /\ isTerminal last = true
    /\ Forall (fun e => isTerminal e = false) body.

(** Ascending order of the sort key along a list. *)
Fixpoint ascending {A} (key : A -> Q) (l : list A) : Prop :=
  match l with
  | [] => True
  | x :: r => (forall y, In y r -> (key x <= key y)%Q) /\ ascending key r
  end.

(** The chunks of the batch starting at [i], with their indices. *)
Definition indexedBatch (chunks : list jsstring) (i : nat)
  : list (nat * jsstring) :=
  let batch := firstn batchSize (skipn i chunks) in
  combine (seq i (length batch)) batch.

(** The callback of a batch from its lookup's result on. *)
Definition persistLooked env (d : Z)
           (icr : nat * jsstring * (Exn + list Embedding)) : M ChunkOutcome :=
  persistChunk env d (Z.of_nat (fst (fst icr))) (snd (fst icr)) (snd icr).

(** A computation that never returns a value. *)
Definition never_returns {A} (c : M A) : Prop :=
  forall w a, fst (c w) <> Return a.

(** No embedding request is made between two worlds. *)
Definition same_requests (w w' : World) : Prop :=
  embed_requests w' = embed_requests w.

(** Between two worlds the documents are the same rows, each left as it
    was or put in the state PROCESSING. *)
Definition only_processing (w w' : World) : Prop :=
  Forall2 (fun d d' =>
             d' = d \/ (d_id d' = d_id d
                        /\ md_status (d_metadata d') = Some PROCESSING))
          (documents w) (documents w').

(** Computations without loops on fuel never run out of it. *)
Definition fueled {A} (c : M A) : Prop := forall w, fst (c w) <> OutOfFuel.

(** *** Concrete collaborators for the runs below

    The digest is replaced by the text itself, the embedding service
    answers the [k]-th request with the vector [[k]], except that it
    refuses the text [bad]; the store never fails and holds one document
    per scenario. *)
Definition bad : jsstring := lit "bad".

Definition env0 : Env :=
  {| sha256_hex := fun t => t;
     embeddings_create :=
       fun k t => if str_eqb t bad then inl (Error (lit "503"))
                  else inr [inject_Z (Z.of_nat k)];
     pg_fault := fun _ => None;
     uploads_get := fun k => if str_eqb k (lit "k") then Some [SP] else None;
     fetch := fun _ => inl (Error (lit "offline"));
     url_pathname := fun _ => None;
     utf8_decode := fun b => b;
     JSON_parse := fun _ => inl (Error (lit "Unexpected token"));
     pdf_parse := fun _ => inl (Error (lit "not a PDF"));
     mammoth_extractRawText := fun _ => inl (Error (lit "not a document"));
     cosine_distance := fun a b => 0%Q;
     has_openai_key := true;
     chat_complete := fun _ _ _ => inr (Some (lit "answer"));
     chat_stream := fun _ _ _ => inr ([Some (lit "tok")], None);
     randomUUID := fun _ => lit "uuid" |}.

Definition metadata0 : Metadata :=
  {| md_doc_id := Some (lit "d1"); md_status := Some UPLOADED;
     md_blob_path := Some (lit "k");
     md_original_filename := Some (lit "a.txt");
     md_mimetype := Some (lit "text/plain");
     md_chunks_count := None; md_total_tokens := None;
     md_processed_at := None |}.

Definition document0 : Document :=
  {| d_id := 1; d_title := lit "A"; d_content := []; d_metadata := metadata0;
     d_updated_at := 0 |}.

Definition world0 : World :=
  {| documents := [document0]; embeddings := []; embeddings_id_seq := 1;
     retrieval_logs := []; pg_trips := 0; embed_requests := [];
     chat_requests := 0; uuids := 0; clock := 0; console := [];
     rateLimitMap := [] |}.

(** A store with two documents and a chunk of each. *)
Definition document_b : Document :=
  {| d_id := 2; d_title := lit "B"; d_content := [];
     d_metadata := with_status
                     {| md_doc_id := Some (lit "d2"); md_status := None;
                        md_blob_path := None; md_original_filename := None;
                        md_mimetype := None; md_chunks_count := None;
                        md_total_tokens := None; md_processed_at := None |}
                     READY;
     d_updated_at := 0 |}.

Definition row_of (id doc : Z) (text : string) : EmbeddingRow :=
  {| e_id := id; e_document_id := Some doc; e_chunk_index := 0;
     e_content := lit text; e_content_hash := Some (lit text);
     e_embedding := [inject_Z id]; e_token_count := 2; e_created_at := 0 |}.

Definition world2 : World :=
  set_embeddings [row_of 1 1 "alpha"; row_of 2 2 "beta"] 3
                 (set_documents [document0; document_b] world0).

(** A query to the earlier handler with the given [top_k]. *)
Definition legacy_event (k : Q) : LegacyQueryEvent :=
  {| lq_httpMethod := lit "POST"; lq_accept := None;
     lq_body := Some {| lq_prompt := Some (lit "what"); lq_doc_id := None;
                        lq_top_k := Some k |} |}.

(** Ingestion requests for the document of [world0], whose blob holds a
    single space: by storage key, and by document identifier. *)
Definition ingest_by_blob_key : IngestEvent :=
  {| ie_body := Some {| doc_id := None; tenant_id := None;
                        blob_key := Some (lit "k"); blob_url := None |} |}.

Definition ingest_by_doc_id : IngestEvent :=
  {| ie_body := Some {| doc_id := Some (lit "d1"); tenant_id := None;
                        blob_key := None; blob_url := None |} |}.

(** The answer to a request by document identifier: the refusal of the
    lookup. *)
Definition lookup_response : IngestResponse :=
  {| statusCode := 500; r_success := false; r_doc_id := None;
     r_chunks_processed := None; r_status := None;
     r_error := Some (message (undefined_column (lit "doc_id"))) |}.

(** The collaborators of [env0] with a blob that holds text. *)
Definition env_text : Env :=
  {| sha256_hex := sha256_hex env0;
     embeddings_create := embeddings_create env0;
     pg_fault := pg_fault env0;
     uploads_get := fun k => if str_eqb k (lit "k")
                             then Some (lit "good text and bad") else None;
     fetch := fetch env0;
     url_pathname := url_pathname env0;
     utf8_decode := utf8_decode env0;
     JSON_parse := JSON_parse env0;
     pdf_parse := pdf_parse env0;
     mammoth_extractRawText := mammoth_extractRawText env0;
     cosine_distance := cosine_distance env0;
     has_openai_key := has_openai_key env0;
     chat_complete := chat_complete env0;
     chat_stream := chat_stream env0;
     randomUUID := randomUUID env0 |}.

(** *** Vocabulary of the further properties *)

(** The keys of the rate-limit map are distinct, as in a [Map]. *)
Definition keys_unique (w : World) : Prop :=
  NoDup (List.map fst (rateLimitMap w)).

(** The entry of [ip] that counts at the time of the world: the stored
    one unless its window has passed. *)
Definition live_entry (ip : jsstring) (w : World) : option (Z * Z) :=
  match map_get ip (rateLimitMap w) with
  | Some (count, resetTime) =>
      if (resetTime <? clock w)%Z then None else Some (count, resetTime)
  | None => None
  end.

(** [n] calls of [checkRateLimit(ip)] in a row. *)
Definition refused (r : option ApiError) : bool :=
  match r with Some _ => true | None => false end.

(** Time passes. *)
Definition pass (ms : Z) : M unit :=
  modify (fun w => set_clock (clock w + ms)%Z w).

(** Traffic on the limiter: each request comes some milliseconds after the
    one before it, from some client. *)
Definition request (e : Z * jsstring) : M (jsstring * option ApiError) :=
  pass (fst e) ;;
  r <- checkRateLimit (snd e) ;;
  ret (snd e, r).

Definition traffic (evs : list (Z * jsstring))
  : M (list (jsstring * option ApiError)) :=
  mapM request evs.

Definition elapsed (evs : list (Z * jsstring)) : Z :=
  fold_right Z.add 0%Z (List.map fst evs).

Definition requests_of (ip : jsstring) (evs : list (Z * jsstring)) : nat :=
  List.length (filter (fun e => str_eqb (snd e) ip) evs).

(** The answers to one client, in order: [true] for a refusal. *)
Definition verdicts (ip : jsstring) (rs : list (jsstring * option ApiError))
  : list bool :=
  List.map (fun p => refused (snd p))
           (filter (fun p => str_eqb (fst p) ip) rs).

(** A limiter that knows two clients, one of them at its quota. *)
Definition world_busy : World :=
  set_clock 1000
    (set_rateLimitMap [(lit "10.0.0.1", (60, 5000)%Z);
                       (lit "10.0.0.2", (58, 4000)%Z)] world0).


(** What a query leaves alone: the documents and the embeddings; the
    retrieval log keeps its entries and gets at most [n] new ones. *)
Definition logged (n : nat) (w w' : World) : Prop :=
  documents w' = documents w /\ embeddings w' = embeddings w
  /\ exists new, retrieval_logs w' = retrieval_logs w ++ new
                 /\ (List.length new <= n)%nat.

(** No service was called and nothing was written between two worlds. *)
Definition untouched (w w' : World) : Prop :=
  embed_requests w' = embed_requests w /\ pg_trips w' = pg_trips w
  /\ chat_requests w' = chat_requests w /\ uuids w' = uuids w
  /\ retrieval_logs w' = retrieval_logs w /\ documents w' = documents w
  /\ embeddings w' = embeddings w /\ console w' = console w.

(** The computation answers with a value that satisfies [P] or throws. *)
Definition answers {A} (P : A -> Prop) (c : M A) : Prop :=
  forall w, match fst (c w) with
            | Return a => P a
            | Throw _ => True
            | OutOfFuel => False
            end.

(** The collaborators of [env0] with a parser that reads every body as
    the given value. *)
Definition env_json (parsed : json) : Env :=
  {| sha256_hex := sha256_hex env0;
     embeddings_create := embeddings_create env0;
     pg_fault := pg_fault env0;
     uploads_get := uploads_get env0;
     fetch := fetch env0;
     url_pathname := url_pathname env0;
     utf8_decode := utf8_decode env0;
     JSON_parse := fun _ => inr parsed;
     pdf_parse := pdf_parse env0;
     mammoth_extractRawText := mammoth_extractRawText env0;
     cosine_distance := cosine_distance env0;
     has_openai_key := has_openai_key env0;
     chat_complete := chat_complete env0;
     chat_stream := chat_stream env0;
     randomUUID := randomUUID env0 |}.

Definition post_event (b : string) : QueryEvent :=
  {| httpMethod := lit "POST";
     headers := {| x_forwarded_for := None; x_real_ip := None;
                   cf_connecting_ip := None; accept := None |};
     body := Some (lit b) |}.

(** The answer of a response, and whether it is an answer without
    chunks. *)
Definition answer_of (resp : QueryResponse) : option jsstring :=
  match q_body resp with
  | AnswerBody _ _ answer _ => Some answer
  | _ => None
  end.

Definition no_chunks (resp : QueryResponse) : bool :=
  match q_body resp with
  | AnswerBody _ [] _ _ => true
  | _ => false
  end.

Definition same_chats (w w' : World) : Prop :=
  chat_requests w' = chat_requests w.

(** Whenever the computation returns an answer without chunks, the answer
    is the fixed sentence and no chat request has been made. *)
Definition silent_when_empty (c : M QueryResponse) : Prop :=
  forall w resp,
    fst (c w) = Return resp -> no_chunks resp = true ->
    answer_of resp
    = Some (lit "No relevant information found in the knowledge base.")
    /\ same_chats w (snd (c w)).

(** The computation never returns an answer without chunks. *)
Definition with_chunks (c : M QueryResponse) : Prop :=
  forall w resp, fst (c w) = Return resp -> no_chunks resp = false.

(** The parsed body of a query that asks [what] with the default
    [top_k]. *)
Definition query_what : json := JObj [(lit "prompt", JStr (lit "what"))].

(** The collaborators of [env0] with an embedding service that refuses
    its first twenty-five requests. *)
Definition env_flaky : Env :=
  {| sha256_hex := sha256_hex env0;
     embeddings_create :=
       fun k t => if (k <? 25)%nat then inl (Error (lit "429"))
                  else inr [inject_Z (Z.of_nat k)];
     pg_fault := pg_fault env0;
     uploads_get := uploads_get env0;
     fetch := fetch env0;
     url_pathname := url_pathname env0;
     utf8_decode := utf8_decode env0;
     JSON_parse := JSON_parse env0;
     pdf_parse := pdf_parse env0;
     mammoth_extractRawText := mammoth_extractRawText env0;
     cosine_distance := cosine_distance env0;
     has_openai_key := has_openai_key env0;
     chat_complete := chat_complete env0;
     chat_stream := chat_stream env0;
     randomUUID := randomUUID env0 |}.

(** The parsed body of a query that asks for 25 chunks. *)
Definition query_what_25 : json :=
  JObj [(lit "prompt", JStr (lit "what")); (lit "top_k", JNum 25)].

(** An ingestion request that names no document (the key is the empty
    string). *)
Definition input_without_identifier : IngestInput :=
  {| doc_id := None; tenant_id := None; blob_key := Some []; blob_url := None |}.

(** A word: not empty and without whitespace. *)
Definition word (w : jsstring) : Prop :=
  w <> [] /\ forallb (fun c => negb (isWhiteSpace c)) w = true.

(** The string does not begin, and does not end, with whitespace. *)
Definition starts_clean (s : jsstring) : Prop :=
  match s with
  | [] => True
  | c :: _ => isWhiteSpace c = false
  end.

Definition ends_clean (s : jsstring) : Prop := starts_clean (rev s).

(** Between two worlds at most [e] embedding requests and [p] round trips
    to the store have been made. *)
Definition spent (e p : nat) (w w' : World) : Prop :=
  (List.length (embed_requests w') <= List.length (embed_requests w) + e)%nat
  /\ (pg_trips w' <= pg_trips w + p)%nat.

(** The content hashes in a table, and what its keys promise: no hash and
    no identifier occurs twice, and the sequence is ahead of every
    identifier. *)
Definition content_hashes (rows : list EmbeddingRow) : list jsstring :=
  flat_map (fun r => match e_content_hash r with
                     | Some h => [h]
                     | None => []
                     end) rows.

Definition table_ok (w : World) : Prop :=
  NoDup (content_hashes (embeddings w))
  /\ NoDup (List.map e_id (embeddings w))
  /\ Forall (fun r => (e_id r < embeddings_id_seq w)%Z) (embeddings w).

Definition table_kept (w w' : World) : Prop := table_ok w -> table_ok w'.

(** A digest in hexadecimal, as [digest('hex')] of SHA-256 gives it: 64
    digits. *)
Definition is_digest (hash : jsstring) : Prop :=
  List.length hash = 64%nat
  /\ Forall (fun c => IngestFake.hexDigit c <> None) hash.

(** The double lies between -1 and 1 (and so is a number). *)
Definition in_unit_range (x : PrimFloat.float) : bool :=
  PrimFloat.leb (PrimFloat.opp PrimFloat.one) x && PrimFloat.leb x PrimFloat.one.

(** The characters that are digits of radix 16. *)
Definition hexChars : list N :=
  [48; 49; 50; 51; 52; 53; 54; 55; 56; 57; 97; 98; 99; 100; 101; 102;
   65; 66; 67; 68; 69; 70]%N.

Definition digest0 : jsstring :=
  lit "00ff7f80a1B2c3d4e5f60718293a4b5c6d7e8f90123456789abcdefABCDEF012".

(** The pauses of [getEmbeddingWithRetry] after [n] refusals in a row,
    the first of them at attempt number [attempt]. *)
Fixpoint pauses (attempt : Z) (n : nat) : Z :=
  match n with
  | O => 0
  | S n' => timer_delay (2 ^ (attempt - 1) * 1000) + pauses (attempt + 1) n'
  end%Z.

(** The same in closed form: the pauses double from one second up to the
    22nd, of [2^21] seconds; from the 23rd on the doubled delay is above
    [TIMEOUT_MAX] and the timer fires after one millisecond. *)
Definition backoff (refusals : nat) : Z :=
  if (refusals <=? 22)%nat then ((2 ^ Z.of_nat refusals - 1) * 1000)%Z
  else ((2 ^ 22 - 1) * 1000 + (Z.of_nat refusals - 22))%Z.

(** [p] holds of the [n] integers from [z] on. *)
Fixpoint all_from (p : Z -> bool) (n : nat) (z : Z) : bool :=
  match n with
  | O => true
  | S n' => p z && all_from p n' (z + 1)%Z
  end.

(* ===================================================================== *)
(** * Properties *)
(* ===================================================================== *)

Unset Implicit Arguments.

(** ** Running the string functions *)

Example split_ws_ex :
  split_ws (lit " a  b ") = [lit ""; lit "a"; lit "b"; lit ""].
Proof. reflexivity. Qed.

Example cleanText_ex :
  cleanText (lit "Page 12
Chapter 3 Intro
  hello

world
42
") = lit "Intro hello world".
Proof. vm_compute. reflexivity. Qed.

Example cleanText_footer_ex :
  cleanText (lit "3 apples
4
") = lit "3 apples"
  /\ cleanText (lit "Page 5 of 10
Section 2: Aims") = lit "of 10 : Aims"
  /\ replace_g re_page_footer [] (lit "12  

  
foo") = lit "
foo".
Proof. repeat split; vm_compute; reflexivity. Qed.

(** ** cleanText *)

Lemma single_spaced_weaken b s :
  single_spaced b s = true -> single_spaced false s = true.
Proof.
  destruct s as [|c r]; simpl; auto.
  destruct (isWhiteSpace c); auto.
  destruct b; simpl; auto.
  rewrite andb_false_r. discriminate.
Qed.

Lemma single_spaced_app b l1 l2 :
  single_spaced b (l1 ++ l2) = true -> single_spaced b l1 = true.
Proof.
  revert b. induction l1 as [|c r IH]; intros b H; simpl in *; auto.
  destruct (isWhiteSpace c).
  - apply andb_true_iff in H as [H1 H2]. rewrite H1. simpl. eauto.
  - eauto.
Qed.

Lemma single_spaced_dropWhile b s :
  single_spaced b s = true ->
  single_spaced false (dropWhile isWhiteSpace s) = true.
Proof.
  revert b. induction s as [|c r IH]; intros b H; simpl in *; auto.
  destruct (isWhiteSpace c) eqn:E.
  - apply andb_true_iff in H as [_ H]. eauto.
  - simpl. rewrite E. exact H.
Qed.

Lemma dropWhile_suffix {A} (p : A -> bool) l :
  exists pre, l = pre ++ dropWhile p l.
Proof.
  induction l as [|x r [pre IH]]; simpl.
  - exists []. reflexivity.
  - destruct (p x).
    + exists (x :: pre). simpl. congruence.
    + exists []. reflexivity.
Qed.

Lemma trimEnd_prefix s : exists post, s = trimEnd s ++ post.
Proof.
  unfold trimEnd.
  destruct (dropWhile_suffix isWhiteSpace (rev s)) as [pre H].
  exists (rev pre).
  rewrite <- rev_app_distr, <- H, rev_involutive. reflexivity.
Qed.

Lemma single_spaced_trim b s :
  single_spaced b s = true -> single_spaced false (trim s) = true.
Proof.
  intros H. unfold trim, trimStart.
  apply single_spaced_dropWhile in H.
  destruct (trimEnd_prefix (dropWhile isWhiteSpace s)) as [post E].
  rewrite E in H. eapply single_spaced_app; eauto.
Qed.

(** Collapsing whitespace runs, in both modes of the scan: at a fresh
    position, and inside a run whose space has been written. *)
Lemma collapse_single_spaced s :
  forall bol,
    single_spaced false (replaceAll re_ws_run [SP] bol 0 s) = true /\
    single_spaced true
      (replaceAll re_ws_run [SP] bol (span isWhiteSpace s) s) = true.
Proof.
  induction s as [|c r IH]; intros bol; [split; reflexivity|].
  destruct (IH (isLineTerminator c)) as [IH0 IHrun].
  cbn [replaceAll]. unfold re_ws_run. cbn [span].
  destruct (isWhiteSpace c) eqn:E.
  - split.
    + cbn [app single_spaced]. exact IHrun.
    + exact IHrun.
  - split; cbn [single_spaced]; rewrite E; exact IH0.
Qed.

Lemma single_spaced_In b s c :
  single_spaced b s = true -> In c s -> isWhiteSpace c = true -> c = SP.
Proof.
  revert b. induction s as [|x r IH]; intros b H Hin Hws; [contradiction|].
  simpl in H. destruct Hin as [->|Hin].
  - rewrite Hws in H. apply andb_true_iff in H as [H _].
    apply andb_true_iff in H as [H _]. now apply N.eqb_eq in H.
  - destruct (isWhiteSpace x).
    + apply andb_true_iff in H as [_ H]. eauto.
    + eauto.
Qed.

Lemma single_spaced_adjacent b s pre x y post :
  single_spaced b s = true -> s = pre ++ x :: y :: post ->
  isWhiteSpace x = true -> isWhiteSpace y = true -> False.
Proof.
  revert b s. induction pre as [|p pre IH]; intros b s H -> Hx Hy.
  - simpl in H. rewrite Hx, Hy in H.
    rewrite andb_false_r in H. simpl in H.
    rewrite andb_false_r in H. discriminate.
  - simpl in H. destruct (isWhiteSpace p).
    + apply andb_true_iff in H as [_ H]. eapply IH; eauto.
    + eapply IH; eauto.
Qed.

(** Without a line feed in the text the blank-line pattern has nothing to
    match. *)
Lemma blank_lines_noop s :
  ~ In LF s -> forall bol, replaceAll re_blank_lines [LF] bol 0 s = s.
Proof.
  induction s as [|c r IH]; intros Hn bol; [reflexivity|].
  cbn [replaceAll re_blank_lines].
  destruct (c =? LF)%N eqn:E.
  - apply N.eqb_eq in E. exfalso. apply Hn. left. exact E.
  - f_equal. apply IH. intros Hin. apply Hn. right. exact Hin.
Qed.

Lemma collapsed_single_spaced text :
  single_spaced false (cleanText_collapsed text) = true.
Proof. unfold cleanText_collapsed, replace_g. apply collapse_single_spaced. Qed.

Lemma collapsed_no_LF text : ~ In LF (cleanText_collapsed text).
Proof.
  intros Hin.
  pose proof (single_spaced_In _ _ _ (collapsed_single_spaced text) Hin eq_refl) as H.
  discriminate H.
Qed.

(** C10. For every input string the output of [cleanText] contains no
    line feed (indeed no whitespace character other than the space) and no
    two consecutive whitespace characters; the whitespace runs are all
    collapsed before the blank-line replacement, which changes nothing. *)
Theorem cleanText_single_spaced_no_newline :
  forall text : jsstring,
    ~ In LF (cleanText text)
    /\ (forall c, In c (cleanText text) -> isWhiteSpace c = true -> c = SP)
    /\ (forall pre x y post,
           cleanText text = pre ++ x :: y :: post ->
           isWhiteSpace x = true -> isWhiteSpace y = true -> False)
    /\ replace_g re_blank_lines [LF] (cleanText_collapsed text)
       = cleanText_collapsed text.
Proof.
  intros text.
  assert (Hnoop : replace_g re_blank_lines [LF] (cleanText_collapsed text)
                  = cleanText_collapsed text)
    by (apply blank_lines_noop, collapsed_no_LF).
  assert (Hs : single_spaced false (cleanText text) = true).
  { unfold cleanText. rewrite Hnoop.
    eapply single_spaced_trim, collapsed_single_spaced. }
  repeat split.
  - intros Hin.
    pose proof (single_spaced_In _ _ _ Hs Hin eq_refl) as H. discriminate H.
  - intros c. apply single_spaced_In with (b := false); exact Hs.
  - intros pre x y post E. eapply single_spaced_adjacent; eauto.
  - exact Hnoop.
Qed.

(** ** chunkText *)

(** The word counts of some budgets: the defaults, and budgets whose
    product with [1 / 1.3] falls just below a whole number. *)
Example wordsForTokens_values :
  List.map wordsForTokens [700; 120; 0; 1; 2; 13; 39; 65; 130]%Z
  = [538; 92; 0; 0; 1; 10; 29; 49; 99]%Z.
Proof. vm_compute. reflexivity. Qed.

Example chunkText_hello_3 : chunkText 3 (lit "hello") 700 120 = None.
Proof. vm_compute. reflexivity. Qed.

Lemma split_ws_nonempty s : (0 < length (split_ws s))%nat.
Proof.
  induction s as [|c r IH]; [simpl; lia|].
  cbn [split_ws]. revert IH. generalize (split_ws r). intros R IH.
  destruct (isWhiteSpace c).
  - destruct r as [|c' r']; [simpl; lia|].
    destruct (isWhiteSpace c'); simpl; lia.
  - destruct R; simpl; lia.
Qed.

(** With a positive overlap the window start stays below the number of
    words, so neither exit of the loop is ever taken. *)
Lemma chunkLoop_overlap_never_returns fuel :
  forall words maxWords overlapWords start chunks,
    (0 < overlapWords)%Z ->
    (start < Z.of_nat (length words))%Z ->
    chunkLoop fuel words maxWords overlapWords start chunks = None.
Proof.
  induction fuel as [|fuel IH]; intros words maxWords overlapWords start chunks
                                       Hov Hlt; [reflexivity|].
  cbn [chunkLoop].
  destruct (Z.ltb_spec start (Z.of_nat (length words))) as [_|Hge]; [|lia].
  set (end_ := Z.min (start + maxWords) (Z.of_nat (length words))).
  assert (Hend : (end_ - overlapWords < Z.of_nat (length words))%Z)
    by (unfold end_; lia).
  destruct (Z.geb_spec (end_ - overlapWords) (Z.of_nat (length words)));
    [lia|].
  apply IH; assumption.
Qed.

(** C1 (as the code behaves). With the default budgets the loop of
    [chunkText] never ends, whatever the text and however much fuel it is
    given: after a window that reaches the last word the start is moved
    back by the overlap, below the length again. *)
Theorem chunkText_never_returns :
  forall (fuel : nat) (text : jsstring),
    chunkText fuel text maxTokens_default overlapTokens_default = None.
Proof.
  intros fuel text. unfold chunkText.
  apply chunkLoop_overlap_never_returns.
  - vm_compute. reflexivity.
  - pose proof (split_ws_nonempty text). lia.
Qed.

(** The same as a rewriting rule for the runs of the handler. *)
Lemma chunkText_defaults_never_return fuel text :
  chunkText fuel text maxTokens_default overlapTokens_default = None.
Proof.
  unfold chunkText.
  apply chunkLoop_overlap_never_returns.
  - vm_compute. reflexivity.
  - pose proof (split_ws_nonempty text). lia.
Qed.

(** Without overlap the same loop does end: the model's loop can
    return. *)
Lemma chunkLoop_no_overlap_returns fuel :
  forall words maxWords start chunks,
    (0 < maxWords)%Z -> (0 <= start)%Z ->
    (Z.max 0 (Z.of_nat (length words) - start) < Z.of_nat fuel)%Z ->
    exists r, chunkLoop fuel words maxWords 0 start chunks = Some r.
Proof.
  induction fuel as [|fuel IH]; intros words maxWords start chunks Hm Hs Hf;
    [simpl in Hf; lia|].
  cbn [chunkLoop].
  destruct (Z.ltb_spec start (Z.of_nat (length words))); [|eauto].
  set (end_ := Z.min (start + maxWords) (Z.of_nat (length words))).
  destruct (Z.geb_spec (end_ - 0) (Z.of_nat (length words))); [eauto|].
  apply IH; unfold end_ in *; lia.
Qed.

Lemma chunkText_zero_overlap_returns text :
  exists r,
    chunkText (S (length (split_ws text))) text 700 0 = Some r.
Proof.
  unfold chunkText. apply chunkLoop_no_overlap_returns.
  - vm_compute. reflexivity.
  - lia.
  - lia.
Qed.

(** ** getEmbeddingWithRetry *)

Lemma requests_after (w : World) (l : list jsstring) (text : jsstring) :
  length (embed_requests (set_embed_requests (l ++ [text]) w)) = S (length l).
Proof. simpl. rewrite length_app. simpl. lia. Qed.

(** C3. [getEmbeddingWithRetry(text)] (three retries at most) sends at
    most three requests.  A failure that is not the last allowed one is
    logged and followed by a pause of [2^(attempt-1)] seconds: one second
    after the first, two after the second.  If the third request succeeds
    its embedding is returned and nothing is thrown; if all three fail the
    third error is thrown, after the three seconds of pauses. *)
Theorem getEmbeddingWithRetry_attempts_and_backoff :
  forall (env : Env) (text : jsstring) (w : World),
    let n := length (embed_requests w) in
    let out := fst (getEmbeddingWithRetry env text 3 w) in
    let w' := snd (getEmbeddingWithRetry env text 3 w) in
    (length (embed_requests w') <= n + 3)%nat /\
    match embeddings_create env n text with
    | inr e =>
        out = Return e /\ clock w' = clock w
        /\ embed_requests w' = embed_requests w ++ [text]
        /\ console w' = console w
    | inl e1 =>
        match embeddings_create env (S n) text with
        | inr e =>
            out = Return e /\ clock w' = (clock w + 1000)%Z
            /\ embed_requests w' = embed_requests w ++ [text; text]
            /\ console w' = console w ++ [EmbeddingAttemptFailed 1 e1]
        | inl e2 =>
            match embeddings_create env (S (S n)) text with
            | inr e =>
                out = Return e /\ clock w' = (clock w + 1000 + 2000)%Z
                /\ embed_requests w' = embed_requests w ++ [text; text; text]
                /\ console w' = console w ++ [EmbeddingAttemptFailed 1 e1;
                                              EmbeddingAttemptFailed 2 e2]
            | inl e3 =>
                out = Throw e3 /\ clock w' = (clock w + 1000 + 2000)%Z
                /\ embed_requests w' = embed_requests w ++ [text; text; text]
                /\ console w' = console w ++ [EmbeddingAttemptFailed 1 e1;
                                              EmbeddingAttemptFailed 2 e2;
                                              EmbeddingAttemptFailed 3 e3]
            end
        end
    end.
Proof.
  intros env text w n out w'. subst out w'.
  assert (H1 : length (embed_requests w ++ [text]) = S n)
    by (rewrite length_app; cbn; lia).
  assert (H2 : length ((embed_requests w ++ [text]) ++ [text]) = S (S n))
    by (rewrite !length_app; cbn; lia).
  unfold getEmbeddingWithRetry.
  change (Z.to_nat 3) with 3%nat.
  unfold embedAttempts, bind, settle, openai_embeddings_create,
    console_error, sleep, modify, throw, ret.
  fold n.
  destruct (embeddings_create env n text) as [e1|e].
  2:{ cbn. rewrite H1. repeat split; lia. }
  cbn. rewrite H1.
  destruct (embeddings_create env (S n) text) as [e2|e].
  2:{ cbn. rewrite H2, <- !app_assoc. repeat split; lia. }
  cbn. rewrite H2.
  destruct (embeddings_create env (S (S n)) text) as [e3|e];
    cbn; rewrite !length_app, <- !app_assoc; cbn; repeat split; lia.
Qed.

(** ** Relations kept by computations *)

Section Keeps.

Variable R : World -> World -> Prop.
Hypothesis R_refl : forall w, R w w.
Hypothesis R_trans : forall a b c, R a b -> R b c -> R a c.

Lemma keeps_ret {A} (a : A) : keeps R (ret a).
Proof. intros w. apply R_refl. Qed.

Lemma keeps_throw {A} e : keeps R (@throw A e).
Proof. intros w. apply R_refl. Qed.

Lemma keeps_get {A} (f : World -> A) : keeps R (get f).
Proof. intros w. apply R_refl. Qed.

Lemma keeps_bind {A B} (c : M A) (k : A -> M B) :
  keeps R c -> (forall a, keeps R (k a)) -> keeps R (bind c k).
Proof.
  intros Hc Hk w. unfold bind. specialize (Hc w).
  destruct (c w) as [[a|e|] w1]; simpl in *; auto.
  eapply R_trans; [exact Hc | apply Hk].
Qed.

Lemma keeps_try_catch {A} (c : M A) h :
  keeps R c -> (forall e, keeps R (h e)) -> keeps R (try_catch c h).
Proof.
  intros Hc Hh w. unfold try_catch. specialize (Hc w).
  destruct (c w) as [[a|e|] w1]; simpl in *; auto.
  eapply R_trans; [exact Hc | apply Hh].
Qed.

Lemma keeps_settle {A} (c : M A) : keeps R c -> keeps R (settle c).
Proof.
  intros Hc w. unfold settle. specialize (Hc w).
  destruct (c w) as [[a|e|] w1]; simpl in *; auto.
Qed.

Lemma keeps_unsettle {A} (r : Exn + A) : keeps R (unsettle r).
Proof. destruct r; [apply keeps_throw | apply keeps_ret]. Qed.

Lemma keeps_mapM {A B} (f : A -> M B) l :
  (forall x, In x l -> keeps R (f x)) -> keeps R (mapM f l).
Proof.
  induction l as [|x r IH]; intros H; simpl.
  - apply keeps_ret.
  - apply keeps_bind; [apply H; now left|]. intros y.
    apply keeps_bind; [apply IH; intros; apply H; now right|].
    intros ys. apply keeps_ret.
Qed.

Lemma keeps_forM_ {A} (f : A -> M unit) l :
  (forall x, In x l -> keeps R (f x)) -> keeps R (forM_ l f).
Proof.
  induction l as [|x r IH]; intros H; simpl.
  - apply keeps_ret.
  - apply keeps_bind; [apply H; now left|]. intros _.
    apply IH. intros; apply H; now right.
Qed.

Lemma keeps_modify (f : World -> World) :
  (forall w, R w (f w)) -> keeps R (modify f).
Proof. intros H w. apply H. Qed.

End Keeps.

(** ** Computations that always return *)

Lemma returns_ret {A} (a : A) : returns (ret a).
Proof. intros w. eexists. reflexivity. Qed.

Lemma returns_bind {A B} (c : M A) (k : A -> M B) :
  returns c -> (forall a, returns (k a)) -> returns (bind c k).
Proof.
  intros Hc Hk w. unfold bind. destruct (Hc w) as [a Ha].
  destruct (c w) as [o w1]. simpl in Ha. subst o. apply Hk.
Qed.

Lemma returns_settle {A} (c : M A) :
  (forall w, fst (c w) <> OutOfFuel) -> returns (settle c).
Proof.
  intros H w. unfold settle. specialize (H w).
  destruct (c w) as [[a|e|] w1]; simpl in *; eauto. congruence.
Qed.

Lemma returns_try_catch {A} (c : M A) h :
  (forall w, fst (c w) <> OutOfFuel) -> (forall e, returns (h e)) ->
  returns (try_catch c h).
Proof.
  intros H Hh w. unfold try_catch. specialize (H w).
  destruct (c w) as [[a|e|] w1]; simpl in *; eauto.
  - apply Hh.
  - congruence.
Qed.

Lemma returns_mapM {A B} (f : A -> M B) l :
  (forall x, returns (f x)) -> returns (mapM f l).
Proof.
  intros H. induction l as [|x r IH]; simpl.
  - apply returns_ret.
  - apply returns_bind; [apply H|]. intros y.
    apply returns_bind; [apply IH|]. intros ys. apply returns_ret.
Qed.

Lemma returns_forM_ {A} (f : A -> M unit) l :
  (forall x, returns (f x)) -> returns (forM_ l f).
Proof.
  intros H. induction l as [|x r IH]; simpl.
  - apply returns_ret.
  - apply returns_bind; [apply H|]. intros _. apply IH.
Qed.

Lemma returns_modify f : returns (modify f).
Proof. intros w. eexists. reflexivity. Qed.

Lemma fueled_ret {A} (a : A) : fueled (ret a).
Proof. intros w. discriminate. Qed.

Lemma fueled_throw {A} e : fueled (@throw A e).
Proof. intros w. discriminate. Qed.

Lemma fueled_bind {A B} (c : M A) (k : A -> M B) :
  fueled c -> (forall a, fueled (k a)) -> fueled (bind c k).
Proof.
  intros Hc Hk w. unfold bind. specialize (Hc w).
  destruct (c w) as [[a|e|] w1]; simpl in *; try discriminate; auto.
  apply Hk.
Qed.

Lemma fueled_returns {A} (c : M A) : returns c -> fueled c.
Proof. intros H w. destruct (H w) as [a Ha]. rewrite Ha. discriminate. Qed.

Lemma fueled_pg_roundtrip env : fueled (pg_roundtrip env).
Proof.
  intros w. unfold pg_roundtrip. destruct (pg_fault env (pg_trips w)); discriminate.
Qed.

Lemma fueled_create env text : fueled (openai_embeddings_create env text).
Proof.
  intros w. unfold openai_embeddings_create.
  destruct (embeddings_create env _ text); discriminate.
Qed.

Lemma fueled_embedAttempts env n :
  forall attempt maxRetries text,
    fueled (embedAttempts env n attempt maxRetries text).
Proof.
  induction n as [|n IH]; intros attempt maxRetries text; simpl.
  - apply fueled_throw.
  - apply fueled_bind.
    + apply fueled_returns, returns_settle, fueled_create.
    + intros [err|e]; [|apply fueled_ret].
      apply fueled_bind; [apply fueled_returns, returns_modify|].
      intros _. destruct (attempt =? maxRetries)%Z; [apply fueled_throw|].
      apply fueled_bind; [apply fueled_returns, returns_modify|].
      intros _. apply IH.
Qed.

(** ** The embeddings table under the upsert *)

Lemma has_hash_true h r : has_hash h r = true <-> e_content_hash r = Some h.
Proof.
  unfold has_hash, str_eqb. destruct (e_content_hash r) as [x|].
  - destruct (list_eq_dec N.eq_dec x h); split; congruence.
  - split; congruence.
Qed.

Lemma cached_existsb h w :
  cached h w <-> existsb (has_hash h) (embeddings w) = true.
Proof.
  unfold cached. rewrite existsb_exists.
  split; intros (r & Hr & H); exists r; split; auto; now apply has_hash_true.
Qed.

(** The table has no column [updated_at], and the documents have no
    column [doc_id] or [blob_path]. *)
Lemma updated_at_is_no_column : ~ In (lit "updated_at") embeddings_columns.
Proof.
  intros H. apply (In_nth_error embeddings_columns) in H as [n H].
  do 9 (destruct n as [|n]; [discriminate H|]). destruct n; discriminate H.
Qed.

Lemma doc_id_is_no_column : ~ In (lit "doc_id") documents_columns.
Proof.
  intros H. apply (In_nth_error documents_columns) in H as [n H].
  do 11 (destruct n as [|n]; [discriminate H|]). destruct n; discriminate H.
Qed.

Lemma blob_path_is_no_column : ~ In (lit "blob_path") documents_columns.
Proof.
  intros H. apply (In_nth_error documents_columns) in H as [n H].
  do 11 (destruct n as [|n]; [discriminate H|]). destruct n; discriminate H.
Qed.

(** The upsert in one step: a round trip, then the refusal, unless the
    round trip itself failed. *)
Lemma upsert_embedding_run env d i c h v n w :
  upsert_embedding env d i c h v n w
  = (Throw (match pg_fault env (pg_trips w) with
            | Some e => e
            | None => undefined_target (lit "updated_at") (lit "embeddings")
            end),
     set_pg_trips (S (pg_trips w)) w).
Proof.
  unfold upsert_embedding, bind, pg_roundtrip, throw.
  destruct (pg_fault env (pg_trips w)); reflexivity.
Qed.

(** ** What the steps of the batch processing do to the world *)

Lemma grows_refl w : grows w w.
Proof. repeat split; exists []; now rewrite app_nil_r. Qed.

Lemma grows_trans a b c : grows a b -> grows b c -> grows a c.
Proof.
  intros (K1 & (l1 & L1) & (q1 & Q1) & D1) (K2 & (l2 & L2) & (q2 & Q2) & D2).
  repeat split.
  - congruence.
  - exists (l1 ++ l2). rewrite L2, L1, app_assoc. reflexivity.
  - exists (q1 ++ q2). rewrite Q2, Q1, app_assoc. reflexivity.
  - congruence.
Qed.

(** A change of the world that leaves table, console, requests and
    documents alone. *)
Lemma grows_frame w w' :
  embeddings w' = embeddings w -> console w' = console w ->
  embed_requests w' = embed_requests w -> documents w' = documents w ->
  grows w w'.
Proof.
  intros E C Q D. repeat split; auto.
  - exists []. now rewrite app_nil_r.
  - exists []. now rewrite app_nil_r.
Qed.

Lemma grows_cached h w w' : grows w w' -> cached h w' <-> cached h w.
Proof. intros (E & _). unfold cached. now rewrite E. Qed.

Lemma requested_since_grows w0 c w w' :
  grows w w' -> requested_since w0 c w -> requested_since w0 c w'.
Proof.
  intros (_ & _ & (q & Q) & _) (new & E & Hin).
  exists (new ++ q). split.
  - rewrite Q, E, app_assoc. reflexivity.
  - apply in_or_app. now left.
Qed.

Lemma requested_since_base w0 c w w' :
  grows w0 w -> requested_since w c w' -> requested_since w0 c w'.
Proof.
  intros (_ & _ & (q & Q) & _) (new & E & Hin).
  exists (q ++ new). split.
  - rewrite E, Q, app_assoc. reflexivity.
  - apply in_or_app. now right.
Qed.

Lemma chunk_failed_grows w0 i w w' :
  grows w w' -> chunk_failed_since w0 i w -> chunk_failed_since w0 i w'.
Proof.
  intros (_ & (l & L) & _) (new & e & E & H).
  exists (new ++ l), e. split.
  - rewrite L, E, app_assoc. reflexivity.
  - apply in_or_app. now left.
Qed.

Lemma chunk_failed_base w0 i w w' :
  grows w0 w -> chunk_failed_since w i w' -> chunk_failed_since w0 i w'.
Proof.
  intros (_ & (l & L) & _) (new & e & E & H).
  exists (l ++ new), e. split.
  - rewrite E, L, app_assoc. reflexivity.
  - apply in_or_app. now right.
Qed.

Lemma keeps_pg_roundtrip_grows env : keeps grows (pg_roundtrip env).
Proof.
  intros w. unfold pg_roundtrip.
  destruct (pg_fault env (pg_trips w)); apply grows_frame; reflexivity.
Qed.

Lemma keeps_console_error_grows l : keeps grows (console_error l).
Proof.
  intros w. repeat split; simpl; try (exists []; now rewrite app_nil_r).
  eexists. reflexivity.
Qed.

Lemma keeps_sleep_grows ms : keeps grows (sleep ms).
Proof. intros w. apply grows_frame; reflexivity. Qed.

Lemma keeps_create_grows env text :
  keeps grows (openai_embeddings_create env text).
Proof.
  intros w. unfold openai_embeddings_create.
  destruct (embeddings_create env _ text); simpl;
    (repeat split; simpl; try (exists []; now rewrite app_nil_r);
     eexists; reflexivity).
Qed.

Lemma keeps_upsert_grows env d i c h v n :
  keeps grows (upsert_embedding env d i c h v n).
Proof.
  intros w. rewrite upsert_embedding_run. apply grows_frame; reflexivity.
Qed.

Section RetryKeeps.

Variable env : Env.
Variable R : World -> World -> Prop.
Hypothesis R_refl : forall w, R w w.
Hypothesis R_trans : forall a b c, R a b -> R b c -> R a c.
Hypothesis R_console : forall l, keeps R (console_error l).
Hypothesis R_sleep : forall ms, keeps R (sleep ms).

Lemma keeps_embedAttempts n :
  forall attempt maxRetries text,
    keeps R (openai_embeddings_create env text) ->
    keeps R (embedAttempts env n attempt maxRetries text).
Proof.
  induction n as [|n IH]; intros attempt maxRetries text Hc; simpl.
  - now apply keeps_throw.
  - apply keeps_bind; auto; [now apply keeps_settle|].
    intros [err|e]; [|now apply keeps_ret].
    apply keeps_bind; auto. intros _.
    destruct (attempt =? maxRetries)%Z; [now apply keeps_throw|].
    apply keeps_bind; auto.
Qed.

End RetryKeeps.

Lemma keeps_retry_grows env text k :
  keeps grows (getEmbeddingWithRetry env text k).
Proof.
  unfold getEmbeddingWithRetry.
  apply (keeps_embedAttempts env grows grows_refl grows_trans
                             keeps_console_error_grows keeps_sleep_grows).
  apply keeps_create_grows.
Qed.

(** The first thing [getEmbeddingWithRetry] does, when it is given at
    least one attempt, is to request the embedding. *)
Lemma embedAttempts_requests env n attempt maxRetries text w :
  requested_since w text
    (snd (embedAttempts env (S n) attempt maxRetries text w)).
Proof.
  cbn [embedAttempts]. unfold bind at 1, settle, openai_embeddings_create.
  set (w1 := set_embed_requests (embed_requests w ++ [text]) w).
  assert (H1 : requested_since w text w1).
  { exists [text]. split; [reflexivity | now left]. }
  destruct (embeddings_create env (length (embed_requests w)) text)
    as [err|e]; [|exact H1].
  match goal with |- requested_since _ _ (snd (?k w1)) =>
    assert (Hk : keeps grows k) end.
  { apply keeps_bind;
      [apply grows_trans | apply keeps_console_error_grows |].
    intros _. destruct (attempt =? maxRetries)%Z;
      [apply keeps_throw, grows_refl|].
    apply keeps_bind; [apply grows_trans | apply keeps_sleep_grows |].
    intros _.
    apply (keeps_embedAttempts env grows grows_refl grows_trans
                               keeps_console_error_grows keeps_sleep_grows).
    apply keeps_create_grows. }
  eapply requested_since_grows; [apply Hk | exact H1].
Qed.

(** ** The callback of a batch *)

Lemma lookupChunk_run env c w :
  exists r w1,
    lookupChunk env c w = (Return r, w1)
    /\ embeddings w1 = embeddings w /\ console w1 = console w
    /\ embed_requests w1 = embed_requests w /\ documents w1 = documents w
    /\ (r = inr [] -> ~ cached (sha256_hex env c) w)
    /\ (reachable env -> ~ cached (sha256_hex env c) w -> r = inr []).
Proof.
  unfold lookupChunk, select_embedding_by_hash, settle, bind, pg_roundtrip,
    generateContentHash, get.
  destruct (pg_fault env (pg_trips w)) as [e|] eqn:Ef.
  - do 2 eexists. repeat split; [discriminate|].
    intros Hr. rewrite Hr in Ef. discriminate.
  - do 2 eexists. repeat split; cbn [embeddings set_pg_trips].
    + intros E Hc. injection E as E. apply map_eq_nil in E.
      destruct Hc as (r & Hr & Hh). apply has_hash_true in Hh.
      assert (In r (filter (has_hash (sha256_hex env c)) (embeddings w)))
        by (apply filter_In; auto).
      rewrite E in H. contradiction.
    + intros _ Hn. f_equal.
      destruct (filter (has_hash (sha256_hex env c)) (embeddings w))
        as [|r rest] eqn:E; [reflexivity|].
      exfalso. apply Hn.
      assert (Hin : In r (filter (has_hash (sha256_hex env c)) (embeddings w)))
        by (rewrite E; now left).
      apply filter_In in Hin as [Hin Hh]. exists r. split; [exact Hin|].
      now apply has_hash_true.
Qed.

Lemma lookups_run env (indexed : list (nat * jsstring)) :
  forall w,
  exists looked w1,
    mapM (fun ic => r <- lookupChunk env (snd ic) ;; ret (ic, r)) indexed w
    = (Return looked, w1)
    /\ embeddings w1 = embeddings w /\ console w1 = console w
    /\ embed_requests w1 = embed_requests w /\ documents w1 = documents w
    /\ List.map fst looked = indexed
    /\ (forall icr, In icr looked -> snd icr = inr [] ->
                    ~ cached (sha256_hex env (snd (fst icr))) w)
    /\ (reachable env ->
        forall icr, In icr looked ->
                    ~ cached (sha256_hex env (snd (fst icr))) w ->
                    snd icr = inr []).
Proof.
  induction indexed as [|ic rest IH]; intros w.
  - exists [], w. cbn. repeat split; auto; contradiction.
  - destruct (lookupChunk_run env (snd ic) w)
      as (r & w1 & E1 & T1 & C1 & Q1 & D1 & N1 & P1).
    destruct (IH w1) as (looked & w2 & E2 & T2 & C2 & Q2 & D2 & M2 & N2 & P2).
    exists ((ic, r) :: looked), w2.
    cbn [mapM]. unfold bind at 1. unfold bind at 1. rewrite E1.
    unfold ret at 1. unfold bind at 1. rewrite E2. unfold ret.
    repeat split; try congruence.
    + cbn. congruence.
    + intros icr [<-|Hin] Hnil; [now apply N1|].
      intros Hc. apply (N2 icr Hin Hnil).
      apply cached_existsb. rewrite T1. now apply cached_existsb.
    + intros Hr icr [<-|Hin] Hn; [now apply P1|].
      apply (P2 Hr icr Hin). intros Hc. apply Hn.
      apply cached_existsb. rewrite <- T1. now apply cached_existsb.
Qed.

Lemma keeps_persistChunk_grows env d i c existing :
  keeps grows (persistChunk env d i c existing).
Proof.
  unfold persistChunk.
  apply keeps_try_catch; [apply grows_trans| |].
  - apply keeps_bind; [apply grows_trans | apply keeps_unsettle, grows_refl |].
    intros rows.
    apply keeps_bind; [apply grows_trans | |].
    + destruct rows; [apply keeps_retry_grows | apply keeps_ret, grows_refl].
    + intros v. apply keeps_bind;
        [apply grows_trans | apply keeps_upsert_grows |].
      intros _. apply keeps_ret, grows_refl.
  - intros e. apply keeps_bind;
      [apply grows_trans | apply keeps_console_error_grows |].
    intros _. apply keeps_ret, grows_refl.
Qed.

Lemma fueled_upsert env d i c h v n : fueled (upsert_embedding env d i c h v n).
Proof. intros w. rewrite upsert_embedding_run. discriminate. Qed.

Lemma returns_console_error l : returns (console_error l).
Proof. apply returns_modify. Qed.

Lemma returns_persistChunk env d i c existing :
  returns (persistChunk env d i c existing).
Proof.
  unfold persistChunk. apply returns_try_catch.
  - apply fueled_bind.
    + destruct existing; [apply fueled_throw | apply fueled_ret].
    + intros rows. apply fueled_bind.
      * destruct rows; [apply fueled_embedAttempts | apply fueled_ret].
      * intros v. apply fueled_bind; [apply fueled_upsert|].
        intros _. apply fueled_ret.
  - intros e. apply returns_bind; [apply returns_console_error|].
    intros _. apply returns_ret.
Qed.

Lemma returns_lookupChunk env c : returns (lookupChunk env c).
Proof.
  intros w. destruct (lookupChunk_run env c w) as (r & w1 & E & _).
  exists r. now rewrite E.
Qed.

(** Whatever the lookup gave, the callback ends in its [catch]: the
    upsert is refused if nothing failed before it, and the failure of the
    chunk is written to the console. *)
Lemma persistChunk_fails env d (i : nat) c existing w :
  chunk_failed_since w i
    (snd (persistChunk env d (Z.of_nat i) c existing w))
  /\ exists e, fst (persistChunk env d (Z.of_nat i) c existing w)
               = Return {| chunkIndex := Z.of_nat i; success := false;
                           error := Some e |}.
Proof.
  unfold persistChunk, try_catch.
  match goal with |- context [match ?b w with _ => _ end] =>
    assert (Hk : keeps grows b) end.
  { apply keeps_bind; [apply grows_trans | apply keeps_unsettle, grows_refl |].
    intros rows.
    apply keeps_bind; [apply grows_trans | |].
    + destruct rows; [apply keeps_retry_grows | apply keeps_ret, grows_refl].
    + intros v. apply keeps_bind;
        [apply grows_trans | apply keeps_upsert_grows |].
      intros _. apply keeps_ret, grows_refl. }
  specialize (Hk w).
  match goal with |- context [match ?b w with _ => _ end] =>
    destruct (b w) as [[a|e|] w1] eqn:Eb end.
  - exfalso.
    unfold bind in Eb at 1.
    destruct (unsettle existing w) as [[rows|?|] wa] eqn:Eu; try discriminate.
    unfold bind in Eb at 1.
    match type of Eb with context [match ?g wa with _ => _ end] =>
      destruct (g wa) as [[v|?|] wb] eqn:Eg end; try discriminate.
    unfold bind in Eb at 1.
    rewrite upsert_embedding_run in Eb. discriminate.
  - cbn [snd] in Hk. destruct Hk as (_ & (l & L) & _).
    split.
    + exists (l ++ [FailedToProcessChunk (Z.of_nat i) e]), e. cbn. split.
      * rewrite L, app_assoc. reflexivity.
      * apply in_or_app. right. now left.
    + exists e. reflexivity.
  - exfalso.
    pose proof (returns_persistChunk env d (Z.of_nat i) c existing w) as [a Ha].
    unfold persistChunk, try_catch in Ha. rewrite Eb in Ha. discriminate.
Qed.

(** After a lookup that found no row the callback requests the
    embedding of its chunk. *)
Lemma persistChunk_requests env d i c w :
  requested_since w c (snd (persistChunk env d i c (inr []) w)).
Proof.
  unfold persistChunk, try_catch.
  match goal with |- context [match ?b w with _ => _ end] =>
    assert (Hb : requested_since w c (snd (b w))) end.
  { cbn [unsettle]. unfold bind at 1, ret at 1. unfold bind at 1.
    unfold getEmbeddingWithRetry.
    change (Z.to_nat 3) with 3%nat.
    pose proof (embedAttempts_requests env 2 1 3 c w) as H.
    destruct (embedAttempts env 3 1 3 c w) as [[v|e|] wb]; cbn [snd] in *;
      try exact H.
    unfold bind. rewrite upsert_embedding_run. cbn [snd].
    eapply requested_since_grows; [|exact H].
    apply grows_frame; reflexivity. }
  match goal with |- context [match ?b w with _ => _ end] =>
    destruct (b w) as [[a|e|] w1] end; cbn [snd] in *; exact Hb.
Qed.

Lemma bind_run {A B} (c : M A) (k : A -> M B) w a w1 :
  c w = (Return a, w1) -> bind c k w = k a w1.
Proof. intros E. unfold bind. now rewrite E. Qed.

Lemma returns_run {A} (c : M A) w :
  returns c -> exists a, c w = (Return a, snd (c w)).
Proof.
  intros H. destruct (H w) as [a Ha]. exists a.
  destruct (c w); simpl in *. now subst.
Qed.

(** A property of each element established by its own step, in any world
    grown from [w0], and stable under growth holds for every element at
    the end of the traversal from [w0]. *)
Lemma mapM_each {A B} (P : A -> World -> Prop) (f : A -> M B) l w0 :
  (forall x, returns (f x)) -> (forall x, keeps grows (f x)) ->
  (forall x w w', grows w w' -> P x w -> P x w') ->
  (forall x w, In x l -> grows w0 w -> P x (snd (f x w))) ->
  forall w x, grows w0 w -> In x l -> P x (snd (mapM f l w)).
Proof.
  intros Hr Hk Hs. induction l as [|y r IH]; intros Hp w x Hw Hin;
    [contradiction|].
  cbn [mapM].
  destruct (returns_run (f y) w (Hr y)) as [b Eb].
  rewrite (bind_run _ _ _ _ _ Eb).
  destruct (returns_run (mapM f r) (snd (f y w)) (returns_mapM f r Hr))
    as [bs Ebs].
  rewrite (bind_run _ _ _ _ _ Ebs). cbn [ret snd].
  destruct Hin as [<-|Hin].
  - eapply Hs; [|apply Hp; [now left | exact Hw]].
    apply (keeps_mapM grows grows_refl grows_trans). intros; apply Hk.
  - apply IH; auto.
    + intros; apply Hp; auto. now right.
    + eapply grows_trans; [exact Hw | apply Hk].
Qed.

Lemma forM__each {A} (P : A -> World -> Prop) (f : A -> M unit) l w0 :
  (forall x, returns (f x)) -> (forall x, keeps grows (f x)) ->
  (forall x w w', grows w w' -> P x w -> P x w') ->
  (forall x w, In x l -> grows w0 w -> P x (snd (f x w))) ->
  forall w x, grows w0 w -> In x l -> P x (snd (forM_ l f w)).
Proof.
  intros Hr Hk Hs. induction l as [|y r IH]; intros Hp w x Hw Hin;
    [contradiction|].
  cbn [forM_].
  destruct (returns_run (f y) w (Hr y)) as [b Eb].
  rewrite (bind_run _ _ _ _ _ Eb).
  destruct Hin as [<-|Hin].
  - eapply Hs; [|apply Hp; [now left | exact Hw]].
    apply (keeps_forM_ grows grows_refl grows_trans). intros; apply Hk.
  - apply IH; auto.
    + intros; apply Hp; auto. now right.
    + eapply grows_trans; [exact Hw | apply Hk].
Qed.

(** ** One batch *)

(** The course of one batch: the lookups, then the callbacks, then the
    report and the pause, which touch only console and clock. *)
Lemma processBatch_run env chunks d i w :
  exists looked w1 results w2,
    mapM (fun ic => r <- lookupChunk env (snd ic) ;; ret (ic, r))
         (indexedBatch chunks i) w = (Return looked, w1)
    /\ embeddings w1 = embeddings w /\ console w1 = console w
    /\ embed_requests w1 = embed_requests w /\ documents w1 = documents w
    /\ List.map fst looked = indexedBatch chunks i
    /\ (forall icr, In icr looked -> snd icr = inr [] ->
                    ~ cached (sha256_hex env (snd (fst icr))) w)
    /\ (reachable env ->
        forall icr, In icr looked ->
                    ~ cached (sha256_hex env (snd (fst icr))) w ->
                    snd icr = inr [])
    /\ mapM (persistLooked env d) looked w1 = (Return results, w2)
    /\ fst (processBatch env chunks d i w) = Return tt
    /\ embeddings (snd (processBatch env chunks d i w)) = embeddings w2
    /\ embed_requests (snd (processBatch env chunks d i w)) = embed_requests w2
    /\ documents (snd (processBatch env chunks d i w)) = documents w2
    /\ (exists l, console (snd (processBatch env chunks d i w))
                  = console w2 ++ l).
Proof.
  destruct (lookups_run env (indexedBatch chunks i) w)
    as (looked & w1 & E1 & T1 & C1 & Q1 & D1 & M1 & N1 & P1).
  destruct (returns_run (mapM (persistLooked env d) looked) w1)
    as [results E2].
  { apply returns_mapM. intros x. apply returns_persistChunk. }
  exists looked, w1, results, (snd (mapM (persistLooked env d) looked w1)).
  repeat (split; [assumption|]).
  unfold processBatch. fold (indexedBatch chunks i).
  rewrite (bind_run _ _ _ _ _ E1).
  fold (persistLooked env d).
  rewrite (bind_run _ _ _ _ _ E2).
  set (w2 := snd (mapM (persistLooked env d) looked w1)).
  destruct (filter (fun r => negb (success r)) results);
    destruct (i + batchSize <? length chunks)%nat; cbn;
      repeat split; try (exists []; now rewrite app_nil_r);
        eexists; reflexivity.
Qed.

Lemma returns_processBatch env chunks d i : returns (processBatch env chunks d i).
Proof.
  intros w. destruct (processBatch_run env chunks d i w)
    as (? & ? & ? & ? & _ & _ & _ & _ & _ & _ & _ & _ & _ & H & _).
  eexists. exact H.
Qed.

Lemma keeps_persistLooked_grows env d icr :
  keeps grows (persistLooked env d icr).
Proof. apply keeps_persistChunk_grows. Qed.

Lemma keeps_processBatch_grows env chunks d i :
  keeps grows (processBatch env chunks d i).
Proof.
  intros w. destruct (processBatch_run env chunks d i w)
    as (looked & w1 & results & w2 & E1 & T1 & C1 & Q1 & D1 & _ & _ & _ & E2
        & _ & Tf & Qf & Df & Cf).
  apply grows_trans with w1; [apply grows_frame; assumption|].
  apply grows_trans with w2.
  - pose proof (keeps_mapM grows grows_refl grows_trans (persistLooked env d)
                           looked
                           (fun x _ => keeps_persistLooked_grows env d x) w1)
      as H.
    rewrite E2 in H. exact H.
  - repeat split; auto.
    exists []. now rewrite app_nil_r.
Qed.

Lemma processBatch_fails env chunks d i w idx c :
  In (idx, c) (indexedBatch chunks i) ->
  chunk_failed_since w idx (snd (processBatch env chunks d i w)).
Proof.
  intros Hin.
  destruct (processBatch_run env chunks d i w)
    as (looked & w1 & results & w2 & E1 & T1 & C1 & Q1 & D1 & M1 & _ & _ & E2
        & _ & Tf & Qf & Df & Cf).
  rewrite <- M1 in Hin. apply in_map_iff in Hin as (icr & Ef & Hin).
  assert (H : chunk_failed_since w1 (fst (fst icr)) w2).
  { pose proof (mapM_each
                  (fun icr w => chunk_failed_since w1 (fst (fst icr)) w)
                  (persistLooked env d) looked w1
                  (fun x => returns_persistChunk env d _ _ _)
                  (keeps_persistLooked_grows env d)
                  (fun x => chunk_failed_grows _ _)
                  (fun x w _ G =>
                     chunk_failed_base _ _ _ _ G
                       (proj1 (persistChunk_fails env d _ _ _ w)))
                  w1 icr (grows_refl w1) Hin) as K.
    rewrite E2 in K. exact K. }
  rewrite Ef in H. cbn [fst snd] in H.
  destruct H as (new & e & E & He). destruct Cf as (l & L).
  exists (new ++ l), e. split.
  - rewrite L, E, C1, app_assoc. reflexivity.
  - apply in_or_app. now left.
Qed.

Lemma processBatch_requests env chunks d i w idx c :
  reachable env ->
  In (idx, c) (indexedBatch chunks i) ->
  ~ cached (sha256_hex env c) w ->
  requested_since w c (snd (processBatch env chunks d i w)).
Proof.
  intros Hr Hin Hn.
  destruct (processBatch_run env chunks d i w)
    as (looked & w1 & results & w2 & E1 & T1 & C1 & Q1 & D1 & M1 & _ & P1 & E2
        & _ & Tf & Qf & Df & Cf).
  rewrite <- M1 in Hin. apply in_map_iff in Hin as (icr & Ef & Hin).
  assert (Hnil : snd icr = inr []).
  { apply (P1 Hr icr Hin). rewrite Ef. exact Hn. }
  assert (H : requested_since w1 (snd (fst icr)) w2).
  { pose proof (mapM_each
                  (fun icr w => snd icr = inr [] ->
                                requested_since w1 (snd (fst icr)) w)
                  (persistLooked env d) looked w1
                  (fun x => returns_persistChunk env d _ _ _)
                  (keeps_persistLooked_grows env d)
                  (fun x w w' G P E => requested_since_grows _ _ _ _ G (P E))) as K.
    specialize (K (fun x w _ G E =>
                     requested_since_base _ _ _ _ G
                       (eq_ind_r
                          (fun r => requested_since w (snd (fst x))
                                      (snd (persistChunk env d
                                              (Z.of_nat (fst (fst x)))
                                              (snd (fst x)) r w)))
                          (persistChunk_requests env d _ _ w) E))
                  w1 icr (grows_refl w1) Hin).
    rewrite E2 in K. apply K. exact Hnil. }
  rewrite Ef in H. cbn [fst snd] in H.
  destruct H as (new & E & Hc). exists new. split; [|exact Hc].
  rewrite Qf, E, Q1. reflexivity.
Qed.

(** ** All batches *)

Lemma combine_seq_nth {A} (b : list A) :
  forall start m c,
    nth_error b m = Some c ->
    In ((start + m)%nat, c) (combine (seq start (length b)) b).
Proof.
  induction b as [|x r IH]; intros start m c H.
  - destruct m; discriminate.
  - destruct m as [|m]; cbn in *.
    + injection H as ->. left. f_equal. lia.
    + right. replace (start + S m)%nat with (S start + m)%nat by lia.
      now apply IH.
Qed.

(** Every chunk is in the batch that starts at the multiple of ten below
    its index. *)
Lemma indexedBatch_covers chunks j c :
  nth_error chunks j = Some c ->
  exists i, In i (batchStarts (length chunks))
            /\ In (j, c) (indexedBatch chunks i).
Proof.
  intros H.
  assert (Hj : (j < length chunks)%nat)
    by (apply nth_error_Some; congruence).
  pose proof (Nat.div_mod_eq j 10) as Dj.
  pose proof (Nat.mod_upper_bound j 10 ltac:(lia)) as Mj.
  pose proof (Nat.div_mod_eq (length chunks + 9) 10) as Dl.
  pose proof (Nat.mod_upper_bound (length chunks + 9) 10 ltac:(lia)) as Ml.
  exists (j / 10 * 10)%nat. split.
  - unfold batchStarts, batchSize. apply in_map_iff.
    exists (j / 10)%nat. split; [reflexivity|].
    apply in_seq. cbn [Nat.sub]. lia.
  - unfold indexedBatch, batchSize.
    replace j with (j / 10 * 10 + j mod 10)%nat at 1 by lia.
    apply combine_seq_nth.
    rewrite nth_error_firstn.
    destruct (Nat.ltb_spec (j mod 10) 10); [|lia].
    rewrite nth_error_skipn.
    replace (j / 10 * 10 + j mod 10)%nat with j by lia. exact H.
Qed.

Lemma returns_processEmbeddingsBatch env chunks d :
  returns (processEmbeddingsBatch env chunks d).
Proof. apply returns_forM_. intros i. apply returns_processBatch. Qed.

Lemma keeps_processEmbeddingsBatch_grows env chunks d :
  keeps grows (processEmbeddingsBatch env chunks d).
Proof.
  apply (keeps_forM_ grows grows_refl grows_trans).
  intros i _. apply keeps_processBatch_grows.
Qed.

Lemma processEmbeddingsBatch_fails env chunks d w j c :
  nth_error chunks j = Some c ->
  chunk_failed_since w j (snd (processEmbeddingsBatch env chunks d w)).
Proof.
  intros H. destruct (indexedBatch_covers chunks j c H) as (i & Hi & Hin).
  pose proof (forM__each
                (fun i w' => forall idx c,
                     In (idx, c) (indexedBatch chunks i) ->
                     chunk_failed_since w idx w')
                (processBatch env chunks d) (batchStarts (length chunks)) w
                (returns_processBatch env chunks d)
                (keeps_processBatch_grows env chunks d)) as K.
  apply (K (fun x w1 w2 G P idx c Hx => chunk_failed_grows _ _ _ _ G (P idx c Hx))
           (fun x w1 _ G idx c Hx =>
              chunk_failed_base _ _ _ _ G
                (processBatch_fails env chunks d x w1 idx c Hx))
           w i (grows_refl w) Hi j c Hin).
Qed.

Lemma processEmbeddingsBatch_requests env chunks d w c :
  reachable env -> In c chunks -> ~ cached (sha256_hex env c) w ->
  requested_since w c (snd (processEmbeddingsBatch env chunks d w)).
Proof.
  intros Hr Hc Hn. apply In_nth_error in Hc as [j H].
  destruct (indexedBatch_covers chunks j c H) as (i & Hi & Hin).
  pose proof (forM__each
                (fun i w' => forall idx c,
                     In (idx, c) (indexedBatch chunks i) ->
                     ~ cached (sha256_hex env c) w ->
                     requested_since w c w')
                (processBatch env chunks d) (batchStarts (length chunks)) w
                (returns_processBatch env chunks d)
                (keeps_processBatch_grows env chunks d)) as K.
  apply (K (fun x w1 w2 G P idx c Hx Hn' =>
              requested_since_grows _ _ _ _ G (P idx c Hx Hn'))
           (fun x w1 _ G idx c Hx Hn' =>
              requested_since_base _ _ _ _ G
                (processBatch_requests env chunks d x w1 idx c Hr Hx
                   (fun Hc' => Hn' (proj1 (grows_cached _ _ _ G) Hc'))))
           w i (grows_refl w) Hi j c Hin Hn).
Qed.

(** ** The upsert *)

(** C5 (as the code behaves). The upsert names the column [updated_at],
    which the table of [db-migrate.ts] does not have, and the store
    refuses it on every call: whatever the chunk and whether or not a row
    has its hash, the upsert throws, and it leaves the table and its
    sequence as they were, so that no row is inserted and no row is
    given a new [document_id] or [chunk_index].  In a run of
    [processEmbeddingsBatch] every chunk ends as a failure that the run
    writes to the console, and the table is after the run what it was
    before. *)
Theorem upsert_is_always_refused :
  forall (env : Env) (dbDocId chunkIndex : Z) (chunk contentHash : jsstring)
         (embedding : Embedding) (tokenCount : Z) (w : World),
    let run := upsert_embedding env dbDocId chunkIndex chunk contentHash
                                embedding tokenCount w in
    ~ In (lit "updated_at") embeddings_columns
    /\ fst run
       = Throw (match pg_fault env (pg_trips w) with
                | Some e => e
                | None => undefined_target (lit "updated_at")
                                           (lit "embeddings")
                end)
    /\ embeddings (snd run) = embeddings w
    /\ embeddings_id_seq (snd run) = embeddings_id_seq w
    /\ (forall chunks,
           let w' := snd (processEmbeddingsBatch env chunks dbDocId w) in
           embeddings w' = embeddings w
           /\ forall j c, nth_error chunks j = Some c ->
                           chunk_failed_since w j w').
Proof.
  intros env d i c h v n w run. subst run.
  rewrite upsert_embedding_run. cbn [fst snd].
  split; [exact updated_at_is_no_column|].
  repeat split.
  - apply (keeps_processEmbeddingsBatch_grows env chunks d w).
  - intros j c' H. eapply processEmbeddingsBatch_fails. exact H.
Qed.

Lemma upsert_is_always_refused_witness :
  let w' := snd (processEmbeddingsBatch env0 [lit "alpha"; lit "gamma"] 2
                                        world2) in
  embeddings w' = [row_of 1 1 "alpha"; row_of 2 2 "beta"]
  /\ chunk_failed_since world2 0 w' /\ chunk_failed_since world2 1 w'.
Proof.
  intros w'.
  destruct (upsert_is_always_refused env0 2 0 (lit "alpha") (lit "alpha")
                                     [inject_Z 1] 2 world2)
    as (_ & _ & _ & _ & H).
  destruct (H [lit "alpha"; lit "gamma"]) as [T F].
  split; [exact T|].
  split; [exact (F 0%nat (lit "alpha") eq_refl)
         | exact (F 1%nat (lit "gamma") eq_refl)].
Defined.

(** On a table that holds the chunk [alpha] for document 1, the upsert
    of the same chunk for document 2 is refused and the row stays with
    document 1. *)
Example upsert_on_conflict_changes_nothing :
  let run := upsert_embedding env0 2 0 (lit "alpha") (lit "alpha")
                              [inject_Z 1] 2 world2 in
  fst run
  = Throw (Error (lit "column " ++ quoted (lit "updated_at")
                    ++ lit " of relation " ++ quoted (lit "embeddings")
                    ++ lit " does not exist"))
  /\ embeddings (snd run) = [row_of 1 1 "alpha"; row_of 2 2 "beta"].
Proof. vm_compute. split; reflexivity. Qed.

(** ** The content-hash cache *)

(** C2 (as the code behaves). No run of [processEmbeddingsBatch] stores
    a row, so a later run finds in the table what was there before the
    earlier one and nothing more: with the store reachable, a chunk whose
    hash is not in the table is requested from the embedding service in
    the first ingestion, the table is after it what it was before, and
    the same content is requested again in the second, whatever the
    documents and whatever the service answers. *)
Theorem identical_content_is_embedded_again :
  forall (env : Env) (chunksA chunksB : list jsstring) (docA docB : Z)
         (c : jsstring) (w : World),
    reachable env -> In c chunksA -> In c chunksB ->
    ~ cached (sha256_hex env c) w ->
    let wA := snd (processEmbeddingsBatch env chunksA docA w) in
    let wB := snd (processEmbeddingsBatch env chunksB docB wA) in
    fst (processEmbeddingsBatch env chunksA docA w) = Return tt
    /\ fst (processEmbeddingsBatch env chunksB docB wA) = Return tt
    /\ embeddings wA = embeddings w /\ embeddings wB = embeddings w
    /\ requested_since w c wA /\ requested_since wA c wB.
Proof.
  intros env chunksA chunksB dA dB c w Hr HA HB Hn wA wB.
  destruct (returns_processEmbeddingsBatch env chunksA dA w) as [[] RA].
  destruct (returns_processEmbeddingsBatch env chunksB dB wA) as [[] RB].
  pose proof (keeps_processEmbeddingsBatch_grows env chunksA dA w) as GA.
  pose proof (keeps_processEmbeddingsBatch_grows env chunksB dB wA) as GB.
  fold wA in GA. fold wB in GB.
  split; [exact RA|]. split; [exact RB|].
  split; [apply GA|]. split; [rewrite (proj1 GB); apply GA|].
  split.
  - now apply processEmbeddingsBatch_requests.
  - apply processEmbeddingsBatch_requests; auto.
    intros Hc. apply Hn. now apply (grows_cached _ _ _ GA).
Qed.

Lemma identical_content_is_embedded_again_witness :
  let wA := snd (processEmbeddingsBatch env0 [lit "same text"] 1 world0) in
  let wB := snd (processEmbeddingsBatch env0 [lit "same text"] 2 wA) in
  embeddings wB = [] /\ requested_since wA (lit "same text") wB.
Proof.
  intros wA wB.
  assert (Hr : reachable env0) by (intros n; reflexivity).
  assert (Hn : ~ cached (sha256_hex env0 (lit "same text")) world0)
    by (intros (r & H & _); exact H).
  destruct (identical_content_is_embedded_again
              env0 [lit "same text"] [lit "same text"] 1 2 (lit "same text")
              world0 Hr (or_introl eq_refl) (or_introl eq_refl) Hn)
    as (_ & _ & _ & T & _ & Q).
  split; [exact T | exact Q].
Defined.

(** The same on a run: two ingestions of one chunk, into two documents,
    with a store that answers and a service that accepts.  The service is
    asked twice, each time the chunk is reported as failed, and the table
    stays empty. *)
Example two_ingestions_of_one_chunk :
  let wA := snd (processEmbeddingsBatch env0 [lit "same text"] 1 world0) in
  let wB := snd (processEmbeddingsBatch env0 [lit "same text"] 2 wA) in
  embed_requests wB = [lit "same text"; lit "same text"]
  /\ embeddings wB = []
  /\ console wB
     = [FailedToProcessChunk 0
          (undefined_target (lit "updated_at") (lit "embeddings"));
        BatchHadFailures 1 [0%Z];
        FailedToProcessChunk 0
          (undefined_target (lit "updated_at") (lit "embeddings"));
        BatchHadFailures 1 [0%Z]].
Proof. vm_compute. repeat split. Qed.

(** ** The event stream *)

Lemma consumeStream_run deltas failure :
  forall sse w,
    consumeStream deltas failure sse w
    = (match failure with
       | Some e => Throw e
       | None => Return (sse ++ tokensOf deltas)
       end, w).
Proof.
  induction deltas as [|d r IH]; intros sse w; cbn [consumeStream].
  - destruct failure; cbn; [reflexivity | now rewrite app_nil_r].
  - rewrite IH. destruct failure; [reflexivity|].
    cbn [tokensOf flat_map]. destruct (truthyO d); cbn [app].
    + now rewrite <- app_assoc.
    + reflexivity.
Qed.

Lemma tokensOf_not_terminal deltas :
  Forall (fun e => isTerminal e = false) (tokensOf deltas).
Proof.
  induction deltas as [|d r IH]; cbn; [constructor|].
  destruct (truthyO d); cbn; [constructor; [reflexivity|]|]; exact IH.
Qed.

Lemma terminals_body body last :
  Forall (fun e => isTerminal e = false) body -> isTerminal last = true ->
  terminals (body ++ [last]) = 1%nat.
Proof.
  intros Hb Hl. unfold terminals. rewrite filter_app. cbn. rewrite Hl.
  rewrite length_app. cbn.
  replace (filter isTerminal body) with (@nil SseEvent); [reflexivity|].
  symmetry. induction Hb as [|x r Hx _ IH]; cbn; [reflexivity|].
  now rewrite Hx.
Qed.

Lemma error_frame_well_terminated m :
  well_terminated [EvError m] /\ terminals [EvError m] = 1%nat.
Proof.
  split; [|reflexivity]. exists [], (EvError m). repeat split. constructor.
Qed.

Lemma success_frames_well_terminated head deltas :
  Forall (fun e => isTerminal e = false) head ->
  well_terminated ((head ++ tokensOf deltas) ++ [EvEnd])
  /\ terminals ((head ++ tokensOf deltas) ++ [EvEnd]) = 1%nat.
Proof.
  intros Hh.
  assert (Hb : Forall (fun e => isTerminal e = false) (head ++ tokensOf deltas))
    by (apply Forall_app; split; [assumption | apply tokensOf_not_terminal]).
  split; [|now apply terminals_body].
  exists (head ++ tokensOf deltas), EvEnd. repeat split. exact Hb.
Qed.

(** C8. [streamChatCompletion] always returns a stream, and the stream
    ends with exactly one terminal event that is its only one.  When the
    key is set, the request is accepted and the deltas arrive to their
    end, the stream is the metadata frame, the chunks frame, a token frame
    for each delta with content, and [end]; when the client cannot be
    made, the request is refused or the deltas break off, the stream is a
    single [error] frame.  The earlier form of the function does the
    same without the metadata frame. *)
Theorem streamChatCompletion_one_terminal_event :
  forall (env : Env) (context prompt_ : jsstring) (chunks : list ChunkResult)
         (requestId : jsstring) (latencyMs : Z) (w : World),
    (exists events,
        fst (RagQuery.streamChatCompletion env context prompt_ chunks requestId
                                  latencyMs w) = Return events
        /\ well_terminated events /\ terminals events = 1%nat
        /\ events
           = match has_openai_key env,
                   chat_stream env (chat_requests w) context prompt_ with
             | true, inr (deltas, None) =>
                 ([EvMetadata requestId latencyMs;
                   EvChunks (List.map truncated chunks)]
                    ++ tokensOf deltas) ++ [EvEnd]
             | true, inr (_, Some e) => [EvError (message e)]
             | true, inl e => [EvError (message e)]
             | false, _ =>
                 [EvError (lit "OPENAI_API_KEY environment variable is required")]
             end)
    /\ (exists events,
           fst (ApiRagQuery.streamChatCompletion env context prompt_ chunks w)
           = Return events
           /\ well_terminated events /\ terminals events = 1%nat
           /\ events
              = match chat_stream env (chat_requests w) context prompt_ with
                | inr (deltas, None) =>
                    ([EvChunks (List.map truncated chunks)] ++ tokensOf deltas)
                      ++ [EvEnd]
                | inr (_, Some e) => [EvError (message e)]
                | inl e => [EvError (message e)]
                end).
Proof.
  intros env context prompt_ chunks requestId latencyMs w. split.
  - unfold RagQuery.streamChatCompletion, try_catch, bind, getOpenAIClient,
      openai_chat_stream, streamCatch, console_error, modify, ret, throw.
    destruct (has_openai_key env).
    + destruct (chat_stream env (chat_requests w) context prompt_)
        as [e|[deltas [e|]]].
      * eexists. split; [reflexivity|].
        destruct (error_frame_well_terminated (message e)). auto.
      * rewrite consumeStream_run. eexists. split; [reflexivity|].
        destruct (error_frame_well_terminated (message e)). auto.
      * rewrite consumeStream_run. eexists. split; [reflexivity|].
        destruct (success_frames_well_terminated
                    [EvMetadata requestId latencyMs;
                     EvChunks (List.map truncated chunks)] deltas)
          as [H1 H2]; [repeat constructor|]. auto.
    + eexists. split; [reflexivity|].
      destruct (error_frame_well_terminated
                  (lit "OPENAI_API_KEY environment variable is required")).
      auto.
  - unfold ApiRagQuery.streamChatCompletion, try_catch, bind,
      openai_chat_stream, streamCatch, console_error, modify, ret, throw.
    destruct (chat_stream env (chat_requests w) context prompt_)
      as [e|[deltas [e|]]].
    + eexists. split; [reflexivity|].
      destruct (error_frame_well_terminated (message e)). auto.
    + rewrite consumeStream_run. eexists. split; [reflexivity|].
      destruct (error_frame_well_terminated (message e)). auto.
    + rewrite consumeStream_run. eexists. split; [reflexivity|].
      destruct (success_frames_well_terminated
                  [EvChunks (List.map truncated chunks)] deltas)
        as [H1 H2]; [repeat constructor|]. auto.
Qed.

(** ** Vector search *)

Lemma Qle_bool_false a b : Qle_bool a b = false -> (b <= a)%Q.
Proof.
  intros H. apply Qlt_le_weak, Qnot_le_lt. intros L.
  apply Qle_bool_iff in L. congruence.
Qed.

Lemma insert_by_In {A} (key : A -> Q) x l y :
  In y (insert_by key x l) <-> y = x \/ In y l.
Proof.
  induction l as [|z r IH]; cbn.
  - intuition.
  - destruct (Qle_bool (key x) (key z)); cbn; rewrite ?IH; intuition.
Qed.

Lemma sort_by_In {A} (key : A -> Q) l y : In y (sort_by key l) <-> In y l.
Proof.
  induction l as [|x r IH]; cbn; [reflexivity|].
  rewrite insert_by_In, IH. intuition.
Qed.

Lemma insert_by_ascending {A} (key : A -> Q) x l :
  ascending key l -> ascending key (insert_by key x l).
Proof.
  induction l as [|z r IH]; intros Hs; cbn.
  - split; [intros y []| exact I].
  - destruct Hs as [Hz Hr].
    destruct (Qle_bool (key x) (key z)) eqn:E; cbn.
    + apply Qle_bool_iff in E. split; [|split; assumption].
      intros y [<-|Hy]; [assumption|].
      eapply Qle_trans; [exact E | now apply Hz].
    + apply Qle_bool_false in E. split; [|now apply IH].
      intros y Hy. apply insert_by_In in Hy as [->|Hy]; [assumption|].
      now apply Hz.
Qed.

Lemma sort_by_ascending {A} (key : A -> Q) l : ascending key (sort_by key l).
Proof.
  induction l as [|x r IH]; cbn; [exact I|].
  now apply insert_by_ascending.
Qed.

Lemma firstn_In {A} n : forall (l : list A) x, In x (firstn n l) -> In x l.
Proof.
  induction n as [|n IH]; intros [|y r] x H; cbn in *; try contradiction.
  destruct H as [->|H]; auto.
Qed.

Lemma firstn_ascending {A} (key : A -> Q) n :
  forall l, ascending key l -> ascending key (firstn n l).
Proof.
  induction n as [|n IH]; intros [|x r] Hs; cbn; auto.
  destruct Hs as [Hx Hr]. split; [|now apply IH].
  intros y Hy. apply Hx. eapply firstn_In; eauto.
Qed.

Lemma descending_map env q l :
  ascending (distanceTo env q) l ->
  descending (List.map (toChunkResult env q) l).
Proof.
  induction l as [|x r IH]; intros Hs; cbn; [exact I|].
  destruct Hs as [Hx Hr]. split; [|now apply IH].
  intros y Hy. apply in_map_iff in Hy as (z & <- & Hz). cbn.
  apply Qplus_le_r, Qopp_le_compat. now apply Hx.
Qed.

Lemma join_documents_In es ds e d :
  In (e, d) (join_documents es ds) ->
  In e es /\ In d ds /\ e_document_id e = Some (d_id d).
Proof.
  unfold join_documents. intros H.
  apply in_flat_map in H as (e' & He & H).
  apply in_map_iff in H as (d' & E & H). injection E as -> ->.
  apply filter_In in H as [Hd H]. repeat split; auto.
  destruct (e_document_id e) as [i|]; [|discriminate].
  apply Z.eqb_eq in H. now subst.
Qed.

Lemma ranked_In env w q docId e d :
  In (e, d) (ranked env w q docId) ->
  In e (embeddings w) /\ In d (documents w)
  /\ e_document_id e = Some (d_id d)
  /\ (truthyO docId = true -> md_doc_id (d_metadata d) = docId).
Proof.
  unfold ranked. intros H. apply sort_by_In in H.
  destruct (truthyO docId) eqn:T.
  - apply filter_In in H as [H F].
    apply join_documents_In in H as (He & Hd & Hj).
    repeat split; auto. intros _.
    cbn in F. unfold has_doc_id, str_eqb in F.
    destruct (md_doc_id (d_metadata d)) as [x|]; [|discriminate].
    destruct docId as [D|]; [|discriminate]. cbn in F.
    destruct (list_eq_dec N.eq_dec x D); [now subst | discriminate].
  - apply join_documents_In in H as (He & Hd & Hj).
    repeat split; auto. discriminate.
Qed.

(** What [vectorSearch] returns when it returns. *)
Lemma vectorSearch_run env q docId topK w rows :
  fst (vectorSearch env q docId topK w) = Return rows ->
  rows = List.map (toChunkResult env q)
                  (firstn (Z.to_nat (Qto_Z topK)) (ranked env w q docId))
  /\ (0 <= Qto_Z topK)%Z.
Proof.
  unfold vectorSearch, bind, pg_roundtrip, get, throw.
  destruct (pg_fault env (pg_trips w)); [discriminate|].
  destruct (Qis_int topK); cbn [andb]; [|discriminate].
  destruct (Z.leb_spec 0 (Qto_Z topK)); [|discriminate].
  cbn. intros E. injection E as <-. split; [|assumption].
  unfold ranked. reflexivity.
Qed.

(** C7 (as the code behaves). With a non-empty document filter [D]
    every chunk returned by [vectorSearch] is a chunk of a document whose
    identifier is [D].  With or without filter the result is in
    descending order of similarity, one minus the cosine distance to the
    query vector, has at most [topK] chunks, and each chunk carries the
    title of its parent document. *)
Theorem vectorSearch_scoped_ranked_limited :
  forall (env : Env) (w : World) (queryEmbedding : Embedding) (D : jsstring)
         (topK : Q) (rows : list ChunkResult),
    D <> [] ->
    fst (vectorSearch env queryEmbedding (Some D) topK w) = Return rows ->
    (forall c, In c rows -> belongs_to env w queryEmbedding D c)
    /\ (forall docId topK' rows',
           fst (vectorSearch env queryEmbedding docId topK' w) = Return rows' ->
           descending rows'
           /\ (Z.of_nat (length rows') <= Qto_Z topK')%Z
           /\ forall c, In c rows' ->
                exists e d,
                  In e (embeddings w) /\ In d (documents w)
                  /\ e_document_id e = Some (d_id d)
                  /\ cr_id c = e_id e
                  /\ cr_document_title c = d_title d
                  /\ cr_similarity c
                     = (1 - cosine_distance env (e_embedding e)
                                            queryEmbedding)%Q).
Proof.
  intros env w q D topK rows HD Hrun. split.
  - apply vectorSearch_run in Hrun as [-> _].
    intros c Hc. apply in_map_iff in Hc as ([e d] & <- & Hin).
    apply firstn_In in Hin. apply ranked_In in Hin as (He & Hd & Hj & Hf).
    exists e, d. repeat split; auto. apply Hf.
    destruct D; [congruence | reflexivity].
  - intros docId topK' rows' Hrun'.
    apply vectorSearch_run in Hrun' as [-> Hk]. repeat split.
    + apply descending_map, firstn_ascending, sort_by_ascending.
    + rewrite length_map, length_firstn. lia.
    + intros c Hc. apply in_map_iff in Hc as ([e d] & <- & Hin).
      apply firstn_In in Hin. apply ranked_In in Hin as (He & Hd & Hj & _).
      exists e, d. repeat split; auto.
Qed.

Lemma vectorSearch_scoped_ranked_limited_witness :
  lit "d1" <> []
  /\ fst (vectorSearch env0 [] (Some (lit "d1")) 5 world2)
     = Return [toChunkResult env0 [] (row_of 1 1 "alpha", document0)]
  /\ forall c,
       In c [toChunkResult env0 [] (row_of 1 1 "alpha", document0)] ->
       belongs_to env0 world2 [] (lit "d1") c.
Proof.
  assert (H1 : lit "d1" <> []) by discriminate.
  assert (H2 : fst (vectorSearch env0 [] (Some (lit "d1")) 5 world2)
               = Return [toChunkResult env0 [] (row_of 1 1 "alpha", document0)])
    by reflexivity.
  split; [exact H1 | split; [exact H2 |]].
  exact (proj1 (vectorSearch_scoped_ranked_limited
                  env0 world2 [] (lit "d1") 5 _ H1 H2)).
Defined.

(** C7 (as stated) fails for the empty identifier: [if (docId)] takes it
    for no filter, and the chunks of every document are returned. *)
Lemma empty_doc_id_is_not_a_filter :
  exists rows c,
    fst (vectorSearch env0 [] (Some []) 5 world2) = Return rows
    /\ In c rows /\ ~ belongs_to env0 world2 [] [] c.
Proof.
  eexists. exists (toChunkResult env0 [] (row_of 1 1 "alpha", document0)).
  split; [reflexivity|]. split; [left; reflexivity|].
  intros (e & d & _ & Hd & _ & Hm & _).
  destruct Hd as [<-|[<-|[]]]; discriminate Hm.
Qed.

(** ** Validation of [top_k] *)

Lemma checkRateLimit_run ip w :
  exists r w1,
    checkRateLimit ip w = (Return r, w1)
    /\ embed_requests w1 = embed_requests w /\ pg_trips w1 = pg_trips w
    /\ chat_requests w1 = chat_requests w /\ embeddings w1 = embeddings w
    /\ documents w1 = documents w.
Proof.
  unfold checkRateLimit, bind, now, get, modify, ret.
  cbn [rateLimitMap set_rateLimitMap].
  destruct (map_get ip _) as [[count resetTime]|].
  - destruct (resetTime <? clock w)%Z; [do 2 eexists; repeat split|].
    destruct (count >=? RATE_LIMIT_MAX_REQUESTS)%Z; do 2 eexists; repeat split.
  - do 2 eexists. repeat split.
Qed.

Lemma check_top_k_default : check_top_k None = inr 5%Z.
Proof. reflexivity. Qed.

Lemma check_top_k_out_of_range q :
  (q < 1 \/ 20 < q)%Q -> exists i, check_top_k (Some (JNum q)) = inl i.
Proof.
  intros H. unfold check_top_k.
  destruct (Qle_bool 1 q) eqn:E1.
  - destruct (Qle_bool q 20) eqn:E2.
    + apply Qle_bool_iff in E1, E2. exfalso.
      destruct H as [H|H].
      * apply (Qlt_not_le _ _ H E1).
      * apply (Qlt_not_le _ _ H E2).
    + destruct (Qis_int q); cbn; eexists; reflexivity.
  - destruct (Qis_int q); cbn; eexists; reflexivity.
Qed.

Lemma QueryInputSchema_out_of_range fields q :
  field "top_k" fields = Some (JNum q) -> (q < 1 \/ 20 < q)%Q ->
  exists i, QueryInputSchema (JObj fields) = inl i.
Proof.
  intros F H. unfold QueryInputSchema. rewrite F.
  destruct (check_top_k_out_of_range q H) as [i ->].
  destruct (check_prompt _); destruct (check_doc_id _); eexists; reflexivity.
Qed.

(** The validated handler answers a POST that passes the rate limit and
    carries a [top_k] below 1 or above 20 with status 400 and code
    [VALIDATION_ERROR], and makes no embedding request, no round trip to
    the store and no chat request. *)
Lemma query_handler_rejects_top_k_out_of_range :
  forall (env : Env) (event : QueryEvent) (w : World)
         (fields : list (jsstring * json)) (q : Q),
    httpMethod event = lit "POST" ->
    fst (checkRateLimit (getClientIP (headers event)) w) = Return None ->
    truthyO (body event) = true ->
    JSON_parse env (showO (body event)) = inr (JObj fields) ->
    field "top_k" fields = Some (JNum q) ->
    (q < 1 \/ 20 < q)%Q ->
    let run := RagQuery.handler env event w in
    (exists issues,
        fst run = Return (createErrorResponse 400 (lit "Validation failed")
                                              VALIDATION_ERROR (Issues issues)))
    /\ embed_requests (snd run) = embed_requests w
    /\ pg_trips (snd run) = pg_trips w
    /\ chat_requests (snd run) = chat_requests w.
Proof.
  intros env event w fields q Hm Hr Hb Hj Hf Hq run. subst run.
  unfold RagQuery.handler. rewrite Hm.
  change (negb (str_eqb (lit "POST") (lit "POST"))) with false. cbn match.
  destruct (checkRateLimit_run (getClientIP (headers event)) w)
    as (r & w1 & E & Q1 & P1 & C1 & _).
  rewrite E in Hr. cbn in Hr. injection Hr as ->.
  unfold try_catch. rewrite (bind_run _ _ _ _ _ E).
  unfold validateRequestBody. rewrite Hb, Hj. cbn [negb].
  destruct (QueryInputSchema_out_of_range fields q Hf Hq) as [i ->].
  cbn. repeat split; eauto.
Qed.

Lemma query_handler_rejects_top_k_zero_example :
  let env := {| sha256_hex := sha256_hex env0;
                embeddings_create := embeddings_create env0;
                pg_fault := pg_fault env0; uploads_get := uploads_get env0;
                fetch := fetch env0; url_pathname := url_pathname env0;
                utf8_decode := utf8_decode env0;
                JSON_parse :=
                  fun _ => inr (JObj [(lit "prompt", JStr (lit "what"));
                                      (lit "top_k", JNum 0)]);
                pdf_parse := pdf_parse env0;
                mammoth_extractRawText := mammoth_extractRawText env0;
                cosine_distance := cosine_distance env0;
                has_openai_key := true;
                chat_complete := chat_complete env0;
                chat_stream := chat_stream env0;
                randomUUID := randomUUID env0 |} in
  let event := {| httpMethod := lit "POST";
                  headers := {| x_forwarded_for := None; x_real_ip := None;
                                cf_connecting_ip := None; accept := None |};
                  body := Some (lit "{}") |} in
  fst (RagQuery.handler env event world2)
  = Return (createErrorResponse 400 (lit "Validation failed") VALIDATION_ERROR
                                (Issues [issue "top_k" too_small]))
  /\ embed_requests (snd (RagQuery.handler env event world2)) = [].
Proof. split; reflexivity. Qed.

(** C6 (as the code behaves, earlier handler). The handler of
    [api/rag-query.ts] has the default of 5 and no bounds: a request with
    [top_k = 0] and one with [top_k = 25] both pass, the embedding
    service and the store are called, and the answer has status 200. *)
Theorem legacy_query_handler_accepts_top_k_out_of_range :
  (fst (ApiRagQuery.handler env0 (legacy_event 0) world2)
   = Return {| q_statusCode := 200;
               q_body := AnswerBody None []
                           (lit "No relevant information found in the knowledge base.")
                           None |}
   /\ embed_requests (snd (ApiRagQuery.handler env0 (legacy_event 0) world2))
      = [lit "what"]
   /\ pg_trips (snd (ApiRagQuery.handler env0 (legacy_event 0) world2))
      = 2%nat)
  /\ (fst (ApiRagQuery.handler env0 (legacy_event (inject_Z 25)) world2)
      = Return {| q_statusCode := 200;
                  q_body :=
                    AnswerBody None
                      (List.map truncated
                         [toChunkResult env0 [inject_Z 0]
                                        (row_of 1 1 "alpha", document0);
                          toChunkResult env0 [inject_Z 0]
                                        (row_of 2 2 "beta", document_b)])
                      (lit "answer") None |}
      /\ embed_requests
           (snd (ApiRagQuery.handler env0 (legacy_event (inject_Z 25)) world2))
         = [lit "what"]).
Proof. repeat split; vm_compute; reflexivity. Qed.

(** ** Empty text *)

(** The [catch] of the ingestion handler always answers with the failure,
    whatever happens to its own attempt to mark the document, and leaves
    the chunks alone. *)
Lemma handler_catch_answers env event err w :
  fst (handler_catch env event err w)
  = Return {| statusCode := 500; r_success := false; r_doc_id := None;
              r_chunks_processed := None; r_status := None;
              r_error := Some (message err) |}
  /\ embeddings (snd (handler_catch env event err w)) = embeddings w.
Proof.
  unfold handler_catch, mark_error, console_error, pg_connect, parseBody,
    pg_end.
  unfold bind, try_catch, modify, pg_roundtrip, ret, throw.
  cbn [pg_trips set_console set_pg_trips].
  destruct (pg_fault env (pg_trips w)); [split; reflexivity|].
  destruct (ie_body event) as [input|]; [|split; reflexivity].
  destruct (truthyO (doc_id input)); [|split; reflexivity].
  cbn [pg_trips set_console set_pg_trips].
  destruct (pg_fault env (S (pg_trips w))); split; reflexivity.
Qed.

(** A failure of the marking itself is logged and the answer is the
    same. *)
Lemma handler_catch_logs_its_own_failure env event err w e :
  pg_fault env (pg_trips w) = Some e ->
  console (snd (handler_catch env event err w))
  = console w ++ [IngestionError err; FailedToUpdateErrorStatus e]
  /\ documents (snd (handler_catch env event err w)) = documents w.
Proof.
  intros H.
  unfold handler_catch, bind, try_catch, console_error, modify, pg_connect,
    pg_roundtrip.
  cbn [pg_trips set_console set_pg_trips]. rewrite H. cbn.
  rewrite <- app_assoc. split; reflexivity.
Qed.

(** The inner [try] of the handler always throws: its lookup of the
    document is refused when the store answers, and nothing else of the
    body is reached.  It leaves documents, chunks, requests and console
    as they were. *)
Lemma handler_try_run env fuel input w :
  exists e w1,
    Ingest.handler_try env fuel input w = (Throw e, w1)
    /\ documents w1 = documents w /\ embeddings w1 = embeddings w
    /\ embed_requests w1 = embed_requests w /\ console w1 = console w
    /\ (pg_fault env (pg_trips w) = None ->
        truthyO (doc_id input) || truthyO (blob_key input) = true ->
        e = undefined_column (if truthyO (doc_id input) then lit "doc_id"
                              else lit "blob_path")).
Proof.
  unfold Ingest.handler_try, select_documents, bind, pg_roundtrip, throw, ret.
  destruct (truthyO (doc_id input)).
  { destruct (pg_fault env (pg_trips w)) eqn:Ef; do 2 eexists;
      repeat split; intros; congruence. }
  destruct (truthyO (blob_key input)).
  { destruct (pg_fault env (pg_trips w)) eqn:Ef; do 2 eexists;
      repeat split; intros; congruence. }
  destruct (truthyO (blob_url input)).
  - destruct (truthy (derivedKey env (showO (blob_url input)))).
    + destruct (pg_fault env (pg_trips w)); do 2 eexists;
        repeat split; intros; discriminate.
    + do 2 eexists. repeat split. intros; discriminate.
  - do 2 eexists. repeat split. intros; discriminate.
Qed.

(** A run of the handler changes the documents only in its [catch], and
    there only to mark documents with the request's [doc_id] as ERROR. *)
Lemma handler_catch_documents env event err w :
  documents (snd (handler_catch env event err w)) = documents w
  \/ exists id at_,
       documents (snd (handler_catch env event err w))
       = List.map (fun d => if has_doc_id id d
                            then set_metadata
                                   (with_status (d_metadata d) ERROR) at_ d
                            else d)
                  (documents w).
Proof.
  unfold handler_catch, mark_error, console_error, pg_connect, parseBody,
    pg_end.
  unfold bind, try_catch, modify, pg_roundtrip, ret, throw.
  cbn [pg_trips set_console set_pg_trips].
  destruct (pg_fault env (pg_trips w)); [now left|].
  destruct (ie_body event) as [input|]; [|now left].
  destruct (truthyO (doc_id input)); [|now left].
  cbn [pg_trips set_console set_pg_trips].
  destruct (pg_fault env (S (pg_trips w))); [now left|].
  right. do 2 eexists. reflexivity.
Qed.

Lemma handler_run env fuel event w :
  exists e w1,
    Ingest.handler env fuel event w = handler_catch env event e w1
    /\ documents w1 = documents w /\ embeddings w1 = embeddings w
    /\ embed_requests w1 = embed_requests w /\ console w1 = console w.
Proof.
  unfold Ingest.handler, try_catch.
  unfold bind at 1, parseBody.
  destruct (ie_body event) as [input|]; cbn [throw ret];
    [|do 2 eexists; repeat split; reflexivity].
  destruct (negb (truthyO (doc_id input)) && negb (truthyO (blob_key input))
            && negb (truthyO (blob_url input)));
    [do 2 eexists; repeat split; reflexivity|].
  unfold bind at 1, pg_connect, pg_roundtrip.
  destruct (pg_fault env (pg_trips w));
    [do 2 eexists; repeat split; reflexivity|].
  unfold try_finally.
  destruct (handler_try_run env fuel input (set_pg_trips (S (pg_trips w)) w))
    as (e & w1 & E & D & T & Q & C & _).
  rewrite E. cbn. exists e, w1. repeat split; assumption.
Qed.

(** A request by [doc_id], for a document whose text is empty after
    cleaning: the lookup is refused, and the [catch] marks the document
    through the [doc_id]. *)
Example empty_text_by_doc_id_marks_error :
  fst (Ingest.handler env0 0 ingest_by_doc_id world0) = Return lookup_response
  /\ List.map (fun d => md_status (d_metadata d))
              (documents (snd (Ingest.handler env0 0 ingest_by_doc_id world0)))
     = [Some ERROR]
  /\ embeddings (snd (Ingest.handler env0 0 ingest_by_doc_id world0)) = [].
Proof. repeat split; vm_compute; reflexivity. Qed.

(** C9 (as the code behaves). A document whose text is empty after
    cleaning and that is ingested by its storage key gets a failure
    answer and no chunks, but the failure is the store's refusal of the
    lookup, which names [blob_path] as a column, and not the empty text,
    which is never read; and the status of the document is left at
    UPLOADED: the [catch] marks ERROR only through a [doc_id] of the
    request. *)
Theorem empty_text_by_blob_key_stays_uploaded :
  fst (Ingest.handler env0 0 ingest_by_blob_key world0)
  = Return {| statusCode := 500; r_success := false; r_doc_id := None;
              r_chunks_processed := None; r_status := None;
              r_error := Some (lit "column " ++ quoted (lit "blob_path")
                                 ++ lit " does not exist") |}
  /\ cleanText (utf8_decode env0 [SP]) = []
  /\ ~ In (lit "blob_path") documents_columns
  /\ List.map (fun d => md_status (d_metadata d))
              (documents (snd (Ingest.handler env0 0 ingest_by_blob_key world0)))
     = [Some UPLOADED]
  /\ embeddings (snd (Ingest.handler env0 0 ingest_by_blob_key world0)) = []
  /\ console (snd (Ingest.handler env0 0 ingest_by_blob_key world0))
     = [IngestionError (undefined_column (lit "blob_path"))].
Proof.
  split; [vm_compute; reflexivity|].
  split; [vm_compute; reflexivity|].
  split; [exact blob_path_is_no_column|].
  repeat split; vm_compute; reflexivity.
Qed.

(** ** No document becomes READY *)

(** C4 (as the code behaves). No run of the ingestion handler marks a
    document READY: whatever the request, the store and the services, a
    document that is READY after the run was in the table before it,
    exactly as it is.  The inner [try] ends at its lookup, so the
    chunks are never processed, and the only change a run makes to a
    document is the ERROR of its [catch]. *)
Theorem ingestion_never_marks_ready :
  forall (env : Env) (fuel : nat) (event : IngestEvent) (w : World)
         (d : Document),
    In d (documents (snd (Ingest.handler env fuel event w))) ->
    md_status (d_metadata d) = Some READY ->
    In d (documents w)
    /\ embeddings (snd (Ingest.handler env fuel event w)) = embeddings w
    /\ embed_requests (snd (Ingest.handler env fuel event w))
       = embed_requests w.
Proof.
  intros env fuel event w d Hin Hs.
  destruct (handler_run env fuel event w) as (e & w1 & E & D & T & Q & _).
  rewrite E in *.
  split; [|split].
  - destruct (handler_catch_documents env event e w1) as [H|(id & t & H)];
      rewrite H in Hin; [now rewrite <- D|].
    apply in_map_iff in Hin as (x & Hx & Hin).
    destruct (has_doc_id id x); [subst d; discriminate Hs|].
    subst x. now rewrite <- D.
  - rewrite (proj2 (handler_catch_answers env event e w1)). exact T.
  - rewrite <- Q.
    unfold handler_catch, mark_error, console_error, pg_connect, parseBody,
      pg_end.
    unfold bind, try_catch, modify, pg_roundtrip, ret, throw.
    cbn [pg_trips set_console set_pg_trips].
    destruct (pg_fault env (pg_trips w1)); [reflexivity|].
    destruct (ie_body event) as [input|]; [|reflexivity].
    destruct (truthyO (doc_id input)); [|reflexivity].
    cbn [pg_trips set_console set_pg_trips].
    destruct (pg_fault env (S (pg_trips w1))); reflexivity.
Qed.

Lemma ingestion_never_marks_ready_witness :
  In document_b
     (documents (snd (Ingest.handler env0 0 ingest_by_doc_id world2)))
  /\ In document_b (documents world2).
Proof.
  assert (H : In document_b
                 (documents
                    (snd (Ingest.handler env0 0 ingest_by_doc_id world2))))
    by (vm_compute; right; left; reflexivity).
  split; [exact H|].
  exact (proj1 (ingestion_never_marks_ready env0 0 ingest_by_doc_id world2
                                            document_b H eq_refl)).
Defined.

(** The same on a run: a request for the first document of a store with
    two documents and their chunks, with the store answering and text in
    the blob.  The answer is the failure of the lookup, the document
    goes from UPLOADED to ERROR, and nothing is embedded. *)
Example ingestion_of_a_stored_document :
  let run := Ingest.handler env_text 0 ingest_by_doc_id world2 in
  fst run = Return lookup_response
  /\ List.map (fun d => md_status (d_metadata d)) (documents (snd run))
     = [Some ERROR; Some READY]
  /\ embed_requests (snd run) = []
  /\ embeddings (snd run) = embeddings world2.
Proof. vm_compute. repeat split. Qed.

(** With a [doc_id] in the request and the store reachable, the [catch]
    sets the status of every document with that identifier to ERROR. *)
Lemma handler_catch_marks_error env event input err w :
  ie_body event = Some input -> truthyO (doc_id input) = true ->
  pg_fault env (pg_trips w) = None ->
  pg_fault env (S (pg_trips w)) = None ->
  documents (snd (handler_catch env event err w))
  = List.map (fun d => if has_doc_id (showO (doc_id input)) d
                       then set_metadata (with_status (d_metadata d) ERROR)
                                         (clock w) d
                       else d)
             (documents w).
Proof.
  intros Hb Hd H1 H2.
  unfold handler_catch, mark_error, console_error, pg_connect, parseBody,
    pg_end.
  unfold bind, try_catch, modify, pg_roundtrip, ret, throw.
  cbn [pg_trips set_console set_pg_trips]. rewrite H1, Hb, Hd.
  cbn [pg_trips set_console set_pg_trips]. rewrite H2. reflexivity.
Qed.

(** ** The handler behind its lookup and the chunker *)

Lemma never_returns_throw {A} e : never_returns (@throw A e).
Proof. intros w a. discriminate. Qed.

Lemma never_returns_diverge {A} : never_returns (@diverge A).
Proof. intros w a. discriminate. Qed.

Lemma never_returns_bind {A B} (c : M A) (k : A -> M B) :
  (forall a, never_returns (k a)) -> never_returns (bind c k).
Proof.
  intros H w b. unfold bind.
  destruct (c w) as [[a|e|] w1]; cbn; try discriminate. apply H.
Qed.

Lemma never_returns_try_finally {A} (c : M A) f :
  never_returns c -> never_returns (try_finally c f).
Proof.
  intros H w a. unfold try_finally. specialize (H w).
  destruct (c w) as [[x|e|] w1]; cbn in *.
  - exfalso. now apply (H x).
  - unfold bind. destruct (f w1) as [[u|e'|] w2]; discriminate.
  - discriminate.
Qed.

(** The lookup of the document, and behind it the chunker, stand between
    every request and its success: the inner [try] of the ingestion
    handler never returns. *)
Lemma handler_try_never_returns env fuel input :
  never_returns (Ingest.handler_try env fuel input).
Proof.
  unfold Ingest.handler_try. apply never_returns_bind. intros [|document rest].
  - apply never_returns_throw.
  - apply never_returns_bind. intros _.
    apply never_returns_bind. intros [buffer|]; [|apply never_returns_throw].
    apply never_returns_bind. intros rawText.
    destruct (negb (truthy (trim (cleanText rawText))));
      [apply never_returns_throw|].
    rewrite chunkText_defaults_never_return.
    apply never_returns_diverge.
Qed.

(** The ingestion handler never answers with a success: it answers with a
    failure or does not answer. *)
Lemma handler_never_succeeds env fuel event w resp :
  fst (Ingest.handler env fuel event w) = Return resp ->
  r_success resp = false /\ statusCode resp = 500%Z.
Proof.
  unfold Ingest.handler, try_catch.
  match goal with |- context [match ?b w with _ => _ end] =>
    destruct (b w) as [[a|e|] w1] eqn:Eb end.
  - exfalso. revert Eb. unfold bind, parseBody.
    destruct (ie_body event) as [input|]; cbn; [|discriminate].
    destruct (negb (truthyO (doc_id input)) && negb (truthyO (blob_key input))
              && negb (truthyO (blob_url input))); cbn; [discriminate|].
    destruct (pg_connect env w) as [[[]|e|] w2]; try discriminate.
    intros E.
    apply (never_returns_try_finally _ pg_end
             (handler_try_never_returns env fuel input) w2 a).
    now rewrite E.
  - intros E. change (fst (handler_catch env event e w1) = Return resp) in E.
    destruct (handler_catch_answers env event e w1) as [H _].
    rewrite H in E. injection E as <-. split; reflexivity.
  - discriminate.
Qed.

(** ** The earlier query handler and [top_k] *)

Lemma same_requests_refl w : same_requests w w.
Proof. reflexivity. Qed.

Lemma same_requests_trans a b c :
  same_requests a b -> same_requests b c -> same_requests a c.
Proof. unfold same_requests. congruence. Qed.

Lemma keeps_same_requests_roundtrip env :
  keeps same_requests (pg_roundtrip env).
Proof.
  intros w. unfold pg_roundtrip.
  destruct (pg_fault env (pg_trips w)); reflexivity.
Qed.

Lemma keeps_same_requests_vectorSearch env q docId topK :
  keeps same_requests (vectorSearch env q docId topK).
Proof.
  unfold vectorSearch.
  apply (keeps_bind same_requests same_requests_trans);
    [apply keeps_same_requests_roundtrip|].
  intros _. destruct (Qis_int topK && (0 <=? Qto_Z topK)%Z);
    intros w; reflexivity.
Qed.

Lemma keeps_same_requests_chat_complete env c p :
  keeps same_requests (openai_chat_complete env c p).
Proof.
  intros w. unfold openai_chat_complete.
  destruct (chat_complete env _ c p); reflexivity.
Qed.

Lemma keeps_same_requests_stream_legacy env c p chunks :
  keeps same_requests (ApiRagQuery.streamChatCompletion env c p chunks).
Proof.
  intros w.
  unfold ApiRagQuery.streamChatCompletion, try_catch, bind,
    openai_chat_stream, streamCatch, console_error, modify, ret.
  destruct (chat_stream env _ c p) as [e|[deltas failure]]; [reflexivity|].
  rewrite consumeStream_run. destruct failure; reflexivity.
Qed.

Lemma keeps_same_requests_legacy_rest env event prompt_ chunks :
  keeps same_requests
        (match chunks with
         | [] =>
             ret {| q_statusCode := 200;
                    q_body := AnswerBody None []
                                (lit "No relevant information found in the knowledge base.")
                                None |}
         | _ :: _ =>
             let contextWithCitations := packContextWithCitations chunks in
             if acceptsSSE (lq_accept event) then
               events <- ApiRagQuery.streamChatCompletion
                           env contextWithCitations prompt_ chunks ;;
               ret {| q_statusCode := 200; q_body := StreamBody events |}
             else
               content <- openai_chat_complete env contextWithCitations
                                               prompt_ ;;
               ret {| q_statusCode := 200;
                      q_body := AnswerBody None (List.map truncated chunks)
                                           (answerOr content) None |}
         end).
Proof.
  destruct chunks as [|c r]; [intros w; reflexivity|].
  cbv zeta. destruct (acceptsSSE (lq_accept event));
    apply (keeps_bind same_requests same_requests_trans);
    try (intros x w; reflexivity).
  - apply keeps_same_requests_stream_legacy.
  - apply keeps_same_requests_chat_complete.
Qed.

(** The inner [try] of the earlier handler sends the prompt to the
    embedding service first, whatever [topK] is, and sends nothing else
    to it. *)
Lemma legacy_try_embeds env event prompt_ docId topK w :
  embed_requests (snd (ApiRagQuery.handler_try env event prompt_ docId topK w))
  = embed_requests w ++ [prompt_].
Proof.
  unfold ApiRagQuery.handler_try.
  unfold bind at 1. unfold ApiRagQuery.getQueryEmbedding,
                     openai_embeddings_create.
  destruct (embeddings_create env _ prompt_) as [e|v]; [reflexivity|].
  pose proof (keeps_bind same_requests same_requests_trans
                (vectorSearch env v docId topK)
                (fun chunks =>
                   match chunks with
                   | [] =>
                       ret {| q_statusCode := 200;
                              q_body := AnswerBody None []
                                          (lit "No relevant information found in the knowledge base.")
                                          None |}
                   | _ :: _ =>
                       let contextWithCitations :=
                         packContextWithCitations chunks in
                       if acceptsSSE (lq_accept event) then
                         events <- ApiRagQuery.streamChatCompletion
                                     env contextWithCitations prompt_ chunks ;;
                         ret {| q_statusCode := 200;
                                q_body := StreamBody events |}
                       else
                         content <- openai_chat_complete
                                      env contextWithCitations prompt_ ;;
                         ret {| q_statusCode := 200;
                                q_body := AnswerBody None
                                            (List.map truncated chunks)
                                            (answerOr content) None |}
                   end)
                (keeps_same_requests_vectorSearch env v docId topK)
                (keeps_same_requests_legacy_rest env event prompt_)
                (set_embed_requests (embed_requests w ++ [prompt_]) w)) as K.
  exact K.
Qed.

(** A POST with a prompt that is not blank reaches the embedding service
    in the earlier handler whatever its [top_k]: once the store is
    connected, exactly the prompt is sent. *)
Lemma legacy_handler_embeds_whatever_top_k env event input w :
  lq_httpMethod event = lit "POST" -> lq_body event = Some input ->
  truthyO (option_map trim (lq_prompt input)) = true ->
  pg_fault env (pg_trips w) = None ->
  embed_requests (snd (ApiRagQuery.handler env event w))
  = embed_requests w ++ [showO (lq_prompt input)].
Proof.
  intros Hm Hb Hp Hc.
  unfold ApiRagQuery.handler. rewrite Hm, Hb, Hp.
  change (negb (str_eqb (lit "POST") (lit "POST"))) with false.
  cbn [negb]. unfold try_catch.
  unfold bind at 1. unfold pg_connect, pg_roundtrip. rewrite Hc.
  unfold try_finally.
  pose proof (legacy_try_embeds
                env event (showO (lq_prompt input)) (lq_doc_id input)
                (match lq_top_k input with Some k => k | None => 5%Q end)
                (set_pg_trips (S (pg_trips w)) w)) as E.
  destruct (ApiRagQuery.handler_try env event _ _ _ _) as [[r|e|] w1];
    cbn in E |- *; exact E.
Qed.

(** ** Requests without a document identifier *)

Lemma only_processing_same w w' :
  documents w' = documents w -> only_processing w w'.
Proof.
  unfold only_processing. intros ->.
  induction (documents w); constructor; auto.
Qed.

Lemma only_processing_refl w : only_processing w w.
Proof. now apply only_processing_same. Qed.

Lemma only_processing_trans a b c :
  only_processing a b -> only_processing b c -> only_processing a c.
Proof.
  unfold only_processing. generalize (documents a) (documents b) (documents c).
  intros la lb lc Hab. revert lc.
  induction Hab as [|x y la lb Hxy _ IH]; intros lc Hbc;
    inversion Hbc as [|y' z lb' lc' Hyz Hrest]; subst; constructor.
  - destruct Hyz as [->|[Hi Hs]]; [exact Hxy|].
    right. split; [|exact Hs].
    destruct Hxy as [->|[Hi' _]]; congruence.
  - now apply IH.
Qed.

Lemma keeps_only_processing_roundtrip env :
  keeps only_processing (pg_roundtrip env).
Proof.
  intros w. unfold pg_roundtrip.
  destruct (pg_fault env (pg_trips w)); now apply only_processing_same.
Qed.

Lemma keeps_only_processing_console l :
  keeps only_processing (console_error l).
Proof. intros w. now apply only_processing_same. Qed.

Lemma keeps_only_processing_select env key value :
  keeps only_processing (select_documents env key value).
Proof.
  unfold select_documents.
  apply (keeps_bind only_processing only_processing_trans);
    [apply keeps_only_processing_roundtrip|].
  intros _ w. apply only_processing_refl.
Qed.

Lemma keeps_only_processing_update env id md :
  keeps only_processing
        (update_document env id (set_metadata (with_status md PROCESSING))).
Proof.
  unfold update_document.
  apply (keeps_bind only_processing only_processing_trans);
    [apply keeps_only_processing_roundtrip|].
  intros _ w. unfold only_processing, modify. cbn.
  induction (documents w) as [|d r IH]; cbn; constructor; auto.
  destruct (d_id d =? id)%Z; [right; split; reflexivity | now left].
Qed.

Lemma keeps_only_processing_extractText env buffer filename mimetype :
  keeps only_processing (extractText env buffer filename mimetype).
Proof.
  unfold extractText. destruct filename as [fn|];
    [|apply keeps_throw, only_processing_refl].
  apply (keeps_try_catch only_processing only_processing_trans).
  - destruct mimetype as [mt|]; [|apply keeps_throw, only_processing_refl].
    repeat match goal with
           | |- context [if ?c then _ else _] => destruct c
           end;
      try apply keeps_unsettle; try apply keeps_ret;
        apply only_processing_refl.
  - intros e. apply (keeps_bind only_processing only_processing_trans);
      [apply keeps_only_processing_console|].
    intros _. apply keeps_throw, only_processing_refl.
Qed.

Lemma keeps_only_processing_handler_try env fuel input :
  keeps only_processing (Ingest.handler_try env fuel input).
Proof.
  unfold Ingest.handler_try.
  apply (keeps_bind only_processing only_processing_trans).
  - repeat match goal with
           | |- context [if ?c then _ else _] => destruct c
           end;
      try apply keeps_only_processing_select;
      try (apply keeps_throw, only_processing_refl);
      apply keeps_ret, only_processing_refl.
  - intros [|document rest]; [apply keeps_throw, only_processing_refl|].
    apply (keeps_bind only_processing only_processing_trans);
      [apply keeps_only_processing_update|]. intros _.
    apply (keeps_bind only_processing only_processing_trans).
    + destruct (truthyO (orO (md_blob_path (d_metadata document))
                             (blob_key input))).
      * destruct (uploads_get env _) as [[|b data]|];
          apply keeps_ret, only_processing_refl.
      * destruct (truthyO (blob_url input));
          [|apply keeps_ret, only_processing_refl].
        apply (keeps_bind only_processing only_processing_trans);
          [apply keeps_unsettle, only_processing_refl|].
        intros resp. destruct ((200 <=? fst resp) && (fst resp <? 300))%Z;
          [apply keeps_ret | apply keeps_throw]; apply only_processing_refl.
    + intros [buffer|]; [|apply keeps_throw, only_processing_refl].
      apply (keeps_bind only_processing only_processing_trans);
        [apply keeps_only_processing_extractText|]. intros rawText.
      destruct (negb (truthy (trim (cleanText rawText))));
        [apply keeps_throw, only_processing_refl|].
      rewrite chunkText_defaults_never_return.
      intros w. apply only_processing_refl.
Qed.

Lemma keeps_try_finally_end R {A} (c : M A) :
  keeps R c -> keeps R (try_finally c pg_end).
Proof.
  intros H w. unfold try_finally. specialize (H w).
  destruct (c w) as [[a|e|] w1]; exact H.
Qed.

(** A request that carries no [doc_id] never puts a document in the
    state ERROR: whatever goes wrong, the documents are left as they were
    or in the state PROCESSING. *)
Lemma ingestion_without_doc_id_never_marks_error env fuel event input w :
  ie_body event = Some input -> truthyO (doc_id input) = false ->
  only_processing w (snd (Ingest.handler env fuel event w))
  /\ forall d', In d' (documents (snd (Ingest.handler env fuel event w))) ->
                md_status (d_metadata d') = Some ERROR ->
                In d' (documents w).
Proof.
  intros Hb Hd.
  assert (K : only_processing w (snd (Ingest.handler env fuel event w))).
  { unfold Ingest.handler.
    apply (keeps_try_catch only_processing only_processing_trans).
    - apply (keeps_bind only_processing only_processing_trans).
      + unfold parseBody. rewrite Hb. apply keeps_ret, only_processing_refl.
      + intros a. destruct (_ && _);
          [apply keeps_throw, only_processing_refl|].
        apply (keeps_bind only_processing only_processing_trans);
          [apply keeps_only_processing_roundtrip|].
        intros _. apply keeps_try_finally_end,
                    keeps_only_processing_handler_try.
    - intros e w1. apply only_processing_same.
      unfold handler_catch, mark_error, console_error, pg_connect, parseBody,
        pg_end.
      unfold bind, try_catch, modify, pg_roundtrip, ret, throw.
      cbn [pg_trips set_console set_pg_trips]. rewrite Hb, Hd.
      destruct (pg_fault env (pg_trips w1)); reflexivity. }
  split; [exact K|].
  intros d' Hin He. unfold only_processing in K.
  revert Hin. induction K as [|d x l l' Hdx _ IH]; intros Hin; [contradiction|].
  destruct Hin as [<-|Hin]; [|right; now apply IH].
  destruct Hdx as [->|[_ Hs]]; [now left | congruence].
Qed.

(* ===================================================================== *)
(** * Further properties *)
(* ===================================================================== *)

(** ** The rate limiter *)

Lemma str_eqb_eq a b : str_eqb a b = true <-> a = b.
Proof.
  unfold str_eqb. destruct (list_eq_dec N.eq_dec a b); split; congruence.
Qed.

Lemma str_eqb_refl a : str_eqb a a = true.
Proof. now apply str_eqb_eq. Qed.

Lemma str_eqb_neq a b : a <> b -> str_eqb a b = false.
Proof.
  intros H. destruct (str_eqb a b) eqn:E; [|reflexivity].
  apply str_eqb_eq in E. contradiction.
Qed.

Lemma map_get_None k m : map_get k m = None <-> ~ In k (List.map fst m).
Proof.
  induction m as [|[k' v] r IH]; cbn; [tauto|].
  destruct (str_eqb k' k) eqn:E.
  - apply str_eqb_eq in E. split; [discriminate | intros H; exfalso; auto].
  - rewrite IH. split; [|tauto]. intros H [->|H']; [|tauto].
    rewrite str_eqb_refl in E. discriminate.
Qed.

Lemma filter_keys_incl {V} (q : jsstring * V -> bool) m k :
  In k (List.map fst (filter q m)) -> In k (List.map fst m).
Proof.
  intros H. apply in_map_iff in H as (kv & <- & H).
  apply filter_In in H as [H _]. now apply in_map.
Qed.

Lemma filter_keys_NoDup {V} (q : jsstring * V -> bool) m :
  NoDup (List.map fst m) -> NoDup (List.map fst (filter q m)).
Proof.
  induction m as [|kv r IH]; cbn; intros H; [constructor|].
  inversion H as [|? ? Hn Hr]; subst.
  destruct (q kv); cbn; auto. constructor; auto.
  intros Hin. apply Hn. eapply filter_keys_incl; eauto.
Qed.

(** Lookup after the removal of the expired entries. *)
Lemma map_get_filter (p : Z * Z -> bool) k m :
  NoDup (List.map fst m) ->
  map_get k (filter (fun kv => p (snd kv)) m)
  = match map_get k m with
    | Some v => if p v then Some v else None
    | None => None
    end.
Proof.
  induction m as [|[k' v] r IH]; cbn; intros H; [reflexivity|].
  inversion H as [|? ? Hn Hr]; subst.
  destruct (str_eqb k' k) eqn:E.
  - destruct (p v); cbn; [now rewrite E|].
    apply str_eqb_eq in E. subst k'.
    apply map_get_None. intros Hin. apply Hn. eapply filter_keys_incl; eauto.
  - destruct (p v); cbn; [rewrite E|]; now apply IH.
Qed.

Lemma map_set_keys_incl k v m x :
  In x (List.map fst (map_set k v m)) -> x = k \/ In x (List.map fst m).
Proof.
  induction m as [|[k' v'] r IH]; cbn.
  - intros [<-|[]]. now left.
  - destruct (str_eqb k' k) eqn:E; cbn.
    + apply str_eqb_eq in E. subst k'. tauto.
    + intros [<-|H]; [tauto|]. destruct (IH H); tauto.
Qed.

Lemma map_set_NoDup k v m :
  NoDup (List.map fst m) -> NoDup (List.map fst (map_set k v m)).
Proof.
  induction m as [|[k' v'] r IH]; cbn; intros H.
  - constructor; [intros [] | constructor].
  - inversion H as [|? ? Hn Hr]; subst.
    destruct (str_eqb k' k) eqn:E; cbn.
    + apply str_eqb_eq in E. subst k'. now constructor.
    + constructor; [|now apply IH].
      intros Hin. apply map_set_keys_incl in Hin as [->|Hin]; [|contradiction].
      rewrite str_eqb_refl in E. discriminate.
Qed.

(** Insert, then look up. *)
Lemma map_get_set_same k v m : map_get k (map_set k v m) = Some v.
Proof.
  induction m as [|[k' v'] r IH]; cbn.
  - now rewrite str_eqb_refl.
  - destruct (str_eqb k' k) eqn:E; cbn; [now rewrite str_eqb_refl|].
    now rewrite E.
Qed.

Lemma map_get_set_other k k' v m :
  k' <> k -> map_get k' (map_set k v m) = map_get k' m.
Proof.
  intros Hne. induction m as [|[k0 v0] r IH]; cbn.
  - rewrite (str_eqb_neq k k'); congruence.
  - destruct (str_eqb k0 k) eqn:E; cbn.
    + apply str_eqb_eq in E. subst k0.
      rewrite (str_eqb_neq k k'); congruence.
    + destruct (str_eqb k0 k'); [reflexivity | exact IH].
Qed.

Lemma live_entry_filtered ip w :
  keys_unique w ->
  map_get ip (filter (fun kv => negb (snd (snd kv) <? clock w)%Z)
                     (rateLimitMap w))
  = live_entry ip w.
Proof.
  intros H. unfold live_entry.
  rewrite (map_get_filter (fun v => negb (snd v <? clock w)%Z) ip _ H).
  destruct (map_get ip (rateLimitMap w)) as [[c t]|]; [|reflexivity].
  cbn. destruct (t <? clock w)%Z; reflexivity.
Qed.

Lemma live_entry_live ip w c t :
  live_entry ip w = Some (c, t) -> (t <? clock w)%Z = false.
Proof.
  unfold live_entry.
  destruct (map_get ip (rateLimitMap w)) as [[c' t']|]; [|discriminate].
  destruct (t' <? clock w)%Z eqn:E; [discriminate|]. congruence.
Qed.

Lemma live_entry_set ip m w v :
  map_get ip m = v ->
  (forall c t, v = Some (c, t) -> (t <? clock w)%Z = false) ->
  live_entry ip (set_rateLimitMap m w) = v.
Proof.
  intros Hm Hv. unfold live_entry. cbn [rateLimitMap set_rateLimitMap clock].
  rewrite Hm. destruct v as [[c t]|]; [|reflexivity].
  now rewrite (Hv c t eq_refl).
Qed.

Lemma checkRateLimit_step :
  forall (ip : jsstring) (w : World),
    keys_unique w ->
    let run := checkRateLimit ip w in
    keys_unique (snd run) /\ clock (snd run) = clock w
    /\ match live_entry ip w with
       | None =>
           fst run = Return None
           /\ live_entry ip (snd run)
              = Some (1, clock w + RATE_LIMIT_WINDOW)%Z
       | Some (count, resetTime) =>
           if (count >=? RATE_LIMIT_MAX_REQUESTS)%Z then
             (exists e, fst run = Return (Some e) /\ ae_code e = RATE_LIMITED)
             /\ live_entry ip (snd run) = Some (count, resetTime)
           else
             fst run = Return None
             /\ live_entry ip (snd run) = Some (count + 1, resetTime)%Z
       end
    /\ forall ip', ip' <> ip -> live_entry ip' (snd run) = live_entry ip' w.
Proof.
  intros ip w Hu run. subst run.
  pose proof (live_entry_filtered ip w Hu) as Hip.
  assert (Hother : forall ip',
             map_get ip' (filter (fun kv => negb (snd (snd kv) <? clock w)%Z)
                                 (rateLimitMap w))
             = live_entry ip' w)
    by (intros; now apply live_entry_filtered).
  assert (Hf : NoDup (List.map fst
                        (filter (fun kv => negb (snd (snd kv) <? clock w)%Z)
                                (rateLimitMap w))))
    by (now apply filter_keys_NoDup).
  assert (Hrest : forall m ip',
             map_get ip' m = live_entry ip' w ->
             live_entry ip' (set_rateLimitMap m w) = live_entry ip' w).
  { intros m ip' Hm. apply live_entry_set; [exact Hm|].
    intros c t E. exact (live_entry_live ip' w c t E). }
  unfold checkRateLimit, bind, now, get, modify, ret.
  cbn [rateLimitMap set_rateLimitMap clock].
  rewrite Hip.
  destruct (live_entry ip w) as [[c t]|] eqn:El.
  - rewrite (live_entry_live ip w c t El).
    destruct (c >=? RATE_LIMIT_MAX_REQUESTS)%Z eqn:Ec; cbn [fst snd].
    + split; [exact Hf|]. split; [reflexivity|]. split; [split|].
      * eexists. split; reflexivity.
      * rewrite <- El. apply Hrest. now rewrite Hip.
      * intros ip' _. now apply Hrest.
    + split; [now apply map_set_NoDup|]. split; [reflexivity|].
      split; [split; [reflexivity|]|].
      * apply live_entry_set; [apply map_get_set_same|].
        intros c' t' E. inversion E; subst c' t'.
        exact (live_entry_live ip w c t El).
      * intros ip' Hne. apply Hrest.
        rewrite map_get_set_other by assumption. apply Hother.
  - cbn [fst snd].
    split; [now apply map_set_NoDup|]. split; [reflexivity|].
    split; [split; [reflexivity|]|].
    + apply live_entry_set; [apply map_get_set_same|].
      intros c' t' E. inversion E; subst c' t'.
      apply Z.ltb_ge. cbn [clock set_rateLimitMap].
      unfold RATE_LIMIT_WINDOW. lia.
    + intros ip' Hne. apply Hrest.
      rewrite map_get_set_other by assumption. apply Hother.
Qed.

(** One call of [checkRateLimit]: a client without a live entry is let
    through and gets a window of 60 seconds with a count of one; a client
    with a live entry below 60 is let through and counted; at 60 it is
    refused with [RATE_LIMITED] and the end of its window, and its entry
    stays.  The live entries of the other clients are not touched, and the
    keys stay distinct. *)
Theorem checkRateLimit_window :
  forall (ip : jsstring) (w : World),
    keys_unique w ->
    let run := checkRateLimit ip w in
    keys_unique (snd run) /\ clock (snd run) = clock w
    /\ match live_entry ip w with
       | None =>
           fst run = Return None
           /\ live_entry ip (snd run)
              = Some (1, clock w + RATE_LIMIT_WINDOW)%Z
       | Some (count, resetTime) =>
           if (count >=? RATE_LIMIT_MAX_REQUESTS)%Z then
             fst run
             = Return
                 (Some {| ae_error :=
                            lit "Rate limit exceeded. Maximum 60 requests per minute.";
                          ae_code := RATE_LIMITED;
                          ae_details := RateWindow resetTime 60 60000 |})
             /\ live_entry ip (snd run) = Some (count, resetTime)
           else
             fst run = Return None
             /\ live_entry ip (snd run) = Some (count + 1, resetTime)%Z
       end
    /\ forall ip', ip' <> ip -> live_entry ip' (snd run) = live_entry ip' w.
Proof.
  intros ip w Hu run. subst run.
  destruct (checkRateLimit_step ip w Hu) as (A & B & C & D).
  split; [exact A|]. split; [exact B|]. split; [|exact D].
  destruct (live_entry ip w) as [[c t]|] eqn:El; [|exact C].
  destruct (c >=? RATE_LIMIT_MAX_REQUESTS)%Z eqn:Ec; [|exact C].
  split; [|exact (proj2 C)].
  unfold checkRateLimit, bind, now, get, modify, ret.
  cbn [rateLimitMap set_rateLimitMap clock].
  rewrite (live_entry_filtered ip w Hu), El, (live_entry_live ip w c t El), Ec.
  reflexivity.
Qed.

Lemma checkRateLimit_window_witness :
  keys_unique world_busy
  /\ live_entry (lit "10.0.0.2")
                 (snd (checkRateLimit (lit "10.0.0.2") world_busy))
     = Some (59, 4000)%Z.
Proof.
  assert (H : keys_unique world_busy).
  { repeat constructor; cbn; intuition discriminate. }
  split; [exact H|].
  exact (proj2 (proj1 (proj2 (proj2
           (checkRateLimit_window (lit "10.0.0.2") world_busy H))))).
Defined.


Lemma elapsed_nonneg evs :
  Forall (fun e : Z * jsstring => (0 <= fst e)%Z) evs -> (0 <= elapsed evs)%Z.
Proof.
  induction 1 as [|e r He _ IH]; cbn; [lia|]. unfold elapsed in IH. lia.
Qed.

Lemma request_run e w :
  exists r,
    request e w
    = (Return (snd e, r),
       snd (checkRateLimit (snd e) (set_clock (clock w + fst e)%Z w)))
    /\ fst (checkRateLimit (snd e) (set_clock (clock w + fst e)%Z w))
       = Return r.
Proof.
  destruct (checkRateLimit_run (snd e) (set_clock (clock w + fst e)%Z w))
    as (r & w2 & E & _).
  exists r. unfold request, pass, bind, modify, ret. rewrite E. now split.
Qed.

(** Inside the window of a client the limiter lets through what is left of
    its 60 requests and refuses every later one, whatever the other
    clients send in between. *)
Theorem rate_limit_quota :
  forall (ip : jsstring) (evs : list (Z * jsstring)) (w : World)
         (count resetTime : Z),
    keys_unique w ->
    live_entry ip w = Some (count, resetTime) ->
    Forall (fun e => (0 <= fst e)%Z) evs ->
    (clock w + elapsed evs <= resetTime)%Z ->
    exists rs,
      fst (traffic evs w) = Return rs
      /\ verdicts ip rs
         = repeat false (Nat.min (requests_of ip evs)
                                 (Z.to_nat (RATE_LIMIT_MAX_REQUESTS - count)))
           ++ repeat true (requests_of ip evs
                           - Z.to_nat (RATE_LIMIT_MAX_REQUESTS - count)).
Proof.
  intros ip evs. induction evs as [|[d ip'] evs IH];
    intros w c t Hu Hl Hd Ht.
  - exists []. split; reflexivity.
  - inversion Hd as [|? ? Hd0 Hd1]; subst. cbn [fst] in Hd0.
    pose proof (elapsed_nonneg evs Hd1) as Hn.
    assert (He : elapsed ((d, ip') :: evs) = (d + elapsed evs)%Z)
      by reflexivity.
    rewrite He in Ht.
    set (w1 := set_clock (clock w + d)%Z w).
    assert (Hu1 : keys_unique w1) by exact Hu.
    assert (Hl1 : live_entry ip w1 = Some (c, t)).
    { pose proof (live_entry_live ip w c t Hl) as Hlt.
      revert Hl. unfold live_entry, w1.
      cbn [rateLimitMap clock set_clock].
      destruct (map_get ip (rateLimitMap w)) as [[c' t']|]; [|discriminate].
      destruct (t' <? clock w)%Z eqn:E; [discriminate|].
      intros E'. inversion E'; subst c' t'.
      destruct (Z.ltb_spec t (clock w + d)); [lia|reflexivity]. }
    destruct (request_run (d, ip') w) as (r & Er & Ec). cbn [fst snd] in Er, Ec.
    fold w1 in Er, Ec.
    destruct (checkRateLimit_step ip' w1 Hu1) as (Hu2 & Hc2 & Hown & Hoth).
    set (w2 := snd (checkRateLimit ip' w1)) in *.
    assert (Ht2 : (clock w2 + elapsed evs <= t)%Z).
    { rewrite Hc2. unfold w1. cbn [clock set_clock]. lia. }
    assert (Hcons : forall rs,
               fst (traffic evs w2) = Return rs ->
               fst (traffic ((d, ip') :: evs) w) = Return ((ip', r) :: rs)).
    { intros rs E. unfold traffic in *. cbn [mapM].
      rewrite (bind_run _ _ _ _ _ Er).
      destruct (mapM request evs w2) as [o w3] eqn:E3. cbn [fst] in E.
      subst o. rewrite (bind_run _ _ _ _ _ E3). reflexivity. }
    unfold requests_of, verdicts. cbn [filter snd fst].
    destruct (str_eqb ip' ip) eqn:Eip.
    + apply str_eqb_eq in Eip. subst ip'.
      rewrite Hl1 in Hown.
      destruct (c >=? RATE_LIMIT_MAX_REQUESTS)%Z eqn:Eq.
      * destruct Hown as [(e & Ee & _) Hl2].
        destruct (IH w2 c t Hu2 Hl2 Hd1 Ht2) as (rs & Ers & Ev).
        exists ((ip, r) :: rs). split; [now apply Hcons|].
        cbn [filter fst]. rewrite str_eqb_refl. cbn [List.map snd length].
        fold (verdicts ip rs). rewrite Ev.
        fold (requests_of ip evs).
        assert (r = Some e) by congruence. subst r. cbn [refused].
        unfold RATE_LIMIT_MAX_REQUESTS in *.
        replace (Z.to_nat (60 - c)) with 0 by lia.
        rewrite !Nat.min_0_r, !Nat.sub_0_r. reflexivity.
      * destruct Hown as [Ee Hl2].
        destruct (IH w2 (c + 1)%Z t Hu2 Hl2 Hd1 Ht2) as (rs & Ers & Ev).
        exists ((ip, r) :: rs). split; [now apply Hcons|].
        cbn [filter fst]. rewrite str_eqb_refl. cbn [List.map snd length].
        fold (verdicts ip rs). rewrite Ev.
        fold (requests_of ip evs).
        assert (r = None) by congruence. subst r. cbn [refused].
        unfold RATE_LIMIT_MAX_REQUESTS in *.
        replace (Z.to_nat (60 - c)) with (S (Z.to_nat (60 - (c + 1)))) by lia.
        reflexivity.
    + assert (Hne : ip <> ip').
      { intros ->. rewrite str_eqb_refl in Eip. discriminate. }
      assert (Hl2 : live_entry ip w2 = Some (c, t))
        by (rewrite <- Hl1; exact (Hoth ip Hne)).
      destruct (IH w2 c t Hu2 Hl2 Hd1 Ht2) as (rs & Ers & Ev).
      exists ((ip', r) :: rs). split; [now apply Hcons|].
      cbn [filter fst]. rewrite Eip.
      fold (verdicts ip rs). rewrite Ev. reflexivity.
Qed.

Lemma rate_limit_quota_witness :
  keys_unique world_busy
  /\ live_entry (lit "10.0.0.2") world_busy = Some (58, 4000)%Z
  /\ exists rs,
       fst (traffic [(100%Z, lit "10.0.0.2"); (100%Z, lit "10.0.0.1");
                     (100%Z, lit "10.0.0.2"); (100%Z, lit "10.0.0.2")]
                    world_busy) = Return rs
       /\ verdicts (lit "10.0.0.2") rs = [false; false; true].
Proof.
  assert (H1 : keys_unique world_busy).
  { repeat constructor; cbn; intuition discriminate. }
  assert (H2 : live_entry (lit "10.0.0.2") world_busy = Some (58, 4000)%Z)
    by reflexivity.
  split; [exact H1 | split; [exact H2 |]].
  refine (rate_limit_quota (lit "10.0.0.2") _ world_busy 58 4000 H1 H2 _ _).
  - repeat constructor; cbn; lia.
  - vm_compute. discriminate.
Defined.

(** ** The query handler answers *)

Lemma answers_ret {A} (P : A -> Prop) a : P a -> answers P (ret a).
Proof. intros H w. exact H. Qed.

Lemma answers_throw {A} (P : A -> Prop) e : answers P (@throw A e).
Proof. intros w. exact I. Qed.

Lemma answers_bind {A B} (Q : A -> Prop) (P : B -> Prop) (c : M A) k :
  answers Q c -> (forall a, Q a -> answers P (k a)) -> answers P (bind c k).
Proof.
  intros Hc Hk w. unfold bind. specialize (Hc w).
  destruct (c w) as [[a|e|] w1]; cbn [fst] in *; auto.
  apply Hk, Hc.
Qed.

Lemma answers_any {A} (c : M A) : fueled c -> answers (fun _ => True) c.
Proof.
  intros H w. specialize (H w). destruct (fst (c w)); auto.
Qed.

Lemma answers_then {A B} (P : B -> Prop) (c : M A) k :
  fueled c -> (forall a, answers P (k a)) -> answers P (bind c k).
Proof.
  intros Hc Hk. apply (answers_bind (fun _ => True)); [now apply answers_any|].
  intros a _. apply Hk.
Qed.

Lemma answers_try_finally_end {A} (P : A -> Prop) (c : M A) :
  answers P c -> answers P (try_finally c pg_end).
Proof.
  intros H w. unfold try_finally. specialize (H w).
  destruct (c w) as [[a|e|] w1]; exact H.
Qed.

Lemma answers_caught {A} (P : A -> Prop) (c : M A) h :
  answers P c ->
  (forall e w, exists a, fst (h e w) = Return a /\ P a) ->
  forall w, exists a, fst (try_catch c h w) = Return a /\ P a.
Proof.
  intros Hc Hh w. unfold try_catch. specialize (Hc w).
  destruct (c w) as [[a|e|] w1]; cbn [fst] in *.
  - now exists a.
  - apply Hh.
  - contradiction.
Qed.

Lemma fueled_get {A} (f : World -> A) : fueled (get f).
Proof. intros w. discriminate. Qed.

Lemma fueled_modify f : fueled (modify f).
Proof. intros w. discriminate. Qed.

Lemma fueled_try_catch {A} (c : M A) h :
  fueled c -> (forall e, fueled (h e)) -> fueled (try_catch c h).
Proof.
  intros Hc Hh w. unfold try_catch. specialize (Hc w).
  destruct (c w) as [[a|e|] w1]; cbn [fst] in *; try discriminate.
  - apply Hh.
  - congruence.
Qed.

Lemma fueled_getOpenAIClient env : fueled (getOpenAIClient env).
Proof.
  unfold getOpenAIClient. destruct (has_openai_key env);
    [apply fueled_ret | apply fueled_throw].
Qed.

Lemma fueled_getQueryEmbedding env q : fueled (RagQuery.getQueryEmbedding env q).
Proof.
  apply fueled_bind; [apply fueled_getOpenAIClient|].
  intros _. apply fueled_create.
Qed.

Lemma fueled_vectorSearch env q docId topK :
  fueled (vectorSearch env q docId topK).
Proof.
  apply fueled_bind; [apply fueled_pg_roundtrip|]. intros _.
  destruct (Qis_int topK && (0 <=? Qto_Z topK)%Z);
    [apply fueled_get | apply fueled_throw].
Qed.

Lemma fueled_console_error l : fueled (console_error l).
Proof. apply fueled_modify. Qed.

Lemma fueled_logRetrieval env r q ids l d k :
  fueled (logRetrieval env r q ids l d k).
Proof.
  apply fueled_try_catch.
  - apply fueled_bind; [apply fueled_pg_roundtrip|].
    intros _. apply fueled_modify.
  - intros e. apply fueled_console_error.
Qed.

Lemma fueled_chat_stream env c p : fueled (openai_chat_stream env c p).
Proof.
  intros w. unfold openai_chat_stream.
  destruct (chat_stream env _ c p); discriminate.
Qed.

Lemma fueled_chat_complete env c p : fueled (openai_chat_complete env c p).
Proof.
  intros w. unfold openai_chat_complete.
  destruct (chat_complete env _ c p); discriminate.
Qed.

Lemma fueled_consumeStream deltas failure :
  forall acc, fueled (consumeStream deltas failure acc).
Proof.
  induction deltas as [|d r IH]; intros acc; cbn [consumeStream].
  - destruct failure; [apply fueled_throw | apply fueled_ret].
  - apply IH.
Qed.

Lemma fueled_streamChatCompletion env c p chunks r l :
  fueled (RagQuery.streamChatCompletion env c p chunks r l).
Proof.
  apply fueled_try_catch.
  - apply fueled_bind; [apply fueled_getOpenAIClient|]. intros _.
    apply fueled_bind; [apply fueled_chat_stream|]. intros s.
    apply fueled_bind; [apply fueled_consumeStream|]. intros s'.
    apply fueled_ret.
  - intros e. apply fueled_bind; [apply fueled_console_error|].
    intros _. apply fueled_ret.
Qed.

Lemma answers_query_try env event data requestId startTime :
  answers (fun resp => q_statusCode resp = 200%Z)
          (query_try env event data requestId startTime).
Proof.
  unfold query_try.
  apply answers_then; [apply fueled_getQueryEmbedding|]. intros v.
  apply answers_then; [apply fueled_vectorSearch|]. intros [|c chunks].
  - apply answers_then; [apply fueled_get|]. intros t.
    apply answers_then; [apply fueled_logRetrieval|]. intros _.
    now apply answers_ret.
  - apply answers_then; [apply fueled_get|]. intros t.
    apply answers_then; [apply fueled_logRetrieval|]. intros _.
    destruct (acceptsSSE (accept (headers event))).
    + apply answers_then; [apply fueled_streamChatCompletion|]. intros ev.
      now apply answers_ret.
    + apply answers_then; [apply fueled_getOpenAIClient|]. intros _.
      apply answers_then; [apply fueled_chat_complete|]. intros content.
      now apply answers_ret.
Qed.

Lemma query_catch_answers err w :
  exists resp, fst (query_catch err w) = Return resp
               /\ q_statusCode resp = 500%Z.
Proof.
  unfold query_catch, bind, console_error, modify.
  destruct (includes (lit "database") (message err)
            || includes (lit "connection") (message err));
    [eexists; split; reflexivity|].
  destruct (includes (lit "OpenAI") (message err)
            || includes (lit "API") (message err));
    eexists; split; reflexivity.
Qed.

Lemma fueled_checkRateLimit ip : fueled (checkRateLimit ip).
Proof.
  intros w. destruct (checkRateLimit_run ip w) as (r & w1 & E & _).
  rewrite E. discriminate.
Qed.

Lemma fueled_fresh_uuid env : fueled (fresh_uuid env).
Proof. intros w. discriminate. Qed.

(** The validated query handler always answers: whatever the request and
    whatever the services do, it returns a response, and its status is
    405 exactly when the method is not POST, and otherwise 429, 400, 200
    or 500. *)
Theorem query_handler_always_answers :
  forall (env : Env) (event : QueryEvent) (w : World),
    exists resp,
      fst (RagQuery.handler env event w) = Return resp
      /\ (q_statusCode resp = 405%Z <-> httpMethod event <> lit "POST")
      /\ In (q_statusCode resp) [405; 429; 400; 200; 500]%Z.
Proof.
  intros env event w. unfold RagQuery.handler.
  destruct (str_eqb (httpMethod event) (lit "POST")) eqn:Em; cbn [negb].
  - apply str_eqb_eq in Em.
    assert (H : exists resp,
               fst (try_catch
                      (limited <- checkRateLimit (getClientIP (headers event)) ;;
                       match limited with
                       | Some e =>
                           ret (createErrorResponse 429 (ae_error e)
                                                    (ae_code e) (ae_details e))
                       | None =>
                           match validateRequestBody env (body event)
                                                     QueryInputSchema with
                           | inl e =>
                               ret (createErrorResponse 400 (ae_error e)
                                      (ae_code e) (ae_details e))
                           | inr data =>
                               requestId <- fresh_uuid env ;;
                               startTime <- now ;;
                               pg_connect env ;;
                               try_finally
                                 (query_try env event data requestId startTime)
                                 pg_end
                           end
                       end)%js
                      query_catch w) = Return resp
               /\ In (q_statusCode resp) [429; 400; 200; 500]%Z).
    { apply answers_caught.
      - apply answers_then; [apply fueled_checkRateLimit|].
        intros [e|]; [apply answers_ret; cbn; auto|].
        destruct (validateRequestBody env (body event) QueryInputSchema)
          as [e|data]; [apply answers_ret; cbn; auto|].
        apply answers_then; [apply fueled_fresh_uuid|]. intros rid.
        apply answers_then; [apply fueled_get|]. intros t.
        apply answers_then; [apply fueled_pg_roundtrip|]. intros _.
        apply answers_try_finally_end.
        intros w'. pose proof (answers_query_try env event data rid t w') as H.
        destruct (fst (query_try env event data rid t w')); auto.
        rewrite H. cbn. auto.
      - intros e w'. destruct (query_catch_answers e w') as (r & E & S).
        exists r. split; [exact E|]. rewrite S. cbn. auto. }
    destruct H as (resp & E & S). exists resp. split; [exact E|].
    split.
    + split; [|congruence]. intros H5. rewrite H5 in S.
      cbn in S. intuition discriminate.
    + cbn in *. tauto.
  - eexists. split; [reflexivity|]. split.
    + split; [|reflexivity]. intros _ E. rewrite E in Em.
      rewrite str_eqb_refl in Em. discriminate.
    + cbn. auto.
Qed.

Lemma checkRateLimit_untouched ip w :
  exists r w1, checkRateLimit ip w = (Return r, w1) /\ untouched w w1.
Proof.
  unfold checkRateLimit, bind, now, get, modify, ret, untouched.
  cbn [rateLimitMap set_rateLimitMap].
  destruct (map_get ip _) as [[count resetTime]|].
  - destruct (resetTime <? clock w)%Z; [do 2 eexists; repeat split|].
    destruct (count >=? RATE_LIMIT_MAX_REQUESTS)%Z; do 2 eexists; repeat split.
  - do 2 eexists. repeat split.
Qed.

Lemma query_served_status env event data w :
  exists resp,
    fst (try_catch
           (requestId <- fresh_uuid env ;;
            startTime <- now ;;
            pg_connect env ;;
            try_finally (query_try env event data requestId startTime)
                        pg_end)%js
           query_catch w) = Return resp
    /\ (q_statusCode resp = 200 \/ q_statusCode resp = 500)%Z.
Proof.
  apply answers_caught.
  - apply answers_then; [apply fueled_fresh_uuid|]. intros rid.
    apply answers_then; [apply fueled_get|]. intros t.
    apply answers_then; [apply fueled_pg_roundtrip|]. intros _.
    apply answers_try_finally_end.
    intros w'. pose proof (answers_query_try env event data rid t w') as H.
    destruct (fst (query_try env event data rid t w')); auto.
  - intros e w'. destruct (query_catch_answers e w') as (r & E & S).
    exists r. auto.
Qed.

(** A request that the validated query handler refuses (wrong method,
    rate limit, invalid body: any answer that is neither 200 nor 500) has
    cost nothing: no embedding request, no round trip to the store, no
    chat request, no identifier drawn, nothing logged, and the documents
    and embeddings are as they were. *)
Theorem query_handler_refusal_calls_nothing :
  forall (env : Env) (event : QueryEvent) (w : World) (resp : QueryResponse),
    fst (RagQuery.handler env event w) = Return resp ->
    q_statusCode resp <> 200%Z -> q_statusCode resp <> 500%Z ->
    untouched w (snd (RagQuery.handler env event w)).
Proof.
  intros env event w resp. unfold RagQuery.handler.
  destruct (negb (str_eqb (httpMethod event) (lit "POST"))).
  { intros _ _ _. cbn. unfold untouched. repeat split. }
  destruct (checkRateLimit_untouched (getClientIP (headers event)) w)
    as (r & w1 & E & U).
  assert (Hrun : forall (k : option ApiError -> M QueryResponse) h,
             try_catch (bind (checkRateLimit (getClientIP (headers event))) k)
                       h w
             = try_catch (k r) h w1).
  { intros k h. unfold try_catch, bind. now rewrite E. }
  rewrite Hrun.
  destruct r as [e|]; [intros _ _ _; exact U|].
  destruct (validateRequestBody env (body event) QueryInputSchema)
    as [e|data]; [intros _ _ _; exact U|].
  destruct (query_served_status env event data w1) as (resp' & E' & S).
  rewrite E'. intros H. injection H as <-. intros; exfalso; tauto.
Qed.

Lemma query_handler_refusal_calls_nothing_witness :
  fst (RagQuery.handler env0 (post_event "not json") world0)
  = Return (createErrorResponse 400 (lit "Invalid JSON in request body")
                                VALIDATION_ERROR
                                (ParseMessage (lit "Unexpected token")))
  /\ untouched world0
               (snd (RagQuery.handler env0 (post_event "not json") world0)).
Proof.
  assert (H : fst (RagQuery.handler env0 (post_event "not json") world0)
              = Return (createErrorResponse 400
                          (lit "Invalid JSON in request body")
                          VALIDATION_ERROR
                          (ParseMessage (lit "Unexpected token"))))
    by reflexivity.
  split; [exact H|].
  apply (query_handler_refusal_calls_nothing env0 _ world0 _ H);
    cbn; discriminate.
Defined.

(** ** Queries only read *)

Lemma logged_refl w : logged 0 w w.
Proof.
  repeat split. exists []. rewrite app_nil_r. split; [reflexivity|cbn; lia].
Qed.

Lemma logged_trans n m a b c :
  logged n a b -> logged m b c -> logged (n + m) a c.
Proof.
  intros (D1 & E1 & l1 & L1 & N1) (D2 & E2 & l2 & L2 & N2).
  split; [congruence|]. split; [congruence|].
  exists (l1 ++ l2). rewrite L2, L1, app_assoc, length_app.
  split; [reflexivity|lia].
Qed.

Lemma logged_0_trans a b c : logged 0 a b -> logged 0 b c -> logged 0 a c.
Proof. apply (logged_trans 0 0). Qed.

Lemma keeps_logged_bind n m {A B} (c : M A) (k : A -> M B) :
  keeps (logged n) c -> (forall a, keeps (logged m) (k a)) ->
  keeps (logged (n + m)) (bind c k).
Proof.
  intros Hc Hk w. unfold bind. specialize (Hc w).
  destruct (c w) as [[a|e|] w1]; cbn [snd] in *.
  - eapply logged_trans; [exact Hc | apply Hk].
  - replace (n + m)%nat with (n + m + 0)%nat by lia.
    eapply logged_trans; [|apply logged_refl].
    replace (n + m)%nat with (0 + (n + m))%nat by lia.
    destruct Hc as (D & E & l & L & N). repeat split; auto.
    exists l. split; [exact L|lia].
  - destruct Hc as (D & E & l & L & N). repeat split; auto.
    exists l. split; [exact L|lia].
Qed.

Lemma keeps_logged_try_catch n m {A} (c : M A) h :
  keeps (logged n) c -> (forall e, keeps (logged m) (h e)) ->
  keeps (logged (n + m)) (try_catch c h).
Proof.
  intros Hc Hh w. unfold try_catch. specialize (Hc w).
  destruct (c w) as [[a|e|] w1]; cbn [snd] in *.
  - destruct Hc as (D & E & l & L & N). repeat split; auto.
    exists l. split; [exact L|lia].
  - eapply logged_trans; [exact Hc | apply Hh].
  - destruct Hc as (D & E & l & L & N). repeat split; auto.
    exists l. split; [exact L|lia].
Qed.

Lemma keeps_logged_pure {A} (c : M A) :
  (forall w, documents (snd (c w)) = documents w
             /\ embeddings (snd (c w)) = embeddings w
             /\ retrieval_logs (snd (c w)) = retrieval_logs w) ->
  keeps (logged 0) c.
Proof.
  intros H w. destruct (H w) as (D & E & L). repeat split; auto.
  exists []. rewrite app_nil_r. split; [exact L|cbn; lia].
Qed.

Lemma keeps_logged_ret n {A} (a : A) : keeps (logged n) (ret a).
Proof.
  intros w. repeat split. exists []. rewrite app_nil_r.
  split; [reflexivity|cbn; lia].
Qed.

Lemma keeps_logged_roundtrip env : keeps (logged 0) (pg_roundtrip env).
Proof.
  apply keeps_logged_pure. intros w. unfold pg_roundtrip.
  destruct (pg_fault env (pg_trips w)); repeat split.
Qed.

Lemma keeps_logged_console l : keeps (logged 0) (console_error l).
Proof. apply keeps_logged_pure. intros w. repeat split. Qed.

Lemma keeps_logged_create env text :
  keeps (logged 0) (openai_embeddings_create env text).
Proof.
  apply keeps_logged_pure. intros w. unfold openai_embeddings_create.
  destruct (embeddings_create env _ text); repeat split.
Qed.

Lemma keeps_logged_client env : keeps (logged 0) (getOpenAIClient env).
Proof.
  apply keeps_logged_pure. intros w. unfold getOpenAIClient.
  destruct (has_openai_key env); repeat split.
Qed.

Lemma keeps_logged_vectorSearch env q docId topK :
  keeps (logged 0) (vectorSearch env q docId topK).
Proof.
  apply keeps_logged_pure. intros w.
  unfold vectorSearch, bind, pg_roundtrip, get, throw.
  destruct (pg_fault env (pg_trips w)); [repeat split|].
  destruct (Qis_int topK && (0 <=? Qto_Z topK)%Z); repeat split.
Qed.

Lemma keeps_logged_chat_complete env c p :
  keeps (logged 0) (openai_chat_complete env c p).
Proof.
  apply keeps_logged_pure. intros w. unfold openai_chat_complete.
  destruct (chat_complete env _ c p); repeat split.
Qed.

Lemma keeps_logged_stream env c p chunks r l :
  keeps (logged 0) (RagQuery.streamChatCompletion env c p chunks r l).
Proof.
  apply keeps_logged_pure. intros w.
  unfold RagQuery.streamChatCompletion, try_catch, bind, getOpenAIClient,
    openai_chat_stream, streamCatch, console_error, modify, ret, throw.
  destruct (has_openai_key env); [|repeat split].
  destruct (chat_stream env _ c p) as [e|[deltas failure]]; [repeat split|].
  rewrite consumeStream_run. destruct failure; repeat split.
Qed.

Lemma keeps_logged_stream_legacy env c p chunks :
  keeps (logged 0) (ApiRagQuery.streamChatCompletion env c p chunks).
Proof.
  apply keeps_logged_pure. intros w.
  unfold ApiRagQuery.streamChatCompletion, try_catch, bind,
    openai_chat_stream, streamCatch, console_error, modify, ret.
  destruct (chat_stream env _ c p) as [e|[deltas failure]]; [repeat split|].
  rewrite consumeStream_run. destruct failure; repeat split.
Qed.

Lemma keeps_logged_logRetrieval env r q ids l d k :
  keeps (logged 1) (logRetrieval env r q ids l d k).
Proof.
  intros w. unfold logRetrieval, try_catch, bind, pg_roundtrip, console_error,
              modify.
  destruct (pg_fault env (pg_trips w)); cbn.
  - repeat split. exists []. rewrite app_nil_r. split; [reflexivity|cbn; lia].
  - repeat split. eexists. split; [reflexivity|cbn; lia].
Qed.

Lemma keeps_logged_checkRateLimit ip : keeps (logged 0) (checkRateLimit ip).
Proof.
  apply keeps_logged_pure. intros w.
  destruct (checkRateLimit_untouched ip w) as (r & w1 & E & U).
  rewrite E. cbn [snd]. unfold untouched in U. tauto.
Qed.

Lemma keeps_logged_query_try env event data requestId startTime :
  keeps (logged 1) (query_try env event data requestId startTime).
Proof.
  unfold query_try, RagQuery.getQueryEmbedding.
  apply (keeps_logged_bind 0 1).
  { apply (keeps_logged_bind 0 0); [apply keeps_logged_client|].
    intros _. apply keeps_logged_create. }
  intros v. apply (keeps_logged_bind 0 1); [apply keeps_logged_vectorSearch|].
  intros [|c chunks].
  - apply (keeps_logged_bind 0 1); [apply keeps_get, logged_refl|]. intros t.
    apply (keeps_logged_bind 1 0); [apply keeps_logged_logRetrieval|].
    intros _. apply keeps_ret, logged_refl.
  - apply (keeps_logged_bind 0 1); [apply keeps_get, logged_refl|]. intros t.
    apply (keeps_logged_bind 1 0); [apply keeps_logged_logRetrieval|].
    intros _. destruct (acceptsSSE (accept (headers event))).
    + apply (keeps_logged_bind 0 0); [apply keeps_logged_stream|].
      intros ev. apply keeps_ret, logged_refl.
    + apply (keeps_logged_bind 0 0); [apply keeps_logged_client|]. intros _.
      apply (keeps_logged_bind 0 0); [apply keeps_logged_chat_complete|].
      intros content. apply keeps_ret, logged_refl.
Qed.

Lemma keeps_logged_legacy_try env event prompt_ docId topK :
  keeps (logged 0) (ApiRagQuery.handler_try env event prompt_ docId topK).
Proof.
  unfold ApiRagQuery.handler_try, ApiRagQuery.getQueryEmbedding.
  apply (keeps_logged_bind 0 0); [apply keeps_logged_create|].
  intros v. apply (keeps_logged_bind 0 0); [apply keeps_logged_vectorSearch|].
  intros [|c chunks]; [apply keeps_ret, logged_refl|].
  destruct (acceptsSSE (lq_accept event)).
  - apply (keeps_logged_bind 0 0); [apply keeps_logged_stream_legacy|].
    intros ev. apply keeps_ret, logged_refl.
  - apply (keeps_logged_bind 0 0); [apply keeps_logged_chat_complete|].
    intros content. apply keeps_ret, logged_refl.
Qed.

(** Queries only read the corpus.  Whatever the request and whatever the
    services do, both query handlers leave the documents and the
    embeddings as they were; the validated handler keeps the entries of
    the retrieval log and adds at most one, the earlier handler writes no
    entry. *)
Theorem query_handlers_only_read :
  forall (env : Env) (event : QueryEvent) (legacy : LegacyQueryEvent)
         (w : World),
    logged 1 w (snd (RagQuery.handler env event w))
    /\ logged 0 w (snd (ApiRagQuery.handler env legacy w)).
Proof.
  intros env event legacy w. split.
  - unfold RagQuery.handler.
    destruct (negb (str_eqb (httpMethod event) (lit "POST")));
      [apply keeps_logged_ret|].
    apply (keeps_logged_try_catch 1 0).
    + apply (keeps_logged_bind 0 1); [apply keeps_logged_checkRateLimit|].
      intros [e|];
        [apply keeps_logged_ret|].
      destruct (validateRequestBody env (body event) QueryInputSchema)
        as [e|data];
        [apply keeps_logged_ret|].
      apply (keeps_logged_bind 0 1).
      { apply keeps_logged_pure. intros w'. repeat split. }
      intros rid. apply (keeps_logged_bind 0 1); [apply keeps_get, logged_refl|].
      intros t. apply (keeps_logged_bind 0 1); [apply keeps_logged_roundtrip|].
      intros _. apply keeps_try_finally_end, keeps_logged_query_try.
    + intros e. unfold query_catch.
      apply (keeps_logged_bind 0 0); [apply keeps_logged_console|].
      intros _.
      destruct (includes (lit "database") (message e)
                || includes (lit "connection") (message e));
        [apply keeps_ret, logged_refl|].
      destruct (includes (lit "OpenAI") (message e)
                || includes (lit "API") (message e));
        apply keeps_ret, logged_refl.
  - unfold ApiRagQuery.handler.
    destruct (negb (str_eqb (lq_httpMethod legacy) (lit "POST")));
      [apply keeps_ret, logged_refl|].
    apply (keeps_logged_try_catch 0 0).
    + destruct (lq_body legacy) as [input|]; [|apply keeps_throw, logged_refl].
      destruct (negb (truthyO (option_map trim (lq_prompt input))));
        [apply keeps_ret, logged_refl|].
      apply (keeps_logged_bind 0 0); [apply keeps_logged_roundtrip|].
      intros _. apply keeps_try_finally_end, keeps_logged_legacy_try.
    + intros e. apply (keeps_logged_bind 0 0); [apply keeps_logged_console|].
      intros _. apply keeps_ret, logged_refl.
Qed.

(** ** The retrieval log *)

(** [logRetrieval] never fails: it always returns after one round trip to
    the store.  If the store takes the statement, the entry is appended to
    the log; if it refuses, the log is as it was and the failure is on the
    console. *)
Theorem logRetrieval_never_fails :
  forall (env : Env) (requestId queryText : jsstring) (chunkIds : list Z)
         (latencyMs : Z) (docId : option jsstring) (topK : Q) (w : World),
    let run := logRetrieval env requestId queryText chunkIds latencyMs
                            docId topK w in
    fst run = Return tt
    /\ pg_trips (snd run) = S (pg_trips w)
    /\ match pg_fault env (pg_trips w) with
       | None =>
           retrieval_logs (snd run)
           = retrieval_logs w
               ++ [ {| rl_request_id := requestId; rl_query_text := queryText;
                       rl_chunk_ids := chunkIds; rl_latency_ms := latencyMs;
                       rl_doc_id := docId; rl_top_k := topK |} ]
           /\ console (snd run) = console w
       | Some e =>
           retrieval_logs (snd run) = retrieval_logs w
           /\ console (snd run) = console w ++ [FailedToLogRetrieval e]
       end.
Proof.
  intros env r q ids l d k w.
  unfold logRetrieval, try_catch, bind, pg_roundtrip, console_error, modify.
  destruct (pg_fault env (pg_trips w)); cbn; repeat split.
Qed.

(** ** Answers without chunks *)

Lemma same_chats_refl w : same_chats w w.
Proof. reflexivity. Qed.

Lemma same_chats_trans a b c :
  same_chats a b -> same_chats b c -> same_chats a c.
Proof. unfold same_chats. congruence. Qed.

Lemma silent_bind {A} (c : M A) k :
  keeps same_chats c -> (forall a, silent_when_empty (k a)) ->
  silent_when_empty (bind c k).
Proof.
  intros Hc Hk w resp. unfold bind. specialize (Hc w).
  destruct (c w) as [[a|e|] w1]; cbn [snd] in *; try discriminate.
  intros E N. destruct (Hk a w1 resp E N) as [Ha Hs].
  split; [exact Ha|]. eapply same_chats_trans; eassumption.
Qed.

Lemma silent_with_chunks c : with_chunks c -> silent_when_empty c.
Proof. intros H w resp E N. rewrite (H w resp E) in N. discriminate. Qed.

Lemma with_chunks_bind {A} (c : M A) k :
  (forall a, with_chunks (k a)) -> with_chunks (bind c k).
Proof.
  intros Hk w resp. unfold bind.
  destruct (c w) as [[a|e|] w1]; try discriminate. apply Hk.
Qed.

Lemma with_chunks_ret resp : no_chunks resp = false -> with_chunks (ret resp).
Proof. intros H w r E. injection E as <-. exact H. Qed.

Lemma silent_try_finally_end c :
  silent_when_empty c -> silent_when_empty (try_finally c pg_end).
Proof.
  intros H w resp. unfold try_finally. specialize (H w).
  destruct (c w) as [[a|e|] w1]; try discriminate. apply H.
Qed.

Lemma silent_try_catch c h :
  silent_when_empty c -> (forall e, with_chunks (h e)) ->
  silent_when_empty (try_catch c h).
Proof.
  intros Hc Hh w resp. unfold try_catch. specialize (Hc w).
  destruct (c w) as [[a|e|] w1]; try discriminate.
  - apply Hc.
  - intros E N. rewrite (Hh e w1 resp E) in N. discriminate.
Qed.

Lemma keeps_same_chats_roundtrip env : keeps same_chats (pg_roundtrip env).
Proof.
  intros w. unfold pg_roundtrip. destruct (pg_fault env (pg_trips w)); reflexivity.
Qed.

Lemma keeps_same_chats_embedding env q :
  keeps same_chats (RagQuery.getQueryEmbedding env q).
Proof.
  intros w. unfold RagQuery.getQueryEmbedding, bind, getOpenAIClient,
              openai_embeddings_create.
  destruct (has_openai_key env); [|reflexivity]. cbn.
  destruct (embeddings_create env _ q); reflexivity.
Qed.

Lemma keeps_same_chats_vectorSearch env q docId topK :
  keeps same_chats (vectorSearch env q docId topK).
Proof.
  intros w. unfold vectorSearch, bind, pg_roundtrip, get, throw.
  destruct (pg_fault env (pg_trips w)); [reflexivity|].
  destruct (Qis_int topK && (0 <=? Qto_Z topK)%Z); reflexivity.
Qed.

Lemma keeps_same_chats_logRetrieval env r q ids l d k :
  keeps same_chats (logRetrieval env r q ids l d k).
Proof.
  intros w. unfold logRetrieval, try_catch, bind, pg_roundtrip, console_error,
              modify.
  destruct (pg_fault env (pg_trips w)); reflexivity.
Qed.

Lemma keeps_same_chats_checkRateLimit ip : keeps same_chats (checkRateLimit ip).
Proof.
  intros w. destruct (checkRateLimit_untouched ip w) as (r & w1 & E & U).
  rewrite E. unfold untouched in U. cbn [snd]. unfold same_chats. tauto.
Qed.

Lemma silent_query_try env event data requestId startTime :
  silent_when_empty (query_try env event data requestId startTime).
Proof.
  unfold query_try.
  apply silent_bind; [apply keeps_same_chats_embedding|]. intros v.
  apply silent_bind; [apply keeps_same_chats_vectorSearch|].
  intros [|c chunks].
  - apply silent_bind; [intros w; reflexivity|]. intros t.
    apply silent_bind; [apply keeps_same_chats_logRetrieval|]. intros _.
    intros w resp E _. injection E as <-. split; reflexivity.
  - apply silent_with_chunks.
    apply with_chunks_bind. intros t. apply with_chunks_bind. intros _.
    destruct (acceptsSSE (accept (headers event))).
    + apply with_chunks_bind. intros ev. now apply with_chunks_ret.
    + apply with_chunks_bind. intros _. apply with_chunks_bind.
      intros content. now apply with_chunks_ret.
Qed.

(** An answer of the validated query handler that carries no chunks is
    the fixed sentence that nothing relevant was found, and no chat
    completion was requested for it. *)
Theorem answer_without_chunks_is_fixed :
  forall (env : Env) (event : QueryEvent) (w : World) (resp : QueryResponse),
    fst (RagQuery.handler env event w) = Return resp ->
    no_chunks resp = true ->
    answer_of resp
    = Some (lit "No relevant information found in the knowledge base.")
    /\ chat_requests (snd (RagQuery.handler env event w)) = chat_requests w.
Proof.
  intros env event.
  assert (H : silent_when_empty (RagQuery.handler env event));
    [|exact H].
  unfold RagQuery.handler.
  destruct (negb (str_eqb (httpMethod event) (lit "POST")));
    [apply silent_with_chunks; now apply with_chunks_ret|].
  apply silent_try_catch.
  - apply silent_bind; [apply keeps_same_chats_checkRateLimit|].
    intros [e|]; [apply silent_with_chunks; now apply with_chunks_ret|].
    destruct (validateRequestBody env (body event) QueryInputSchema)
      as [e|data]; [apply silent_with_chunks; now apply with_chunks_ret|].
    apply silent_bind; [intros w; reflexivity|]. intros rid.
    apply silent_bind; [intros w; reflexivity|]. intros t.
    apply silent_bind; [apply keeps_same_chats_roundtrip|]. intros _.
    apply silent_try_finally_end, silent_query_try.
  - intros e. unfold query_catch. apply with_chunks_bind. intros _.
    destruct (includes (lit "database") (message e)
              || includes (lit "connection") (message e));
      [now apply with_chunks_ret|].
    destruct (includes (lit "OpenAI") (message e)
              || includes (lit "API") (message e));
      now apply with_chunks_ret.
Qed.

Lemma answer_without_chunks_is_fixed_witness :
  fst (RagQuery.handler (env_json query_what) (post_event "{}") world0)
  = Return {| q_statusCode := 200;
              q_body := AnswerBody (Some (lit "uuid")) []
                          (lit "No relevant information found in the knowledge base.")
                          (Some 0%Z) |}
  /\ chat_requests
       (snd (RagQuery.handler (env_json query_what) (post_event "{}") world0))
     = chat_requests world0.
Proof.
  assert (H : fst (RagQuery.handler (env_json query_what) (post_event "{}")
                                    world0)
              = Return {| q_statusCode := 200;
                          q_body := AnswerBody (Some (lit "uuid")) []
                                      (lit "No relevant information found in the knowledge base.")
                                      (Some 0%Z) |})
    by (vm_compute; reflexivity).
  split; [exact H|].
  exact (proj2 (answer_without_chunks_is_fixed
                  (env_json query_what) (post_event "{}") world0 _ H
                  eq_refl)).
Defined.

(** ** Validated input *)

Lemma check_prompt_sound v s :
  check_prompt v = inr s ->
  v = Some (JStr s) /\ (1 <= length s <= 2000)%nat.
Proof.
  unfold check_prompt. destruct v as [[| | |s'| |]|]; try discriminate.
  destruct (Nat.ltb_spec (length s') 1); [discriminate|].
  destruct (Z.ltb_spec 2000 (Z.of_nat (length s'))); [discriminate|].
  intros E. injection E as <-. split; [reflexivity|lia].
Qed.

Lemma check_top_k_sound v k :
  check_top_k v = inr k ->
  (1 <= k <= 20)%Z
  /\ match v with
     | None => k = 5%Z
     | Some (JNum q) => (q == inject_Z k)%Q
     | Some _ => False
     end.
Proof.
  unfold check_top_k. destruct v as [[| |q| | |]|]; try discriminate.
  - destruct (Qis_int q) eqn:Ei; [|discriminate].
    destruct (Qle_bool 1 q) eqn:E1; [|discriminate].
    destruct (Qle_bool q 20) eqn:E2; [|discriminate].
    cbn [app]. intros E. injection E as <-.
    apply Qle_bool_iff in E1, E2. unfold Qle in E1, E2. cbn in E1, E2.
    unfold Qis_int in Ei. apply Z.eqb_eq in Ei.
    unfold Qto_Z. destruct q as [n d]. cbn [Qnum Qden] in *.
    assert (Hn : n = (Z.pos d * (n / Z.pos d))%Z).
    { rewrite (Z.div_mod n (Z.pos d)) at 1 by lia. lia. }
    split.
    + split.
      * apply Z.div_le_lower_bound; lia.
      * apply Z.div_le_upper_bound; lia.
    + unfold Qeq, inject_Z. cbn [Qnum Qden]. lia.
  - intros E. injection E as <-. split; [lia|reflexivity].
Qed.

(** What the validated handler may rely on: a body that
    [validateRequestBody] accepts against [QueryInputSchema] is not empty
    and parses to an object whose [prompt] is the accepted string, of 1 to
    2000 code units; the accepted [top_k] is a whole number from 1 to 20,
    the number in the body or 5 when the body has none; the accepted
    [doc_id] is the string in the body, if any. *)
Theorem validated_query_is_in_bounds :
  forall (env : Env) (body : option jsstring) (data : QueryInput),
    validateRequestBody env body QueryInputSchema = inr data ->
    truthyO body = true
    /\ exists fields,
         JSON_parse env (showO body) = inr (JObj fields)
         /\ field "prompt" fields = Some (JStr (prompt data))
         /\ (1 <= length (prompt data) <= 2000)%nat
         /\ (1 <= top_k data <= 20)%Z
         /\ match field "top_k" fields with
            | None => top_k data = 5%Z
            | Some (JNum q) => (q == inject_Z (top_k data))%Q
            | Some _ => False
            end
         /\ match field "doc_id" fields with
            | None => qi_doc_id data = None
            | Some v => exists s, v = JStr s /\ qi_doc_id data = Some s
            end.
Proof.
  intros env body data. unfold validateRequestBody.
  destruct (truthyO body); cbn [negb]; [|discriminate].
  destruct (JSON_parse env (showO body)) as [e|parsed]; [discriminate|].
  destruct (QueryInputSchema parsed) as [i|d] eqn:Es; [discriminate|].
  intros E. injection E as ->. split; [reflexivity|].
  unfold QueryInputSchema in Es.
  destruct parsed as [| | | | |fields]; try discriminate.
  exists fields. cbv zeta in Es.
  destruct (check_prompt (field "prompt" fields)) as [ip|p] eqn:Ep;
    [discriminate|].
  destruct (check_doc_id (field "doc_id" fields)) as [id|d] eqn:Ed;
    [discriminate|].
  destruct (check_top_k (field "top_k" fields)) as [ik|k] eqn:Ek;
    [discriminate|].
  injection Es as <-. cbn [prompt top_k qi_doc_id].
  apply check_prompt_sound in Ep as [Ep Hp].
  apply check_top_k_sound in Ek as [Hk Ek].
  split; [reflexivity|]. split; [exact Ep|]. split; [exact Hp|].
  split; [exact Hk|]. split; [exact Ek|].
  unfold check_doc_id in Ed.
  destruct (field "doc_id" fields) as [[| | |s| |]|]; try discriminate;
    injection Ed as <-; [|reflexivity].
  exists s. split; reflexivity.
Qed.

Lemma validated_query_is_in_bounds_witness :
  validateRequestBody (env_json query_what) (Some (lit "{}")) QueryInputSchema
  = inr {| prompt := lit "what"; qi_doc_id := None; top_k := 5 |}
  /\ truthyO (Some (lit "{}")) = true.
Proof.
  assert (H : validateRequestBody (env_json query_what) (Some (lit "{}"))
                                  QueryInputSchema
              = inr {| prompt := lit "what"; qi_doc_id := None; top_k := 5 |})
    by reflexivity.
  split; [exact H|].
  exact (proj1 (validated_query_is_in_bounds _ _ _ H)).
Defined.

(** ** The context given to the model *)

Lemma packChunks_nth chunks :
  forall index k c,
    nth_error chunks k = Some c ->
    exists pre post,
      packChunks index chunks
      = pre ++ (lit "[" ++ showZ (index + Z.of_nat k + 1) ++ lit "] "
                    ++ cr_content c ++ [LF; LF]) ++ post.
Proof.
  induction chunks as [|x r IH]; intros index k c H.
  - destruct k; discriminate.
  - destruct k as [|k]; cbn [nth_error] in H.
    + injection H as ->. exists [], (packChunks (index + 1) r).
      cbn [packChunks app]. rewrite Z.add_0_r.
      rewrite <- !app_assoc. reflexivity.
    + destruct (IH (index + 1)%Z k c H) as (pre & post & E).
      exists (lit "[" ++ showZ (index + 1) ++ lit "] " ++ cr_content x
                  ++ [LF; LF] ++ pre), post.
      cbn [packChunks]. rewrite E.
      replace (index + 1 + Z.of_nat k + 1)%Z
        with (index + Z.of_nat (S k) + 1)%Z by lia.
      rewrite <- !app_assoc. reflexivity.
Qed.

Lemma packChunks_framed chunks k c (h1 h2 tail : jsstring) :
  nth_error chunks k = Some c ->
  exists pre post,
    h1 ++ h2 ++ packChunks 0 chunks ++ tail
    = pre ++ (lit "[" ++ showZ (Z.of_nat k + 1) ++ lit "] "
                  ++ cr_content c ++ [LF; LF]) ++ post.
Proof.
  intros H. destruct (packChunks_nth chunks 0 k c H) as (pre & post & E).
  exists (h1 ++ h2 ++ pre), (post ++ tail).
  rewrite E. cbn [Z.add]. rewrite <- !app_assoc. reflexivity.
Qed.

(** The context that [packContextWithCitations] builds holds every chunk
    in full, each under its position in the ranking counted from one: the
    chunk at index [k] appears as the block [[k+1] content] followed by a
    blank line. *)
Theorem every_chunk_is_cited :
  forall (chunks : list ChunkResult) (k : nat) (c : ChunkResult),
    nth_error chunks k = Some c ->
    exists pre post,
      packContextWithCitations chunks
      = pre ++ (lit "[" ++ showZ (Z.of_nat k + 1) ++ lit "] "
                    ++ cr_content c ++ [LF; LF]) ++ post.
Proof.
  intros chunks k c H. unfold packContextWithCitations.
  now apply packChunks_framed.
Qed.

Lemma every_chunk_is_cited_witness :
  exists pre post,
    packContextWithCitations
      [toChunkResult env0 [] (row_of 1 1 "alpha", document0);
       toChunkResult env0 [] (row_of 2 2 "beta", document_b)]
    = pre ++ lit "[2] beta" ++ [LF; LF] ++ post.
Proof.
  exact (every_chunk_is_cited
           [toChunkResult env0 [] (row_of 1 1 "alpha", document0);
            toChunkResult env0 [] (row_of 2 2 "beta", document_b)]
           1 _ eq_refl).
Defined.

(** ** The client address *)

(** [getClientIP] never gives the empty string, so the rate limiter always
    has a key: the address is the first non-empty one of the first entry
    of [x-forwarded-for] (trimmed), [x-real-ip] and [cf-connecting-ip],
    and the word [unknown] when there is none. *)
Theorem getClientIP_never_empty :
  forall h : Headers,
    let forwarded := option_map (fun s => trim (beforeFirst 44 s))
                                (x_forwarded_for h) in
    getClientIP h <> []
    /\ (if truthyO forwarded then Some (getClientIP h) = forwarded
        else if truthyO (x_real_ip h) then Some (getClientIP h) = x_real_ip h
        else if truthyO (cf_connecting_ip h)
             then Some (getClientIP h) = cf_connecting_ip h
             else getClientIP h = lit "unknown").
Proof.
  intros h forwarded. unfold getClientIP. fold forwarded. unfold orO.
  destruct forwarded as [[|c s]|]; cbn [truthyO truthy];
    try (split; [discriminate|reflexivity]);
    destruct (x_real_ip h) as [[|c1 s1]|]; cbn [truthyO truthy];
      try (split; [discriminate|reflexivity]);
      destruct (cf_connecting_ip h) as [[|c2 s2]|]; cbn [truthyO truthy];
        split; try discriminate; reflexivity.
Qed.

(** ** Retries for any number of attempts *)

Lemma pow2_step a : (1 <= a)%Z -> (2 ^ a = 2 * 2 ^ (a - 1))%Z.
Proof.
  intros H. replace a with (Z.succ (a - 1)) at 1 by lia.
  rewrite Z.pow_succ_r by lia. reflexivity.
Qed.

Example timer_delay_values :
  List.map timer_delay [0; 1; 1000; 2147483647; 2147483648; 4194304000]%Z
  = [1; 1; 1000; 2147483647; 1; 1]%Z.
Proof. vm_compute. reflexivity. Qed.

Lemma timer_delay_small a :
  (1 <= a <= 22)%Z ->
  timer_delay (2 ^ (a - 1) * 1000) = (2 ^ (a - 1) * 1000)%Z.
Proof.
  intros H. unfold timer_delay, TIMEOUT_MAX.
  assert (H1 : (2 ^ 0 <= 2 ^ (a - 1))%Z) by (apply Z.pow_le_mono_r; lia).
  assert (H2 : (2 ^ (a - 1) <= 2 ^ 21)%Z) by (apply Z.pow_le_mono_r; lia).
  change (2 ^ 0)%Z with 1%Z in H1. change (2 ^ 21)%Z with 2097152%Z in H2.
  replace (1 <=? 2 ^ (a - 1) * 1000)%Z with true
    by (symmetry; apply Z.leb_le; lia).
  replace (2 ^ (a - 1) * 1000 <=? 2147483647)%Z with true
    by (symmetry; apply Z.leb_le; lia).
  reflexivity.
Qed.

Lemma timer_delay_large a :
  (23 <= a)%Z -> timer_delay (2 ^ (a - 1) * 1000) = 1%Z.
Proof.
  intros H. unfold timer_delay, TIMEOUT_MAX.
  assert (H2 : (2 ^ 22 <= 2 ^ (a - 1))%Z) by (apply Z.pow_le_mono_r; lia).
  change (2 ^ 22)%Z with 4194304%Z in H2.
  replace (2 ^ (a - 1) * 1000 <=? 2147483647)%Z with false
    by (symmetry; apply Z.leb_gt; lia).
  rewrite andb_false_r. reflexivity.
Qed.

Lemma pauses_small :
  forall n a,
    (1 <= a)%Z -> (a + Z.of_nat n <= 23)%Z ->
    pauses a n = (2 ^ (a - 1) * (2 ^ Z.of_nat n - 1) * 1000)%Z.
Proof.
  induction n as [|n IH]; intros a Ha Hn.
  - cbn [pauses]. change (2 ^ Z.of_nat 0)%Z with 1%Z. ring.
  - cbn [pauses]. rewrite timer_delay_small by lia.
    rewrite IH by lia.
    replace (a + 1 - 1)%Z with a by lia.
    rewrite (pow2_step a Ha).
    rewrite Nat2Z.inj_succ, Z.pow_succ_r by lia. ring.
Qed.

Lemma pauses_large :
  forall n a, (23 <= a)%Z -> pauses a n = Z.of_nat n.
Proof.
  induction n as [|n IH]; intros a Ha.
  - reflexivity.
  - cbn [pauses]. rewrite timer_delay_large by lia. rewrite IH by lia. lia.
Qed.

Lemma pauses_app :
  forall n a m,
    pauses a (n + m) = (pauses a n + pauses (a + Z.of_nat n) m)%Z.
Proof.
  induction n as [|n IH]; intros a m.
  - cbn [pauses Nat.add]. replace (a + Z.of_nat 0)%Z with a by lia. lia.
  - cbn [pauses Nat.add]. rewrite IH.
    replace (a + 1 + Z.of_nat n)%Z with (a + Z.of_nat (S n))%Z by lia. lia.
Qed.

Lemma pauses_backoff n : pauses 1 n = backoff n.
Proof.
  unfold backoff. destruct (Nat.leb_spec n 22) as [H|H].
  - rewrite pauses_small by lia. change (2 ^ (1 - 1))%Z with 1%Z. ring.
  - replace n with (22 + (n - 22))%nat at 1 by lia.
    rewrite pauses_app, (pauses_small 22 1) by lia.
    rewrite pauses_large by lia.
    change (2 ^ (1 - 1))%Z with 1%Z. change (Z.of_nat 22) with 22%Z. lia.
Qed.

Lemma embedAttempts_retry env text r attempt maxRetries w err :
  embeddings_create env (length (embed_requests w)) text = inl err ->
  attempt <> maxRetries ->
  embedAttempts env (S r) attempt maxRetries text w
  = embedAttempts env r (attempt + 1) maxRetries text
      (set_clock (clock w + timer_delay (2 ^ (attempt - 1) * 1000))
         (set_console (console w ++ [EmbeddingAttemptFailed attempt err])
            (set_embed_requests (embed_requests w ++ [text]) w))).
Proof.
  intros H Hne. apply Z.eqb_neq in Hne. cbn [embedAttempts].
  unfold bind, settle, openai_embeddings_create, console_error, sleep, modify.
  rewrite H, Hne. reflexivity.
Qed.

Lemma embedAttempts_first_success env text :
  forall j remaining attempt maxRetries w e,
    (j < remaining)%nat ->
    maxRetries = (attempt + Z.of_nat remaining - 1)%Z -> (1 <= attempt)%Z ->
    (forall k, (k < j)%nat ->
               exists err,
                 embeddings_create env (length (embed_requests w) + k) text
                 = inl err) ->
    embeddings_create env (length (embed_requests w) + j) text = inr e ->
    let run := embedAttempts env remaining attempt maxRetries text w in
    fst run = Return e
    /\ embed_requests (snd run) = embed_requests w ++ repeat text (S j)
    /\ clock (snd run) = (clock w + pauses attempt j)%Z.
Proof.
  induction j as [|j IH]; intros remaining attempt maxRetries w e Hj Hm Ha
                                 Hfail Hok run; subst run;
    (destruct remaining as [|r]; [lia|]).
  - cbn [embedAttempts]. unfold bind, settle, openai_embeddings_create.
    rewrite Nat.add_0_r in Hok. rewrite Hok. cbn.
    repeat split. lia.
  - destruct (Hfail 0%nat ltac:(lia)) as [err Herr].
    rewrite Nat.add_0_r in Herr.
    rewrite (embedAttempts_retry env text r attempt maxRetries w err Herr)
      by lia.
    set (w1 := set_clock _ _).
    assert (Hlen : length (embed_requests w1) = S (length (embed_requests w))).
    { unfold w1. cbn. rewrite length_app. cbn. lia. }
    destruct (IH r (attempt + 1)%Z maxRetries w1 e) as (R1 & R2 & R3);
      try lia.
    + intros k Hk. rewrite Hlen.
      replace (S (length (embed_requests w)) + k)%nat
        with (length (embed_requests w) + S k)%nat by lia.
      apply Hfail. lia.
    + rewrite Hlen.
      replace (S (length (embed_requests w)) + j)%nat
        with (length (embed_requests w) + S j)%nat by lia.
      exact Hok.
    + split; [exact R1|]. split.
      * rewrite R2. unfold w1. cbn [embed_requests set_clock set_console
                                     set_embed_requests].
        rewrite <- app_assoc. reflexivity.
      * rewrite R3. unfold w1. cbn [clock set_clock set_console
                                      set_embed_requests pauses]. lia.
Qed.

Lemma embedAttempts_all_fail env text :
  forall r (errs : nat -> Exn) attempt maxRetries w,
    maxRetries = (attempt + Z.of_nat r)%Z -> (1 <= attempt)%Z ->
    (forall k, (k <= r)%nat ->
               embeddings_create env (length (embed_requests w) + k) text
               = inl (errs k)) ->
    let run := embedAttempts env (S r) attempt maxRetries text w in
    fst run = Throw (errs r)
    /\ embed_requests (snd run) = embed_requests w ++ repeat text (S r)
    /\ clock (snd run) = (clock w + pauses attempt r)%Z.
Proof.
  induction r as [|r IH]; intros errs attempt maxRetries w Hm Ha Hfail run;
    subst run;
    pose proof (Hfail 0%nat ltac:(lia)) as Herr;
    rewrite Nat.add_0_r in Herr.
  - cbn [embedAttempts].
    unfold bind, settle, openai_embeddings_create, console_error, modify.
    rewrite Herr.
    replace (attempt =? maxRetries)%Z with true
      by (symmetry; apply Z.eqb_eq; cbn in Hm; lia).
    cbn. repeat split. lia.
  - rewrite (embedAttempts_retry env text (S r) attempt maxRetries w _ Herr)
      by lia.
    set (w1 := set_clock _ _).
    assert (Hlen : length (embed_requests w1) = S (length (embed_requests w))).
    { unfold w1. cbn. rewrite length_app. cbn. lia. }
    destruct (IH (fun k => errs (S k)) (attempt + 1)%Z maxRetries w1)
      as (R1 & R2 & R3); try lia.
    + intros k Hk. rewrite Hlen.
      replace (S (length (embed_requests w)) + k)%nat
        with (length (embed_requests w) + S k)%nat by lia.
      apply Hfail. lia.
    + split; [exact R1|]. split.
      * rewrite R2. unfold w1. cbn [embed_requests set_clock set_console
                                     set_embed_requests].
        rewrite <- app_assoc. reflexivity.
      * rewrite R3. unfold w1. cbn [clock set_clock set_console
                                      set_embed_requests pauses]. lia.
Qed.

(** For any number of retries: if the request number [j+1] is the first
    that the embedding service accepts and [j+1] is within [maxRetries],
    [getEmbeddingWithRetry] returns its embedding after exactly [j+1]
    requests for the text and [j] pauses: of [2^j - 1] seconds in all
    while [j] is at most 22, and of one millisecond each from the 23rd
    on, whose doubled delay the timer no longer takes. *)
Theorem getEmbeddingWithRetry_first_success :
  forall (env : Env) (text : jsstring) (maxRetries : Z) (w : World)
         (j : nat) (e : Embedding),
    (Z.of_nat j < maxRetries)%Z ->
    (forall k, (k < j)%nat ->
               exists err,
                 embeddings_create env (length (embed_requests w) + k) text
                 = inl err) ->
    embeddings_create env (length (embed_requests w) + j) text = inr e ->
    let run := getEmbeddingWithRetry env text maxRetries w in
    fst run = Return e
    /\ embed_requests (snd run) = embed_requests w ++ repeat text (S j)
    /\ clock (snd run) = (clock w + backoff j)%Z.
Proof.
  intros env text maxRetries w j e Hj Hfail Hok run. subst run.
  unfold getEmbeddingWithRetry.
  destruct (embedAttempts_first_success env text j (Z.to_nat maxRetries) 1
              maxRetries w e) as (R1 & R2 & R3); try lia; auto.
  split; [exact R1|]. split; [exact R2|]. rewrite R3.
  rewrite pauses_backoff. reflexivity.
Qed.

Lemma getEmbeddingWithRetry_first_success_witness :
  fst (getEmbeddingWithRetry env_flaky (lit "text") 30 world0)
  = Return [inject_Z 25]
  /\ clock (snd (getEmbeddingWithRetry env_flaky (lit "text") 30 world0))
     = 4194303003%Z.
Proof.
  assert (H : forall k, (k < 25)%nat ->
                        exists err,
                          embeddings_create env_flaky
                            (length (embed_requests world0) + k) (lit "text")
                          = inl err).
  { intros k Hk. exists (Error (lit "429")).
    cbn [embeddings_create env_flaky embed_requests world0 length Nat.add].
    destruct (Nat.ltb_spec k 25); [reflexivity|lia]. }
  destruct (getEmbeddingWithRetry_first_success
              env_flaky (lit "text") 30 world0 25 [inject_Z 25]
              eq_refl H eq_refl) as (R1 & _ & R3).
  split; [exact R1 | exact R3].
Defined.

(** For any number of retries: with [maxRetries] below one no request is
    made and [Max retries exceeded] is thrown; otherwise, when the service
    refuses every request, [getEmbeddingWithRetry] gives up after exactly
    [maxRetries] requests for the text and [maxRetries - 1] pauses, and
    throws the last refusal. The pauses are of [2^(maxRetries-1) - 1]
    seconds in all while [maxRetries] is at most 23, and of one millisecond
    each from the 23rd on. *)
Theorem getEmbeddingWithRetry_gives_up :
  forall (env : Env) (text : jsstring) (maxRetries : Z) (w : World)
         (errs : nat -> Exn),
    (forall k, (Z.of_nat k < maxRetries)%Z ->
               embeddings_create env (length (embed_requests w) + k) text
               = inl (errs k)) ->
    let run := getEmbeddingWithRetry env text maxRetries w in
    if (maxRetries <? 1)%Z then
      run = (Throw (Error (lit "Max retries exceeded")), w)
    else
      fst run = Throw (errs (Z.to_nat maxRetries - 1)%nat)
      /\ embed_requests (snd run)
         = embed_requests w ++ repeat text (Z.to_nat maxRetries)
      /\ clock (snd run)
         = (clock w + backoff (Z.to_nat maxRetries - 1))%Z.
Proof.
  intros env text maxRetries w errs Hfail run. subst run.
  unfold getEmbeddingWithRetry.
  destruct (Z.ltb_spec maxRetries 1) as [Hlt|Hge].
  - replace (Z.to_nat maxRetries) with 0%nat by lia. reflexivity.
  - destruct (Z.to_nat maxRetries) as [|r] eqn:En; [lia|].
    destruct (embedAttempts_all_fail env text r errs 1 maxRetries w)
      as (R1 & R2 & R3); try lia.
    + intros k Hk. apply Hfail. lia.
    + replace (S r - 1)%nat with r by lia.
      split; [exact R1|]. split; [exact R2|]. rewrite R3.
      rewrite pauses_backoff. reflexivity.
Qed.

Lemma getEmbeddingWithRetry_gives_up_witness :
  fst (getEmbeddingWithRetry env0 bad 25 world0) = Throw (Error (lit "503"))
  /\ embed_requests (snd (getEmbeddingWithRetry env0 bad 25 world0))
     = repeat bad 25
  /\ clock (snd (getEmbeddingWithRetry env0 bad 25 world0)) = 4194303002%Z.
Proof.
  exact (getEmbeddingWithRetry_gives_up env0 bad 25 world0
           (fun _ => Error (lit "503")) (fun k _ => eq_refl)).
Defined.

(** ** Runs of the handlers *)

Lemma handler_never_succeeds_witness :
  fst (Ingest.handler env0 0 ingest_by_doc_id world0) = Return lookup_response
  /\ r_success lookup_response = false.
Proof.
  assert (H : fst (Ingest.handler env0 0 ingest_by_doc_id world0)
              = Return lookup_response) by (vm_compute; reflexivity).
  split; [exact H|].
  exact (proj1 (handler_never_succeeds env0 0 ingest_by_doc_id world0 _ H)).
Defined.

Lemma ingestion_without_doc_id_never_marks_error_witness :
  only_processing world0
                  (snd (Ingest.handler env0 0 ingest_by_blob_key world0)).
Proof.
  exact (proj1 (ingestion_without_doc_id_never_marks_error
                  env0 0 ingest_by_blob_key _ world0 eq_refl eq_refl)).
Defined.

Lemma handler_catch_marks_error_witness :
  List.map (fun d => md_status (d_metadata d))
           (documents (snd (handler_catch env0 ingest_by_doc_id
                                          (Error (lit "boom")) world0)))
  = [Some ERROR].
Proof.
  rewrite (handler_catch_marks_error env0 ingest_by_doc_id _
             (Error (lit "boom")) world0 eq_refl eq_refl eq_refl eq_refl).
  reflexivity.
Defined.

Lemma query_handler_rejects_top_k_out_of_range_witness :
  embed_requests
    (snd (RagQuery.handler (env_json query_what_25) (post_event "{}") world2))
  = embed_requests world2.
Proof.
  refine (proj1 (proj2 (query_handler_rejects_top_k_out_of_range
                          (env_json query_what_25) (post_event "{}") world2
                          _ 25 eq_refl eq_refl eq_refl eq_refl eq_refl _))).
  right. reflexivity.
Defined.

Lemma legacy_handler_embeds_whatever_top_k_witness :
  embed_requests (snd (ApiRagQuery.handler env0 (legacy_event 25) world2))
  = [lit "what"].
Proof.
  exact (legacy_handler_embeds_whatever_top_k
           env0 (legacy_event 25) _ world2 eq_refl eq_refl eq_refl eq_refl).
Defined.

(** ** Requests that name no document *)

(** A request that carries none of [doc_id], [blob_key], [blob_url] is
    answered with status 500 and the message that an identifier is
    missing.  Nothing is read or written in the store; the [catch] still
    opens one connection, and no embedding is requested. *)
Theorem ingestion_without_identifier_is_refused :
  forall (env : Env) (fuel : nat) (event : IngestEvent) (input : IngestInput)
         (w : World),
    ie_body event = Some input ->
    truthyO (doc_id input) = false -> truthyO (blob_key input) = false ->
    truthyO (blob_url input) = false ->
    let run := Ingest.handler env fuel event w in
    fst run
    = Return {| statusCode := 500; r_success := false; r_doc_id := None;
                r_chunks_processed := None; r_status := None;
                r_error := Some (lit "Missing identifier: provide doc_id or blob_key or blob_url") |}
    /\ documents (snd run) = documents w
    /\ embeddings (snd run) = embeddings w
    /\ embed_requests (snd run) = embed_requests w
    /\ pg_trips (snd run) = S (pg_trips w).
Proof.
  intros env fuel event input w Hb Hd Hk Hu run. subst run.
  unfold Ingest.handler, handler_catch, parseBody. rewrite Hb.
  unfold try_catch, bind, throw, ret, console_error, modify, pg_connect,
    pg_roundtrip, pg_end.
  rewrite Hd, Hk, Hu. cbn [negb andb pg_trips set_console].
  destruct (pg_fault env (pg_trips w)); cbn; repeat split.
Qed.

Lemma ingestion_without_identifier_is_refused_witness :
  pg_trips
    (snd (Ingest.handler env0 0 {| ie_body := Some input_without_identifier |}
                         world0))
  = 1%nat.
Proof.
  exact (proj2 (proj2 (proj2 (proj2
           (ingestion_without_identifier_is_refused
              env0 0 {| ie_body := Some input_without_identifier |}
              input_without_identifier world0
              eq_refl eq_refl eq_refl eq_refl))))).
Defined.

(** A request by [doc_id] or by [blob_key], with the store answering:
    whatever the document, and whether or not the table holds it, the
    lookup is refused, since it names the key as a column that
    [rag.documents] does not have, and the answer is status 500 with the
    store's message.  Nothing is embedded and no chunk is written; when
    the request carries no [doc_id] no document changes either. *)
Theorem ingestion_lookup_is_refused :
  forall (env : Env) (fuel : nat) (event : IngestEvent) (input : IngestInput)
         (w : World),
    ie_body event = Some input ->
    truthyO (doc_id input) || truthyO (blob_key input) = true ->
    pg_fault env (pg_trips w) = None ->
    pg_fault env (S (pg_trips w)) = None ->
    let run := Ingest.handler env fuel event w in
    let key := if truthyO (doc_id input) then lit "doc_id"
               else lit "blob_path" in
    ~ In key documents_columns
    /\ fst run
       = Return {| statusCode := 500; r_success := false; r_doc_id := None;
                   r_chunks_processed := None; r_status := None;
                   r_error := Some (lit "column " ++ quoted key
                                      ++ lit " does not exist") |}
    /\ embeddings (snd run) = embeddings w
    /\ embed_requests (snd run) = embed_requests w
    /\ (truthyO (doc_id input) = false -> documents (snd run) = documents w).
Proof.
  intros env fuel event input w Hb Hid H1 H2 run key.
  split.
  { subst key. destruct (truthyO (doc_id input));
      [exact doc_id_is_no_column | exact blob_path_is_no_column]. }
  subst run.
  set (w1 := set_pg_trips (S (pg_trips w)) w).
  destruct (handler_try_run env fuel input w1)
    as (e & w2 & E & D & T & Q & C & He).
  specialize (He H2 Hid). fold key in He.
  assert (Hrun : Ingest.handler env fuel event w = handler_catch env event e w2).
  { unfold Ingest.handler, try_catch, parseBody. rewrite Hb.
    unfold bind at 1. cbn [ret].
    replace (negb (truthyO (doc_id input)) && negb (truthyO (blob_key input))
             && negb (truthyO (blob_url input))) with false
      by (destruct (truthyO (doc_id input)), (truthyO (blob_key input));
          cbn in *; congruence).
    assert (Ec : pg_connect env w = (Return tt, w1)).
    { unfold pg_connect, pg_roundtrip. now rewrite H1. }
    rewrite (bind_run _ _ _ _ _ Ec). unfold try_finally.
    rewrite E. reflexivity. }
  rewrite Hrun.
  destruct (handler_catch_answers env event e w2) as [Ha Hemb].
  split; [rewrite Ha, He; reflexivity|].
  split; [rewrite Hemb; exact T|].
  split.
  - transitivity (embed_requests w2); [|exact Q].
    unfold handler_catch, mark_error, console_error, pg_connect, parseBody,
      pg_end.
    unfold bind, try_catch, modify, pg_roundtrip, ret, throw.
    cbn [pg_trips set_console set_pg_trips]. rewrite Hb.
    destruct (pg_fault env (pg_trips w2)); [reflexivity|].
    destruct (truthyO (doc_id input)); [|reflexivity].
    cbn [pg_trips set_console set_pg_trips].
    destruct (pg_fault env (S (pg_trips w2))); reflexivity.
  - intros Hd. transitivity (documents w2); [|exact D].
    unfold handler_catch, mark_error, console_error, pg_connect, parseBody,
      pg_end.
    unfold bind, try_catch, modify, pg_roundtrip, ret, throw.
    cbn [pg_trips set_console set_pg_trips]. rewrite Hb, Hd.
    destruct (pg_fault env (pg_trips w2)); reflexivity.
Qed.

Lemma ingestion_lookup_is_refused_witness :
  fst (Ingest.handler env_text 0 ingest_by_blob_key world2)
  = Return {| statusCode := 500; r_success := false; r_doc_id := None;
              r_chunks_processed := None; r_status := None;
              r_error := Some (lit "column " ++ quoted (lit "blob_path")
                                 ++ lit " does not exist") |}
  /\ documents (snd (Ingest.handler env_text 0 ingest_by_blob_key world2))
     = documents world2.
Proof.
  destruct (ingestion_lookup_is_refused
              env_text 0 ingest_by_blob_key
              {| doc_id := None; tenant_id := None;
                 blob_key := Some (lit "k"); blob_url := None |}
              world2 eq_refl eq_refl eq_refl eq_refl)
    as (_ & R & _ & _ & D).
  split; [exact R | exact (D eq_refl)].
Defined.

(** ** Chunks without overlap *)

Lemma dropWhile_clean s : starts_clean s -> dropWhile isWhiteSpace s = s.
Proof. destruct s as [|c r]; cbn; [reflexivity|]. now intros ->. Qed.

Lemma dropWhile_starts_clean s : starts_clean (dropWhile isWhiteSpace s).
Proof.
  induction s as [|c r IH]; cbn; [exact I|].
  destruct (isWhiteSpace c) eqn:E; [exact IH|exact E].
Qed.

Lemma trim_clean s : starts_clean s -> ends_clean s -> trim s = s.
Proof.
  intros Hs He. unfold trim, trimStart, trimEnd.
  rewrite (dropWhile_clean s Hs), (dropWhile_clean (rev s) He).
  apply rev_involutive.
Qed.

Lemma starts_clean_app a b : a <> [] -> starts_clean a -> starts_clean (a ++ b).
Proof. destruct a; [congruence|auto]. Qed.

Lemma ends_clean_app a b : b <> [] -> ends_clean b -> ends_clean (a ++ b).
Proof.
  unfold ends_clean. intros Hb H. rewrite rev_app_distr.
  apply starts_clean_app; [|exact H].
  intros E. apply Hb. apply (f_equal (@rev N)) in E.
  now rewrite rev_involutive in E.
Qed.

Lemma ends_clean_tail c r : r <> [] -> ends_clean (c :: r) -> ends_clean r.
Proof.
  unfold ends_clean. cbn [rev]. intros Hr H.
  destruct (rev r) as [|x l] eqn:E; [|exact H].
  exfalso. apply Hr. apply (f_equal (@rev N)) in E.
  now rewrite rev_involutive in E.
Qed.

Lemma trimEnd_ends_clean s : ends_clean (trimEnd s).
Proof.
  unfold ends_clean, trimEnd. rewrite rev_involutive.
  apply dropWhile_starts_clean.
Qed.

Lemma dropWhile_app_clean (l : jsstring) c :
  isWhiteSpace c = false ->
  dropWhile isWhiteSpace (l ++ [c]) = dropWhile isWhiteSpace l ++ [c].
Proof.
  intros Hc. induction l as [|x r IH]; cbn; [now rewrite Hc|].
  destruct (isWhiteSpace x); [exact IH|reflexivity].
Qed.

Lemma trimEnd_starts_clean s : starts_clean s -> starts_clean (trimEnd s).
Proof.
  destruct s as [|c r]; [intros _; exact I|]. cbn [starts_clean]. intros Hc.
  unfold trimEnd. cbn [rev]. rewrite (dropWhile_app_clean _ _ Hc).
  rewrite rev_app_distr. cbn. exact Hc.
Qed.

Lemma trim_starts_clean s : starts_clean (trim s).
Proof. apply trimEnd_starts_clean, dropWhile_starts_clean. Qed.

Lemma trim_ends_clean s : ends_clean (trim s).
Proof. apply trimEnd_ends_clean. Qed.

Lemma word_starts_clean w : word w -> starts_clean w.
Proof.
  intros [Hn Hw]. destruct w as [|c r]; [exact I|]. cbn in *.
  apply andb_true_iff in Hw as [Hc _]. now apply negb_true_iff in Hc.
Qed.

Lemma word_ends_clean w : word w -> ends_clean w.
Proof.
  intros [Hn Hw]. unfold ends_clean.
  destruct (rev w) as [|c r] eqn:E; [exact I|]. cbn.
  assert (Hin : In c w) by (apply in_rev; rewrite E; now left).
  rewrite forallb_forall in Hw. specialize (Hw c Hin).
  now apply negb_true_iff in Hw.
Qed.

Lemma join_sp_cons w ws :
  ws <> [] -> join_sp (w :: ws) = w ++ SP :: join_sp ws.
Proof. destruct ws; [congruence|reflexivity]. Qed.

Lemma join_sp_app a b :
  a <> [] -> b <> [] -> join_sp (a ++ b) = join_sp a ++ SP :: join_sp b.
Proof.
  intros Ha Hb. induction a as [|x r IH]; [congruence|].
  destruct r as [|y r'].
  - cbn [app]. now apply join_sp_cons.
  - change ((x :: y :: r') ++ b) with (x :: ((y :: r') ++ b)).
    rewrite join_sp_cons by discriminate.
    rewrite IH by discriminate.
    rewrite (join_sp_cons x (y :: r')) by discriminate.
    rewrite <- app_assoc. reflexivity.
Qed.

Lemma join_sp_words ws :
  ws <> [] -> Forall word ws ->
  join_sp ws <> [] /\ starts_clean (join_sp ws) /\ ends_clean (join_sp ws).
Proof.
  induction ws as [|w r IH]; [congruence|]. intros _ Hw.
  inversion Hw as [|? ? Hw1 Hr]; subst.
  destruct r as [|w' r'].
  - cbn. split; [apply Hw1|].
    split; [now apply word_starts_clean | now apply word_ends_clean].
  - rewrite join_sp_cons by discriminate.
    assert (Hne : w' :: r' <> []) by discriminate.
    destruct (IH Hne Hr) as (Hn & Hs & He).
    split; [destruct w; [destruct Hw1; congruence|discriminate]|].
    split.
    + apply starts_clean_app; [apply Hw1|now apply word_starts_clean].
    + apply ends_clean_app; [discriminate|].
      apply (ends_clean_app [SP]) in He; [exact He|exact Hn].
Qed.

Lemma split_ws_cons2 c c' rest' :
  split_ws (c :: c' :: rest')
  = if isWhiteSpace c
    then if isWhiteSpace c' then split_ws (c' :: rest')
         else [] :: split_ws (c' :: rest')
    else match split_ws (c' :: rest') with
         | w :: ws => (c :: w) :: ws
         | [] => [[c]]
         end.
Proof. reflexivity. Qed.

(** The words of a text in which every whitespace is a single space and
    which does not end in one. *)
Lemma split_ws_single_spaced s :
  forall b,
    s <> [] -> single_spaced b s = true -> ends_clean s ->
    exists ws,
      ws <> [] /\ Forall word ws
      /\ match s with
         | c :: _ =>
             if isWhiteSpace c
             then split_ws s = [] :: ws /\ s = SP :: join_sp ws
             else split_ws s = ws /\ join_sp ws = s
         | [] => False
         end.
Proof.
  induction s as [|c rest IH]; intros b Hn Hs He; [congruence|].
  cbn [single_spaced] in Hs. destruct (isWhiteSpace c) eqn:Ec.
  - apply andb_true_iff in Hs as [Hs Hr].
    apply andb_true_iff in Hs as [Hsp _]. apply N.eqb_eq in Hsp. subst c.
    destruct rest as [|c' rest'].
    { unfold ends_clean in He. cbn in He. congruence. }
    assert (Hc' : isWhiteSpace c' = false).
    { cbn [single_spaced] in Hr. destruct (isWhiteSpace c'); [|reflexivity].
      destruct (c' =? SP)%N; cbn in Hr; discriminate. }
    assert (Hne : c' :: rest' <> []) by discriminate.
    destruct (IH true Hne Hr (ends_clean_tail _ _ Hne He))
      as (ws & Hws & Hw & Hsplit).
    rewrite Hc' in Hsplit. destruct Hsplit as [E1 E2].
    exists ws. split; [exact Hws|]. split; [exact Hw|].
    rewrite split_ws_cons2, Hc', E1.
    change (isWhiteSpace SP) with true. cbn match.
    split; [reflexivity|]. now rewrite E2.
  - destruct rest as [|c' rest'].
    { exists [[c]]. split; [discriminate|]. split.
      - constructor; [|constructor]. split; [discriminate|].
        cbn. now rewrite Ec.
      - cbn. rewrite Ec. split; reflexivity. }
    assert (Hne : c' :: rest' <> []) by discriminate.
    destruct (IH false Hne Hs (ends_clean_tail _ _ Hne He))
      as (ws & Hws & Hw & Hsplit).
    destruct (isWhiteSpace c') eqn:Ec'.
    + destruct Hsplit as [E1 E2].
      exists ([c] :: ws). split; [discriminate|]. split.
      * constructor; [|exact Hw]. split; [discriminate|].
        cbn. now rewrite Ec.
      * rewrite split_ws_cons2, Ec, E1. split; [reflexivity|].
        rewrite join_sp_cons by exact Hws. rewrite E2. reflexivity.
    + destruct Hsplit as [E1 E2].
      destruct ws as [|w ws']; [congruence|].
      exists ((c :: w) :: ws'). split; [discriminate|]. split.
      * inversion Hw as [|? ? Hw1 Hr]; subst. constructor; [|exact Hr].
        split; [discriminate|]. cbn. rewrite Ec. cbn. apply Hw1.
      * rewrite split_ws_cons2, Ec, E1. split; [reflexivity|].
        rewrite <- E2. destruct ws'; reflexivity.
Qed.

Lemma slice_window {A} (l : list A) (start end_ : nat) :
  (start <= end_ <= length l)%nat ->
  slice l (Z.of_nat start) (Z.of_nat end_)
  = firstn (end_ - start) (skipn start l).
Proof.
  intros H. unfold slice.
  destruct (Z.ltb_spec (Z.of_nat start) 0); [lia|].
  destruct (Z.ltb_spec (Z.of_nat end_) 0); [lia|].
  rewrite !Z.min_l by lia.
  rewrite <- Nat2Z.inj_sub by lia. now rewrite !Nat2Z.id.
Qed.

Lemma Forall_window {A} (P : A -> Prop) (l : list A) n k :
  Forall P l -> Forall P (firstn k (skipn n l)).
Proof.
  intros H. apply Forall_forall. intros x Hx.
  rewrite Forall_forall in H. apply H.
  apply firstn_In in Hx. rewrite <- (firstn_skipn n l).
  apply in_or_app. now right.
Qed.

Lemma chunkLoop_without_overlap words maxWords :
  (0 < maxWords)%Z -> Forall word words ->
  forall fuel start chunks,
    (start < length words)%nat -> (length words - start < fuel)%nat ->
    exists cs,
      chunkLoop fuel words maxWords 0 (Z.of_nat start) chunks
      = Some (chunks ++ cs)
      /\ cs <> []
      /\ Forall (fun c => c <> [] /\ trim c = c) cs
      /\ join_sp cs = join_sp (skipn start words).
Proof.
  intros Hm Hw. induction fuel as [|fuel IH]; intros start chunks Hs Hf; [lia|].
  cbn [chunkLoop].
  destruct (Z.ltb_spec (Z.of_nat start) (Z.of_nat (length words))); [|lia].
  set (end_ := Nat.min (start + Z.to_nat maxWords) (length words)).
  assert (Hend : Z.min (Z.of_nat start + maxWords) (Z.of_nat (length words))
                 = Z.of_nat end_) by (unfold end_; lia).
  rewrite Hend.
  assert (Hlt : (start < end_)%nat) by (unfold end_; lia).
  rewrite (slice_window words start end_) by (unfold end_; lia).
  set (g := firstn (end_ - start) (skipn start words)).
  assert (Hg : g <> []).
  { unfold g. intros E. apply (f_equal (@length _)) in E.
    rewrite length_firstn, length_skipn in E. cbn in E. unfold end_ in *. lia. }
  assert (Hgw : Forall word g) by (now apply Forall_window).
  destruct (join_sp_words g Hg Hgw) as (Hn & Hsc & Hec).
  rewrite (trim_clean _ Hsc Hec).
  replace (truthy (join_sp g)) with true
    by (destruct (join_sp g); [congruence|reflexivity]).
  destruct (Z.geb_spec (Z.of_nat end_ - 0) (Z.of_nat (length words))) as [Hge|Hl].
  - exists [join_sp g]. split; [reflexivity|]. split; [discriminate|].
    split; [constructor; [split; [exact Hn|now apply trim_clean]|constructor]|].
    cbn [join_sp]. unfold g. rewrite firstn_all2; [reflexivity|].
    rewrite length_skipn. unfold end_ in *. lia.
  - replace (Z.of_nat end_ - 0)%Z with (Z.of_nat end_) by lia.
    destruct (IH end_ (chunks ++ [join_sp g])) as (cs & E & Hcs & Hgood & Hj);
      [lia | unfold end_ in *; lia |].
    exists (join_sp g :: cs). split; [rewrite E, <- app_assoc; reflexivity|].
    split; [discriminate|].
    split; [constructor; [split; [exact Hn|now apply trim_clean]|exact Hgood]|].
    rewrite join_sp_cons by exact Hcs. rewrite Hj.
    rewrite <- (firstn_skipn (end_ - start) (skipn start words)).
    fold g. rewrite skipn_skipn.
    replace (end_ - start + start)%nat with end_ by lia.
    rewrite join_sp_app; [reflexivity|exact Hg|].
    intros E'. apply (f_equal (@length _)) in E'.
    rewrite length_skipn in E'. cbn in E'. lia.
Qed.

Lemma cleanText_words text :
  cleanText text <> [] ->
  Forall word (split_ws (cleanText text))
  /\ join_sp (split_ws (cleanText text)) = cleanText text.
Proof.
  intros Hn.
  assert (Hs : single_spaced false (cleanText text) = true).
  { unfold cleanText, replace_g.
    rewrite blank_lines_noop by apply collapsed_no_LF.
    eapply single_spaced_trim, collapsed_single_spaced. }
  assert (Hsc : starts_clean (cleanText text)) by apply trim_starts_clean.
  assert (Hec : ends_clean (cleanText text)) by apply trim_ends_clean.
  destruct (split_ws_single_spaced _ false Hn Hs Hec) as (ws & Hws & Hw & H).
  destruct (cleanText text) as [|c r]; [congruence|].
  cbn [starts_clean] in Hsc. rewrite Hsc in H. destruct H as [-> ->].
  split; [exact Hw|reflexivity].
Qed.

(** The word counts of the budgets from 2 to 100000 tokens, computed
    one by one: each leaves room for at least one word. *)
Lemma wordsForTokens_positive tokens :
  (2 <= tokens <= 100000)%Z -> (0 < wordsForTokens tokens)%Z.
Proof.
  intros H.
  assert (A : all_from (fun t => (0 <? wordsForTokens t)%Z)
                       (Z.to_nat 99999) 2 = true)
    by (vm_compute; reflexivity).
  assert (S : forall p n z,
             all_from p n z = true ->
             forall t, (z <= t < z + Z.of_nat n)%Z -> p t = true).
  { intros p. induction n as [|n IH]; intros z Hz t Ht; [lia|].
    cbn [all_from] in Hz. apply andb_prop in Hz as [H0 H1].
    destruct (Z.eq_dec t z) as [->|Hne]; [exact H0|].
    apply (IH (z + 1)%Z); [exact H1 | lia]. }
  apply Z.ltb_lt. apply (S _ _ _ A). lia.
Qed.

(** What the chunker computes when it is given a budget without overlap
    (at most one token, which is no word): on a cleaned text that is not
    empty and for any budget from two to 100000 tokens per chunk,
    [chunkText] returns, its chunks are not empty and are trimmed, and
    joined by single spaces they are the cleaned text, so that no word is
    lost, repeated or reordered. *)
Theorem chunkText_without_overlap_rebuilds_text :
  forall (text : jsstring) (maxTokens overlapTokens : Z),
    cleanText text <> [] ->
    (2 <= maxTokens <= 100000)%Z -> (0 <= overlapTokens <= 1)%Z ->
    exists chunks,
      chunkText (S (length (split_ws (cleanText text)))) (cleanText text)
                maxTokens overlapTokens = Some chunks
      /\ chunks <> []
      /\ Forall (fun c => c <> [] /\ trim c = c) chunks
      /\ join_sp chunks = cleanText text.
Proof.
  intros text maxTokens overlapTokens Hn Hm Ho.
  destruct (cleanText_words text Hn) as [Hw Hj].
  unfold chunkText.
  assert (Hov : wordsForTokens overlapTokens = 0%Z).
  { assert (E : overlapTokens = 0%Z \/ overlapTokens = 1%Z) by lia.
    destruct E as [-> | ->]; vm_compute; reflexivity. }
  pose proof (wordsForTokens_positive maxTokens Hm) as Hmw.
  rewrite Hov.
  pose proof (split_ws_nonempty (cleanText text)) as Hlen.
  destruct (chunkLoop_without_overlap _ _ Hmw Hw
              (S (length (split_ws (cleanText text)))) 0 [])
    as (cs & E & Hcs & Hgood & Hjoin); [lia|lia|].
  exists cs. cbn [Z.of_nat app] in E. rewrite E.
  split; [reflexivity|]. split; [exact Hcs|]. split; [exact Hgood|].
  rewrite Hjoin. cbn [skipn]. exact Hj.
Qed.

Lemma chunkText_without_overlap_rebuilds_text_witness :
  exists chunks,
    chunkText 4 (lit "one two three") 3 0 = Some chunks
    /\ chunks <> []
    /\ Forall (fun c => c <> [] /\ trim c = c) chunks
    /\ join_sp chunks = lit "one two three".
Proof.
  refine (chunkText_without_overlap_rebuilds_text
            (lit "  one two
 three ") 3 0 _ _ _).
  - vm_compute. discriminate.
  - lia.
  - lia.
Defined.

(** With a budget of three tokens, which is two words, the text above
    comes in two chunks. *)
Example chunkText_two_chunks :
  chunkText 4 (lit "one two three") 3 0 = Some [lit "one two"; lit "three"].
Proof. vm_compute. reflexivity. Qed.

(** ** The cost of a run *)

Lemma spent_le e p e' p' w w' :
  spent e p w w' -> (e <= e')%nat -> (p <= p')%nat -> spent e' p' w w'.
Proof. unfold spent. intros [H1 H2] He Hp. split; lia. Qed.

Lemma spent_trans e1 p1 e2 p2 a b c :
  spent e1 p1 a b -> spent e2 p2 b c -> spent (e1 + e2) (p1 + p2) a c.
Proof. unfold spent. intros [H1 H2] [H3 H4]. split; lia. Qed.

Lemma spent_refl w : spent 0 0 w w.
Proof. unfold spent. split; lia. Qed.

Lemma keeps_spent_le e p e' p' {A} (c : M A) :
  keeps (spent e p) c -> (e <= e')%nat -> (p <= p')%nat ->
  keeps (spent e' p') c.
Proof. intros H He Hp w. eapply spent_le; [apply H|exact He|exact Hp]. Qed.

Lemma keeps_spent_bind e1 p1 e2 p2 {A B} (Q : A -> Prop) (c : M A)
      (k : A -> M B) :
  keeps (spent e1 p1) c ->
  (forall w a, fst (c w) = Return a -> Q a) ->
  (forall a, Q a -> keeps (spent e2 p2) (k a)) ->
  keeps (spent (e1 + e2) (p1 + p2)) (bind c k).
Proof.
  intros Hc Hq Hk w. unfold bind. specialize (Hc w). specialize (Hq w).
  destruct (c w) as [[a|e|] w1]; cbn [fst snd] in *.
  - eapply spent_trans; [exact Hc|]. apply Hk. now apply Hq.
  - eapply spent_le; [exact Hc|lia|lia].
  - eapply spent_le; [exact Hc|lia|lia].
Qed.

Lemma keeps_spent_then e1 p1 e2 p2 {A B} (c : M A) (k : A -> M B) :
  keeps (spent e1 p1) c -> (forall a, keeps (spent e2 p2) (k a)) ->
  keeps (spent (e1 + e2) (p1 + p2)) (bind c k).
Proof.
  intros Hc Hk. apply (keeps_spent_bind e1 p1 e2 p2 (fun _ => True)); auto.
Qed.

Lemma keeps_spent_try_catch e1 p1 e2 p2 {A} (c : M A) h :
  keeps (spent e1 p1) c -> (forall e, keeps (spent e2 p2) (h e)) ->
  keeps (spent (e1 + e2) (p1 + p2)) (try_catch c h).
Proof.
  intros Hc Hh w. unfold try_catch. specialize (Hc w).
  destruct (c w) as [[a|e|] w1]; cbn [snd] in *.
  - eapply spent_le; [exact Hc|lia|lia].
  - eapply spent_trans; [exact Hc|apply Hh].
  - eapply spent_le; [exact Hc|lia|lia].
Qed.

Lemma keeps_spent_free {A} (c : M A) :
  (forall w, embed_requests (snd (c w)) = embed_requests w
             /\ pg_trips (snd (c w)) = pg_trips w) ->
  keeps (spent 0 0) c.
Proof. intros H w. destruct (H w) as [E P]. unfold spent. rewrite E, P. lia. Qed.

Ltac spent_free :=
  eapply keeps_spent_le;
  [apply keeps_spent_free; intros ?w; split; reflexivity | lia | lia].

Lemma keeps_spent_mapM e p {A B} (f : A -> M B) l :
  (forall x, keeps (spent e p) (f x)) ->
  keeps (spent (e * length l) (p * length l)) (mapM f l).
Proof.
  intros H. induction l as [|x r IH]; cbn [mapM length].
  - spent_free.
  - eapply keeps_spent_le;
      [apply (keeps_spent_then e p (e * length r) (p * length r));
       [apply H|]
      | lia | lia].
    intros y. eapply keeps_spent_le;
      [apply (keeps_spent_then (e * length r) (p * length r) 0 0);
       [exact IH|] | lia | lia].
    intros ys. apply keeps_spent_free. intros w. split; reflexivity.
Qed.

Lemma mapM_length {A B} (f : A -> M B) l :
  forall w ys, fst (mapM f l w) = Return ys -> length ys = length l.
Proof.
  induction l as [|x r IH]; intros w ys; cbn [mapM].
  - intros E. injection E as <-. reflexivity.
  - unfold bind at 1. destruct (f x w) as [[y|e|] w1]; try discriminate.
    unfold bind at 1. specialize (IH w1).
    destruct (mapM f r w1) as [[ys'|e|] w2]; try discriminate.
    intros E. injection E as <-. cbn. f_equal. now apply IH.
Qed.

Lemma keeps_spent_roundtrip env : keeps (spent 0 1) (pg_roundtrip env).
Proof.
  intros w. unfold pg_roundtrip, spent.
  destruct (pg_fault env (pg_trips w)); cbn; lia.
Qed.

Lemma keeps_spent_create env text :
  keeps (spent 1 0) (openai_embeddings_create env text).
Proof.
  intros w. unfold openai_embeddings_create, spent.
  destruct (embeddings_create env _ text); cbn; rewrite length_app; cbn; lia.
Qed.

Lemma keeps_spent_embedAttempts env n :
  forall attempt maxRetries text,
    keeps (spent n 0) (embedAttempts env n attempt maxRetries text).
Proof.
  induction n as [|n IH]; intros attempt maxRetries text; cbn [embedAttempts].
  - apply keeps_spent_free. intros w. split; reflexivity.
  - apply (keeps_spent_then 1 0 n 0).
    + intros w. pose proof (keeps_spent_create env text w) as H.
      unfold settle. destruct (openai_embeddings_create env text w)
        as [[a|e|] w1]; exact H.
    + intros [err|e];
        [|eapply keeps_spent_le;
          [apply keeps_spent_free; intros w; split; reflexivity|lia|lia]].
      apply (keeps_spent_then 0 0 n 0).
      * apply keeps_spent_free. intros w. split; reflexivity.
      * intros _. destruct (attempt =? maxRetries)%Z.
        -- eapply keeps_spent_le;
             [apply keeps_spent_free; intros w; split; reflexivity|lia|lia].
        -- apply (keeps_spent_then 0 0 n 0); [|intros _; apply IH].
           apply keeps_spent_free. intros w. split; reflexivity.
Qed.

Lemma keeps_spent_lookupChunk env c : keeps (spent 0 1) (lookupChunk env c).
Proof.
  intros w. unfold lookupChunk, settle, select_embedding_by_hash, bind,
              pg_roundtrip, get, spent.
  destruct (pg_fault env (pg_trips w)); cbn; lia.
Qed.

Lemma keeps_spent_upsert env d i c h v n :
  keeps (spent 0 1) (upsert_embedding env d i c h v n).
Proof.
  intros w. unfold upsert_embedding, bind, pg_roundtrip, modify, spent.
  destruct (pg_fault env (pg_trips w)); cbn; lia.
Qed.

Lemma keeps_spent_persistChunk env d i c existing :
  keeps (spent 3 1) (persistChunk env d i c existing).
Proof.
  unfold persistChunk.
  apply (keeps_spent_try_catch 3 1 0 0).
  - apply (keeps_spent_then 0 0 3 1).
    { destruct existing; apply keeps_spent_free; intros w; split; reflexivity. }
    intros rows. apply (keeps_spent_then 3 0 0 1).
    + destruct rows.
      * apply (keeps_spent_embedAttempts env 3).
      * eapply keeps_spent_le;
          [apply keeps_spent_free; intros w; split; reflexivity|lia|lia].
    + intros v. apply (keeps_spent_then 0 1 0 0);
        [apply keeps_spent_upsert|].
      intros _. apply keeps_spent_free. intros w. split; reflexivity.
  - intros e. apply (keeps_spent_then 0 0 0 0).
    + apply keeps_spent_free. intros w. split; reflexivity.
    + intros _. apply keeps_spent_free. intros w. split; reflexivity.
Qed.

Lemma indexedBatch_length chunks i :
  length (indexedBatch chunks i) = Nat.min batchSize (length chunks - i).
Proof.
  unfold indexedBatch. rewrite length_combine, length_seq, Nat.min_id.
  now rewrite length_firstn, length_skipn.
Qed.

Lemma keeps_spent_processBatch env chunks d i :
  keeps (spent (3 * Nat.min batchSize (length chunks - i))
               (2 * Nat.min batchSize (length chunks - i)))
        (processBatch env chunks d i).
Proof.
  unfold processBatch. fold (indexedBatch chunks i).
  set (n := Nat.min batchSize (length chunks - i)).
  assert (Hn : length (indexedBatch chunks i) = n)
    by apply indexedBatch_length.
  eapply keeps_spent_le;
    [apply (keeps_spent_bind (0 * n) (1 * n) (3 * n) (1 * n)
              (fun looked : list (nat * jsstring * (Exn + list Embedding)) =>
                 length looked = n))
    | lia | lia].
  - rewrite <- Hn. apply keeps_spent_mapM.
    intros ic. eapply keeps_spent_le;
      [apply (keeps_spent_then 0 1 0 0); [apply keeps_spent_lookupChunk|]
      | lia | lia].
    intros r. apply keeps_spent_free. intros w. split; reflexivity.
  - intros w looked E. rewrite (mapM_length _ _ _ _ E). exact Hn.
  - intros looked Hl.
    eapply keeps_spent_le;
      [apply (keeps_spent_then (3 * n) (1 * n) 0 0) | lia | lia].
    + rewrite <- Hl. apply keeps_spent_mapM. intros icr.
      apply keeps_spent_persistChunk.
    + intros results. apply (keeps_spent_then 0 0 0 0).
      * destruct (filter (fun r => negb (success r)) results);
          apply keeps_spent_free; intros w; split; reflexivity.
      * intros _. destruct (i + batchSize <? length chunks)%nat;
          apply keeps_spent_free; intros w; split; reflexivity.
Qed.

Lemma keeps_spent_batches env chunks d :
  forall b a,
    keeps (spent (3 * (Nat.min (length chunks) ((a + b) * batchSize)
                       - Nat.min (length chunks) (a * batchSize)))
                 (2 * (Nat.min (length chunks) ((a + b) * batchSize)
                       - Nat.min (length chunks) (a * batchSize))))
          (forM_ (List.map (fun k => (k * batchSize)%nat) (seq a b))
                 (processBatch env chunks d)).
Proof.
  induction b as [|b IH]; intros a; cbn [seq List.map forM_].
  - eapply keeps_spent_le;
      [apply keeps_spent_free; intros w; split; reflexivity|lia|lia].
  - eapply keeps_spent_le;
      [apply (keeps_spent_then _ _ _ _ _ _
                (keeps_spent_processBatch env chunks d (a * batchSize))
                (fun _ => IH (S a)))
      | unfold batchSize; lia | unfold batchSize; lia].
Qed.

(** The cost of a run of [processEmbeddingsBatch] over [n] chunks,
    whatever the services answer: at most [3 n] embedding requests (three
    attempts for a chunk) and at most [2 n] round trips to the store (a
    lookup and an upsert for a chunk). *)
Theorem processEmbeddingsBatch_cost :
  forall (env : Env) (chunks : list jsstring) (dbDocId : Z) (w : World),
    let w' := snd (processEmbeddingsBatch env chunks dbDocId w) in
    (length (embed_requests w')
     <= length (embed_requests w) + 3 * length chunks)%nat
    /\ (pg_trips w' <= pg_trips w + 2 * length chunks)%nat.
Proof.
  intros env chunks d w w'. subst w'.
  unfold processEmbeddingsBatch, batchStarts.
  pose proof (keeps_spent_batches env chunks d
                ((length chunks + (batchSize - 1)) / batchSize) 0 w) as H.
  eapply spent_le in H; [exact H| |]; lia.
Qed.

(** ** The keys of the embeddings table *)

Lemma table_kept_refl w : table_kept w w.
Proof. intros H. exact H. Qed.

Lemma table_kept_trans a b c : table_kept a b -> table_kept b c -> table_kept a c.
Proof. unfold table_kept. auto. Qed.

Lemma keeps_table_free {A} (c : M A) :
  (forall w, embeddings (snd (c w)) = embeddings w
             /\ embeddings_id_seq (snd (c w)) = embeddings_id_seq w) ->
  keeps table_kept c.
Proof.
  intros H w. destruct (H w) as [E S]. unfold table_kept, table_ok.
  now rewrite E, S.
Qed.

Lemma keeps_table_roundtrip env : keeps table_kept (pg_roundtrip env).
Proof.
  apply keeps_table_free. intros w. unfold pg_roundtrip.
  destruct (pg_fault env (pg_trips w)); split; reflexivity.
Qed.

Lemma keeps_table_console l : keeps table_kept (console_error l).
Proof. apply keeps_table_free. intros w. split; reflexivity. Qed.

Lemma keeps_table_sleep ms : keeps table_kept (sleep ms).
Proof. apply keeps_table_free. intros w. split; reflexivity. Qed.

Lemma keeps_table_create env text :
  keeps table_kept (openai_embeddings_create env text).
Proof.
  apply keeps_table_free. intros w. unfold openai_embeddings_create.
  destruct (embeddings_create env _ text); split; reflexivity.
Qed.

Lemma keeps_table_upsert env d i c h v n :
  keeps table_kept (upsert_embedding env d i c h v n).
Proof.
  apply keeps_table_free. intros w. rewrite upsert_embedding_run.
  split; reflexivity.
Qed.

Lemma keeps_table_persistChunk env d i c existing :
  keeps table_kept (persistChunk env d i c existing).
Proof.
  unfold persistChunk.
  apply (keeps_try_catch table_kept table_kept_trans).
  - apply (keeps_bind table_kept table_kept_trans);
      [apply keeps_unsettle, table_kept_refl|].
    intros rows. apply (keeps_bind table_kept table_kept_trans).
    + destruct rows; [|apply keeps_ret, table_kept_refl].
      apply (keeps_embedAttempts env table_kept table_kept_refl
               table_kept_trans keeps_table_console keeps_table_sleep).
      apply keeps_table_create.
    + intros v. apply (keeps_bind table_kept table_kept_trans);
        [apply keeps_table_upsert|].
      intros _. apply keeps_ret, table_kept_refl.
  - intros e. apply (keeps_bind table_kept table_kept_trans);
      [apply keeps_table_console|].
    intros _. apply keeps_ret, table_kept_refl.
Qed.

Lemma keeps_table_processBatch env chunks d i :
  keeps table_kept (processBatch env chunks d i).
Proof.
  unfold processBatch.
  apply (keeps_bind table_kept table_kept_trans).
  - apply (keeps_mapM table_kept table_kept_refl table_kept_trans).
    intros ic _. apply (keeps_bind table_kept table_kept_trans).
    + apply keeps_table_free. intros w.
      unfold lookupChunk, settle, select_embedding_by_hash, bind,
        pg_roundtrip, get.
      destruct (pg_fault env (pg_trips w)); split; reflexivity.
    + intros r. apply keeps_ret, table_kept_refl.
  - intros looked. apply (keeps_bind table_kept table_kept_trans).
    + apply (keeps_mapM table_kept table_kept_refl table_kept_trans).
      intros icr _. apply keeps_table_persistChunk.
    + intros results. apply (keeps_bind table_kept table_kept_trans).
      * destruct (filter (fun r => negb (success r)) results);
          [apply keeps_ret, table_kept_refl | apply keeps_table_console].
      * intros _. destruct (i + batchSize <? length chunks)%nat;
          [apply keeps_table_sleep | apply keeps_ret, table_kept_refl].
Qed.

(** The content hash stays a key of the embeddings table: if no hash and
    no identifier occurs twice before a run of [processEmbeddingsBatch]
    (and the sequence is ahead of the identifiers), the same holds after
    it, whatever chunks are processed and whatever fails: no step of the
    run adds a row or changes one. *)
Theorem processEmbeddingsBatch_keeps_hashes_unique :
  forall (env : Env) (chunks : list jsstring) (dbDocId : Z) (w : World),
    table_ok w ->
    table_ok (snd (processEmbeddingsBatch env chunks dbDocId w)).
Proof.
  intros env chunks d w.
  apply (keeps_forM_ table_kept table_kept_refl table_kept_trans).
  intros i _. apply keeps_table_processBatch.
Qed.

Lemma processEmbeddingsBatch_keeps_hashes_unique_witness :
  table_ok world2
  /\ table_ok (snd (processEmbeddingsBatch env0
                      [lit "alpha"; lit "gamma"; lit "gamma"] 2 world2)).
Proof.
  assert (H : table_ok world2).
  { unfold table_ok. cbn. repeat split.
    - repeat constructor; cbn; intuition discriminate.
    - repeat constructor; cbn; intuition discriminate.
    - repeat constructor. }
  split; [exact H|].
  exact (processEmbeddingsBatch_keeps_hashes_unique env0 _ 2 world2 H).
Defined.

(** ** The earlier query handler answers *)

Lemma answers_legacy_try env event prompt_ docId topK :
  answers (fun resp => q_statusCode resp = 200%Z)
          (ApiRagQuery.handler_try env event prompt_ docId topK).
Proof.
  unfold ApiRagQuery.handler_try, ApiRagQuery.getQueryEmbedding.
  apply answers_then; [apply fueled_create|]. intros v.
  apply answers_then; [apply fueled_vectorSearch|]. intros [|c chunks].
  - now apply answers_ret.
  - destruct (acceptsSSE (lq_accept event)).
    + apply answers_then.
      * apply fueled_try_catch.
        -- apply fueled_bind; [apply fueled_chat_stream|]. intros s.
           apply fueled_bind; [apply fueled_consumeStream|]. intros s'.
           apply fueled_ret.
        -- intros e. apply fueled_bind; [apply fueled_console_error|].
           intros _. apply fueled_ret.
      * intros ev. now apply answers_ret.
    + apply answers_then; [apply fueled_chat_complete|]. intros content.
      now apply answers_ret.
Qed.

(** The earlier query handler always answers too: whatever the request
    and whatever the services do, it returns a response; the status is
    405 exactly when the method is not POST, and otherwise 400, 200 or
    500.  It is 400 only when the body has no prompt or a blank one, and
    then no service has been called. *)
Theorem legacy_query_handler_always_answers :
  forall (env : Env) (event : LegacyQueryEvent) (w : World),
    exists resp,
      fst (ApiRagQuery.handler env event w) = Return resp
      /\ (q_statusCode resp = 405%Z <-> lq_httpMethod event <> lit "POST")
      /\ In (q_statusCode resp) [405; 400; 200; 500]%Z
      /\ (q_statusCode resp = 400%Z ->
          (exists input,
              lq_body event = Some input
              /\ truthyO (option_map trim (lq_prompt input)) = false)
          /\ snd (ApiRagQuery.handler env event w) = w).
Proof.
  intros env event w. unfold ApiRagQuery.handler.
  destruct (str_eqb (lq_httpMethod event) (lit "POST")) eqn:Em; cbn [negb].
  2:{ eexists. split; [reflexivity|]. split; [|split].
      - split; [|reflexivity]. intros _ E. rewrite E in Em.
        rewrite str_eqb_refl in Em. discriminate.
      - cbn. auto.
      - cbn. discriminate. }
  apply str_eqb_eq in Em.
  assert (Hcatch : forall e w',
             exists a,
               fst ((console_error (RagQueryError e) ;;
                     ret {| q_statusCode := 500;
                            q_body := ErrorBody (lit "RAG query failed") None
                                        (ErrorMessage (message e)) |})%js w')
               = Return a /\ q_statusCode a = 500%Z).
  { intros e w'. eexists. split; reflexivity. }
  destruct (lq_body event) as [input|].
  - destruct (truthyO (option_map trim (lq_prompt input))) eqn:Ep; cbn [negb].
    + destruct (answers_caught (fun a => q_statusCode a = 200 \/
                                         q_statusCode a = 500)%Z
                  (pg_connect env ;;
                   try_finally
                     (ApiRagQuery.handler_try env event
                        (showO (lq_prompt input)) (lq_doc_id input)
                        match lq_top_k input with
                        | Some k => k
                        | None => 5%Q
                        end) pg_end)%js
                  (fun err =>
                     (console_error (RagQueryError err) ;;
                      ret {| q_statusCode := 500;
                             q_body := ErrorBody (lit "RAG query failed") None
                                         (ErrorMessage (message err)) |})%js))
        with (w := w) as (resp & E & S).
      * apply answers_then; [apply fueled_pg_roundtrip|]. intros _.
        apply answers_try_finally_end. intros w'.
        pose proof (answers_legacy_try env event (showO (lq_prompt input))
                      (lq_doc_id input)
                      match lq_top_k input with
                      | Some k => k
                      | None => 5%Q
                      end w') as H.
        destruct (fst (ApiRagQuery.handler_try env event _ _ _ w')); auto.
      * intros e w'. destruct (Hcatch e w') as (a & Ea & Sa). eauto.
      * exists resp. split; [exact E|]. split; [|split].
        -- split; [|congruence]. intros H5. rewrite H5 in S. lia.
        -- cbn. destruct S as [-> | ->]; auto.
        -- intros H4. rewrite H4 in S. lia.
    + eexists. split; [reflexivity|]. split; [|split].
      * split; [discriminate|congruence].
      * cbn. auto.
      * intros _. split; [|reflexivity]. exists input. now split.
  - eexists. split; [reflexivity|]. split; [|split].
    + split; [discriminate|congruence].
    + cbn. auto.
    + cbn. discriminate.
Qed.

(** ** Text without digits *)

Lemma span_no_digit s :
  Forall (fun c => isDigit c = false) s -> span isDigit s = 0%nat.
Proof. intros H. destruct H as [|c r Hc _]; cbn; [reflexivity|now rewrite Hc]. Qed.

Lemma prefix_suffix p :
  forall s r, prefix p s = Some r -> exists pre, s = pre ++ r.
Proof.
  induction p as [|a p IH]; intros s r H; cbn in H.
  - injection H as <-. now exists [].
  - destruct s as [|b s']; [discriminate|].
    destruct (a =? b)%N; [|discriminate].
    destruct (IH s' r H) as [pre ->]. now exists (b :: pre).
Qed.

Lemma lit_digits_no_digit word s :
  Forall (fun c => isDigit c = false) s -> lit_digits word s = None.
Proof.
  intros H. unfold lit_digits.
  destruct (prefix (lit word) s) as [r|] eqn:E; [|reflexivity].
  destruct (prefix_suffix _ _ _ E) as [pre ->].
  apply Forall_app in H as [_ H]. now rewrite (span_no_digit r H).
Qed.

Lemma headers_no_digit s bol :
  Forall (fun c => isDigit c = false) s ->
  re_page_footer bol s = None /\ re_heading bol s = None.
Proof.
  intros H. unfold re_page_footer, re_heading, digits_eol.
  rewrite !(lit_digits_no_digit _ s H), (span_no_digit s H).
  destruct bol; split; reflexivity.
Qed.

Lemma replaceAll_no_digit m repl :
  (forall bol s, Forall (fun c => isDigit c = false) s -> m bol s = None) ->
  forall s bol,
    Forall (fun c => isDigit c = false) s -> replaceAll m repl bol 0 s = s.
Proof.
  intros Hm. induction s as [|c r IH]; intros bol H; [reflexivity|].
  cbn [replaceAll]. rewrite (Hm bol (c :: r) H). f_equal.
  apply IH. now inversion H.
Qed.

(** [cleanText] takes nothing but whitespace out of a text that has no
    digit in it: its two header patterns need a number, so the result is
    the text with every run of whitespace made one space, trimmed.  In
    particular a text of whitespace only cleans to the empty string. *)
Theorem cleanText_without_digits :
  forall text : jsstring,
    Forall (fun c => isDigit c = false) text ->
    cleanText text = trim (replace_g re_ws_run [SP] text)
    /\ (Forall (fun c => isWhiteSpace c = true) text -> cleanText text = []).
Proof.
  intros text H.
  assert (E : cleanText text = trim (replace_g re_ws_run [SP] text)).
  { unfold cleanText. unfold replace_g at 1.
    rewrite blank_lines_noop by apply collapsed_no_LF.
    unfold cleanText_collapsed, replace_g.
    rewrite (replaceAll_no_digit re_page_footer []
               (fun bol s Hs => proj1 (headers_no_digit s bol Hs)) text true H).
    rewrite (replaceAll_no_digit re_heading []
               (fun bol s Hs => proj2 (headers_no_digit s bol Hs)) text true H).
    reflexivity. }
  split; [exact E|]. intros Hw. rewrite E.
  destruct text as [|c r]; [reflexivity|].
  assert (Hs : span isWhiteSpace (c :: r) = length (c :: r)).
  { clear -Hw. induction Hw as [|x l Hx _ IH]; cbn; [reflexivity|].
    now rewrite Hx, IH. }
  assert (Hskip : forall (l : jsstring) bol,
             replaceAll re_ws_run [SP] bol (length l) l = []).
  { induction l as [|x l IH]; intros bol; [reflexivity|]. cbn. apply IH. }
  unfold replace_g. cbn [replaceAll]. unfold re_ws_run. rewrite Hs.
  cbn [length]. rewrite Hskip. reflexivity.
Qed.

Lemma cleanText_without_digits_witness :
  cleanText (lit "  a
	 b  ") = lit "a b".
Proof.
  refine (eq_trans
            (proj1 (cleanText_without_digits (lit "  a
	 b  ") _)) _).
  - repeat constructor.
  - vm_compute. reflexivity.
Defined.

(** ** The placeholder embedding *)

Lemma hexDigit_chars c : IngestFake.hexDigit c <> None -> In c hexChars.
Proof.
  unfold IngestFake.hexDigit, hexChars.
  destruct ((48 <=? c) && (c <=? 57))%N eqn:E1.
  { intros _. apply andb_true_iff in E1 as [A B]. apply N.leb_le in A, B.
    assert (H1 : (c = 48 \/ c = 49 \/ c = 50 \/ c = 51 \/ c = 52 \/ c = 53
                  \/ c = 54 \/ c = 55 \/ c = 56 \/ c = 57)%N) by lia.
    cbn. intuition auto. }
  destruct ((97 <=? c) && (c <=? 102))%N eqn:E2.
  { intros _. apply andb_true_iff in E2 as [A B]. apply N.leb_le in A, B.
    assert (H1 : (c = 97 \/ c = 98 \/ c = 99 \/ c = 100 \/ c = 101
                  \/ c = 102)%N) by lia.
    cbn. intuition auto. }
  destruct ((65 <=? c) && (c <=? 70))%N eqn:E3; [|congruence].
  intros _. apply andb_true_iff in E3 as [A B]. apply N.leb_le in A, B.
  assert (H1 : (c = 65 \/ c = 66 \/ c = 67 \/ c = 68 \/ c = 69
                \/ c = 70)%N) by lia.
  cbn. intuition auto.
Qed.

Lemma pairs_in_unit_range :
  forallb (fun c1 =>
             forallb (fun c2 =>
                        in_unit_range (IngestFake.normalized [c1; c2]))
                     hexChars)
          hexChars = true.
Proof. vm_compute. reflexivity. Qed.

Lemma window_of_two {A} (l : list A) k :
  (k + 2 <= length l)%nat ->
  exists a b, firstn 2 (skipn k l) = [a; b] /\ In a l /\ In b l.
Proof.
  intros H.
  assert (Hl : (2 <= length (skipn k l))%nat) by (rewrite length_skipn; lia).
  destruct (skipn k l) as [|a [|b r]] eqn:E; cbn in Hl; try lia.
  exists a, b. split; [reflexivity|].
  assert (Hin : forall x, In x (skipn k l) -> In x l).
  { intros x Hx. rewrite <- (firstn_skipn k l). apply in_or_app. now right. }
  rewrite E in Hin. split; apply Hin; cbn; auto.
Qed.

Lemma hexIndex_digest hash i :
  length hash = 64%nat ->
  IngestFake.hexIndex i hash = ((i * 2) mod 64)%nat
  /\ (IngestFake.hexIndex i hash + 2 <= 64)%nat.
Proof.
  intros H. unfold IngestFake.hexIndex. rewrite H. split; [reflexivity|].
  assert (Hm : ((i * 2) mod 64 < 64)%nat) by (apply Nat.mod_upper_bound; lia).
  pose proof (Nat.div_mod_eq (i * 2) 64) as Hd.
  revert Hm Hd. generalize ((i * 2) mod 64)%nat, ((i * 2) / 64)%nat.
  intros r q Hm Hd. lia.
Qed.

(** The placeholder embedding of the earlier ingestion: it always has
    1536 components; when the digest is the 64 hexadecimal digits of
    SHA-256, every component lies between -1 and 1 and the vector repeats
    with period 32, so that it holds 32 numbers, one for each byte of the
    digest, 48 times over. *)
Theorem generateFakeEmbedding_repeats_the_digest :
  forall (env : Env) (text : jsstring),
    is_digest (sha256_hex env text) ->
    let embedding := IngestFake.generateFakeEmbedding env text in
    length embedding = 1536%nat
    /\ Forall (fun x => in_unit_range x = true) embedding
    /\ forall i, (i + 32 < 1536)%nat ->
                 nth_error embedding (i + 32) = nth_error embedding i.
Proof.
  intros env text [Hlen Hhex] embedding. subst embedding.
  unfold IngestFake.generateFakeEmbedding.
  set (hash := sha256_hex env text) in *.
  split; [now rewrite length_map, length_seq|]. split.
  - apply Forall_forall. intros x Hx.
    apply in_map_iff in Hx as (i & <- & _).
    unfold IngestFake.component, IngestFake.substr.
    destruct (hexIndex_digest hash i Hlen) as [_ Hk].
    destruct (window_of_two hash (IngestFake.hexIndex i hash))
      as (a & b & -> & Ha & Hb); [lia|].
    rewrite Forall_forall in Hhex.
    pose proof (hexDigit_chars a (Hhex a Ha)) as Ca.
    pose proof (hexDigit_chars b (Hhex b Hb)) as Cb.
    pose proof pairs_in_unit_range as P.
    rewrite forallb_forall in P. specialize (P a Ca).
    rewrite forallb_forall in P. exact (P b Cb).
  - intros i Hi.
    rewrite !nth_error_map, !nth_error_seq.
    destruct (Nat.ltb_spec (i + 32) 1536); [|lia].
    destruct (Nat.ltb_spec i 1536); [|lia].
    cbn [option_map Nat.add]. f_equal.
    unfold IngestFake.component.
    destruct (hexIndex_digest hash i Hlen) as [-> _].
    destruct (hexIndex_digest hash (i + 32) Hlen) as [-> _].
    replace ((i + 32) * 2)%nat with (i * 2 + 1 * 64)%nat by lia.
    now rewrite Nat.Div0.mod_add.
Qed.

Lemma generateFakeEmbedding_repeats_the_digest_witness :
  is_digest (sha256_hex env0 digest0)
  /\ nth_error (IngestFake.generateFakeEmbedding env0 digest0) 33
     = nth_error (IngestFake.generateFakeEmbedding env0 digest0) 1.
Proof.
  assert (H : is_digest (sha256_hex env0 digest0)).
  { split; [reflexivity|]. repeat constructor; discriminate. }
  split; [exact H|].
  exact (proj2 (proj2 (generateFakeEmbedding_repeats_the_digest
                         env0 digest0 H)) 1%nat ltac:(lia)).
Defined.
